(** * Consumer-group core of the Kafka client ([pkg/kgo/consume_group.go])

    A shallow embedding of the group consumer's bookkeeping: the offset
    ledger ([uncommitted]), the assignment diff, the revoke step, the
    subscription reconciler, the OffsetFetch decoder and the commit
    pipeline, followed by the properties established about them.

    Conventions.
    - Go's fixed-width integers are [Z]; the only arithmetic the code does
      on them ([final.Offset + 1], an [int64]) has its wrap-around written
      out ([add64]).
    - A Go map that the code compares with [nil] is an [option (gmap _ _)]:
      [None] is the nil map, [Some ∅] an allocated empty one.
    - Inner maps of the ledger are shared objects in Go; writing through a
      reference to [g.uncommitted[t]] is an update of the nested map at
      key [t].
    - Calls that leave the group consumer (requests, user callbacks, the
      fetch pipeline hook, channel sends) are recorded as [event]s. *)

From Stdlib Require Import ZArith String Ascii List Lia.
From stdpp Require Import base option list gmap strings sorting.

#[local] Set Warnings "-clear-no-such-hyp".

Local Open Scope Z_scope.

(** ** Machine integers *)

Definition wrap (w : Z) (z : Z) : Z := (z + 2 ^ (w - 1)) mod 2 ^ w - 2 ^ (w - 1).

(** [int64] addition. *)
Definition add64 (a b : Z) : Z := wrap 64 (a + b).

Definition int64_range (z : Z) : Prop := - 2 ^ 63 <= z < 2 ^ 63.

(** ** [sort.Slice]

    The library sorts in place with the caller's [less]; the order of
    elements that compare equal is not specified by Go.  The model is the
    insertion sort the library runs on short slices, which keeps equal
    elements in their original order. *)

Fixpoint insertSlice {A : Type} (less : A -> A -> bool) (x : A) (l : list A) : list A :=
  match l with
  | [] => [x]
  | y :: l' => if less y x then y :: insertSlice less x l' else x :: y :: l'
  end.

Definition sortSlice {A : Type} (less : A -> A -> bool) (l : list A) : list A :=
  foldr (insertSlice less) [] l.

(** ** The offset ledger *)

(** [EpochOffset] combines a record offset with the leader epoch. *)
Record EpochOffset := mkEpochOffset { Epoch : Z; Offset : Z }.

(** [uncommit] tracks the latest offset polled (+1) and the latest commit. *)
Record uncommit := mkUncommit { head : EpochOffset; committed : EpochOffset }.

#[global] Instance EpochOffset_eq_dec : EqDecision EpochOffset.
Proof. solve_decision. Defined.

#[global] Instance uncommit_eq_dec : EqDecision uncommit.
Proof. solve_decision. Defined.

(** [type uncommitted map[string]map[int32]uncommit], possibly nil. *)
Abbreviation ledger := (gmap string (gmap Z uncommit)).

(** ** Wire messages (the fields of [kmsg] the group consumer touches) *)

(** A partition of an [OffsetCommitRequest] topic; the transactional
    request's partitions carry the same four fields. *)
Record CommitRequestPartition := mkCommitRequestPartition {
  rqPartition : Z;
  rqOffset : Z;
  rqLeaderEpoch : Z;
  rqMetadata : option string
}.

Record CommitRequestTopic := mkCommitRequestTopic {
  rqTopic : string;
  rqPartitions : list CommitRequestPartition
}.

Record CommitResponsePartition := mkCommitResponsePartition {
  rsPartition : Z;
  rsErrorCode : Z
}.

Record CommitResponseTopic := mkCommitResponseTopic {
  rsTopic : string;
  rsPartitions : list CommitResponsePartition
}.

Record OffsetCommitRequest := mkOffsetCommitRequest {
  ocGroup : string;
  ocGeneration : Z;
  ocMemberID : string;
  ocInstanceID : option string;
  ocTopics : list CommitRequestTopic
}.

Record OffsetCommitResponse := mkOffsetCommitResponse {
  ocrTopics : list CommitResponseTopic
}.

Record TxnOffsetCommitRequest := mkTxnOffsetCommitRequest {
  tcTransactionalID : string;
  tcGroup : string;
  tcProducerID : Z;
  tcProducerEpoch : Z;
  tcTopics : list CommitRequestTopic
}.

Record TxnOffsetCommitResponse := mkTxnOffsetCommitResponse {
  tcrTopics : list CommitResponseTopic
}.

(** The four [less] functions handed to [sort.Slice]. *)
Definition reqTopicLess (a b : CommitRequestTopic) : bool :=
  String.ltb (rqTopic a) (rqTopic b).
Definition respTopicLess (a b : CommitResponseTopic) : bool :=
  String.ltb (rsTopic a) (rsTopic b).
Definition reqPartLess (a b : CommitRequestPartition) : bool :=
  rqPartition a <? rqPartition b.
Definition respPartLess (a b : CommitResponsePartition) : bool :=
  rsPartition a <? rsPartition b.

(** ** Fetched records (the fields of [Fetches] read by the ledger) *)

Record Record_ := mkRecord { recLeaderEpoch : Z; recOffset : Z }.

Record FetchPartition := mkFetchPartition {
  fpPartition : Z;
  fpRecords : list Record_
}.

Record FetchTopic := mkFetchTopic {
  ftTopic : string;
  ftPartitions : list FetchPartition
}.

Record Fetch := mkFetch { fTopics : list FetchTopic }.

(** ** The group consumer *)

(** The fields of [groupConsumer] that the modelled methods read or write.
    [topics] is the configured subscription in the order a [range] over it
    visits the keys; [commitCancel] and [commitDone] name the cancel
    function and the completion channel of the latest commit; [using_] is
    the field [using] (a reserved word here); [rejoinCh]
    is the capacity-one channel ([true] when a signal is pending).  The
    callbacks are arguments of the methods that call them. *)
Record groupConsumer := mkGroupConsumer {
  id : string;
  topics : list string;
  cooperative : bool;
  leader : bool;
  using_ : gmap string Z;
  uncommitted : option ledger;
  commitCancel : option nat;
  commitDone : option nat;
  rejoinCh : bool;
  regexTopics : bool;
  reSeen : gset string;
  memberID : string;
  instanceID : option string;
  generation : Z;
  lastAssigned : option (gmap string (list Z));
  nowAssigned : option (gmap string (list Z))
}.

Definition set_uncommitted (u : option ledger) (g : groupConsumer) : groupConsumer :=
  mkGroupConsumer (id g) (topics g) (cooperative g) (leader g) (using_ g) u
    (commitCancel g) (commitDone g) (rejoinCh g) (regexTopics g) (reSeen g)
    (memberID g) (instanceID g) (generation g) (lastAssigned g) (nowAssigned g).

Definition set_nowAssigned (a : option (gmap string (list Z))) (g : groupConsumer) : groupConsumer :=
  mkGroupConsumer (id g) (topics g) (cooperative g) (leader g) (using_ g) (uncommitted g)
    (commitCancel g) (commitDone g) (rejoinCh g) (regexTopics g) (reSeen g)
    (memberID g) (instanceID g) (generation g) (lastAssigned g) a.

Definition set_rejoinCh (b : bool) (g : groupConsumer) : groupConsumer :=
  mkGroupConsumer (id g) (topics g) (cooperative g) (leader g) (using_ g) (uncommitted g)
    (commitCancel g) (commitDone g) b (regexTopics g) (reSeen g)
    (memberID g) (instanceID g) (generation g) (lastAssigned g) (nowAssigned g).

Definition set_using (u : gmap string Z) (g : groupConsumer) : groupConsumer :=
  mkGroupConsumer (id g) (topics g) (cooperative g) (leader g) u (uncommitted g)
    (commitCancel g) (commitDone g) (rejoinCh g) (regexTopics g) (reSeen g)
    (memberID g) (instanceID g) (generation g) (lastAssigned g) (nowAssigned g).

Definition set_reSeen (s : gset string) (g : groupConsumer) : groupConsumer :=
  mkGroupConsumer (id g) (topics g) (cooperative g) (leader g) (using_ g) (uncommitted g)
    (commitCancel g) (commitDone g) (rejoinCh g) (regexTopics g) s
    (memberID g) (instanceID g) (generation g) (lastAssigned g) (nowAssigned g).

Definition set_commit (cancel done : option nat) (g : groupConsumer) : groupConsumer :=
  mkGroupConsumer (id g) (topics g) (cooperative g) (leader g) (using_ g) (uncommitted g)
    cancel done (rejoinCh g) (regexTopics g) (reSeen g)
    (memberID g) (instanceID g) (generation g) (lastAssigned g) (nowAssigned g).

(** ** [updateUncommitted] *)

(** The body of the innermost loop.  [topicOffsets] is the local variable
    of that name: [None] while it is nil, [Some k] once it refers to the
    map stored at [g.uncommitted[k]].  The variable is declared per fetch,
    outside the loop over the fetch's topics, and is only assigned while
    nil. *)
Definition updatePartition (topic : string) (partition : FetchPartition)
    (st : option ledger * option string) : option ledger * option string :=
  match last (fpRecords partition) with
  | None => st
  | Some final =>
      let '(unc, topicOffsets) := st in
      let '(u, k) :=
        match topicOffsets with
        | Some k => (default ∅ unc, k)
        | None =>
            let u := default ∅ unc in
            match u !! topic with
            | Some _ => (u, topic)
            | None => (<[topic := ∅]> u, topic)
            end
        end in
      let m : gmap Z uncommit := default ∅ (u !! k) in
      let newOffset := add64 (recOffset final) 1 in
      match m !! fpPartition partition with
      | Some un =>
          if Offset (head un) >? newOffset then (Some u, Some k)
          else (Some (<[k := <[fpPartition partition :=
                  mkUncommit (mkEpochOffset (recLeaderEpoch final) newOffset)
                             (committed un)]> m]> u), Some k)
      | None =>
          (Some (<[k := <[fpPartition partition :=
                  mkUncommit (mkEpochOffset (recLeaderEpoch final) newOffset)
                             (mkEpochOffset 0 0)]> m]> u), Some k)
      end
  end.

Definition updateTopic (topic : FetchTopic)
    (st : option ledger * option string) : option ledger * option string :=
  foldl (fun st partition => updatePartition (ftTopic topic) partition st)
        st (ftPartitions topic).

Definition updateFetch (unc : option ledger) (fetch : Fetch) : option ledger :=
  fst (foldl (fun st topic => updateTopic topic st) (unc, None) (fTopics fetch)).

Definition updateUncommitted (g : groupConsumer) (fetches : list Fetch) : groupConsumer :=
  set_uncommitted (foldl updateFetch (uncommitted g) fetches) g.

(** ** [updateCommitted] and [updateCommittedTxn] *)

(** The body of the loop over a topic's partitions; [topic] is the ledger's
    map for the response topic. *)
Definition commitPartition (topic : gmap Z uncommit)
    (reqPart : CommitRequestPartition) (respPart : CommitResponsePartition)
    : gmap Z uncommit :=
  match topic !! rsPartition respPart with
  | None => topic
  | Some un =>
      if bool_decide (rsErrorCode respPart ≠ 0)
         || bool_decide (rqPartition reqPart ≠ rsPartition respPart)
      then topic
      else <[rsPartition respPart :=
               mkUncommit (head un)
                 (mkEpochOffset (rqLeaderEpoch reqPart) (rqOffset reqPart))]> topic
  end.

Fixpoint commitPartitions (topic : gmap Z uncommit)
    (reqParts : list CommitRequestPartition)
    (respParts : list CommitResponsePartition) : gmap Z uncommit :=
  match reqParts, respParts with
  | reqPart :: reqParts', respPart :: respParts' =>
      commitPartitions (commitPartition topic reqPart respPart) reqParts' respParts'
  | _, _ => topic
  end.

(** The body of the loop over the topics: the ledger after the iteration
    and the two topics as the iteration leaves them (their partitions are
    sorted in place once the guards are passed). *)
Definition commitTopic (u : ledger)
    (reqTopic : CommitRequestTopic) (respTopic : CommitResponseTopic)
    : ledger * CommitRequestTopic * CommitResponseTopic :=
  match u !! rsTopic respTopic with
  | None => (u, reqTopic, respTopic)
  | Some topic =>
      if bool_decide (rqTopic reqTopic ≠ rsTopic respTopic)
         || bool_decide (length (rqPartitions reqTopic) ≠ length (rsPartitions respTopic))
      then (u, reqTopic, respTopic)
      else
        let reqParts := sortSlice reqPartLess (rqPartitions reqTopic) in
        let respParts := sortSlice respPartLess (rsPartitions respTopic) in
        (<[rsTopic respTopic := commitPartitions topic reqParts respParts]> u,
         mkCommitRequestTopic (rqTopic reqTopic) reqParts,
         mkCommitResponseTopic (rsTopic respTopic) respParts)
  end.

Fixpoint commitTopics (u : ledger)
    (reqTopics : list CommitRequestTopic) (respTopics : list CommitResponseTopic)
    : ledger * list CommitRequestTopic * list CommitResponseTopic :=
  match reqTopics, respTopics with
  | reqTopic :: reqTopics', respTopic :: respTopics' =>
      let '(u1, reqTopic1, respTopic1) := commitTopic u reqTopic respTopic in
      let '(u2, reqTopics2, respTopics2) := commitTopics u1 reqTopics' respTopics' in
      (u2, reqTopic1 :: reqTopics2, respTopic1 :: respTopics2)
  | _, _ => (u, reqTopics, respTopics)
  end.

(** [updateCommitted]: the group consumer afterwards, with the request and
    the response as the in-place sorts leave them. *)
Definition updateCommitted (g : groupConsumer)
    (req : OffsetCommitRequest) (resp : OffsetCommitResponse)
    : groupConsumer * OffsetCommitRequest * OffsetCommitResponse :=
  if bool_decide (ocGeneration req ≠ generation g) then (g, req, resp)
  else
    match uncommitted g with
    | None => (g, req, resp)
    | Some u =>
        if bool_decide (length (ocTopics req) ≠ length (ocrTopics resp))
        then (g, req, resp)
        else
          let '(u', reqTopics, respTopics) :=
            commitTopics u (sortSlice reqTopicLess (ocTopics req))
                           (sortSlice respTopicLess (ocrTopics resp)) in
          (set_uncommitted (Some u') g,
           mkOffsetCommitRequest (ocGroup req) (ocGeneration req) (ocMemberID req)
             (ocInstanceID req) reqTopics,
           mkOffsetCommitResponse respTopics)
    end.

(** [updateCommittedTxn]: the same minus the generation check. *)
Definition updateCommittedTxn (g : groupConsumer)
    (req : TxnOffsetCommitRequest) (resp : TxnOffsetCommitResponse)
    : groupConsumer * TxnOffsetCommitRequest * TxnOffsetCommitResponse :=
  match uncommitted g with
  | None => (g, req, resp)
  | Some u =>
      if bool_decide (length (tcTopics req) ≠ length (tcrTopics resp))
      then (g, req, resp)
      else
        let '(u', reqTopics, respTopics) :=
          commitTopics u (sortSlice reqTopicLess (tcTopics req))
                         (sortSlice respTopicLess (tcrTopics resp)) in
        (set_uncommitted (Some u') g,
         mkTxnOffsetCommitRequest (tcTransactionalID req) (tcGroup req)
           (tcProducerID req) (tcProducerEpoch req) reqTopics,
         mkTxnOffsetCommitResponse respTopics)
  end.

(** ** Effects *)

Inductive assignHow :=
| assignInvalidateAll
| assignInvalidateMatching
| assignWithoutInvalidating.

(** The consumer's [Offset] (named [kgoOffset] here, [Offset] being the
    field of [EpochOffset]): the type is declared with the fetch pipeline;
    [request] and [epoch] are the two fields this file assigns. *)
Record kgoOffset := mkOffset { request : Z; epoch : Z }.

Record LeaveGroupRequest := mkLeaveGroupRequest {
  lgGroup : string;
  lgMemberID : string;
  lgMembers : list string
}.

Record OffsetFetchRequestTopic := mkOffsetFetchRequestTopic {
  ofrTopic : string;
  ofrPartitions : list Z
}.

Record OffsetFetchRequest := mkOffsetFetchRequest {
  ofrGroup : string;
  ofrTopics : list OffsetFetchRequestTopic
}.

(** What a method does to the world outside the group consumer, in the
    order it does it. *)
Inductive event :=
| EvCancel
| EvLeaveGroupRequest (req : LeaveGroupRequest)
| EvOffsetFetchRequest (req : OffsetFetchRequest)
| EvMaybeAssignPartitions (offsets : option (gmap string (gmap Z kgoOffset))) (how : assignHow)
| EvResetAndLoadOffsets
| EvOnRevoked (lost : option (gmap string (list Z)))
| EvRejoin
| EvMatchString (pattern topic : string)
| EvManage.

(** A user callback ([onRevoked]) is code of the caller: it receives the
    partitions and may change the group consumer through the client. *)
Definition callback : Type :=
  option (gmap string (list Z)) -> groupConsumer -> groupConsumer.

(** Reading a possibly nil map. *)
Definition goLookup {V : Type} (m : option (gmap string V)) (k : string) : option V :=
  match m with
  | None => None
  | Some m => m !! k
  end.

Definition goLen {V : Type} (m : option (gmap string V)) : nat :=
  match m with
  | None => 0%nat
  | Some m => size m
  end.

(** ** [leave] *)

Definition leave (g : groupConsumer) : list event :=
  EvCancel ::
  match instanceID g with
  | None =>
      [EvLeaveGroupRequest
         (mkLeaveGroupRequest (id g) (memberID g) [memberID g])]
  | Some _ => []
  end.

(** ** [rejoin] *)

(** A non-blocking send on the capacity-one channel. *)
Definition rejoin (g : groupConsumer) : groupConsumer * list event :=
  (set_rejoinCh true g, [EvRejoin]).

(** ** [diffAssigned] *)

(** [m[topic] = append(m[topic], p)] *)
Definition appendTo (m : gmap string (list Z)) (topic : string) (p : Z)
    : gmap string (list Z) :=
  <[topic := default [] (m !! topic) ++ [p]]> m.

(** The loop over [nowPartitions]: a partition not in [lasts] is added,
    one in [lasts] is in common and removed from [lasts]. *)
Definition diffNow (topic : string) (st : gmap string (list Z) * gset Z)
    (nowPartition : Z) : gmap string (list Z) * gset Z :=
  let '(added, lasts) := st in
  if decide (nowPartition ∈ lasts)
  then (added, lasts ∖ {[nowPartition]})
  else (appendTo added topic nowPartition, lasts).

(** The body of the loop over [lastAssigned]; the state is
    [(added, lost, lasts)], [lasts] being the scratch set the loop reuses.
    The last inner loop ranges over [lasts] in an order Go does not fix. *)
Definition diffTopic (now : option (gmap string (list Z)))
    (topic : string) (lastPartitions : list Z)
    (st : gmap string (list Z) * gmap string (list Z) * gset Z)
    : gmap string (list Z) * gmap string (list Z) * gset Z :=
  let '(added, lost, lasts) := st in
  match goLookup now topic with
  | None => (added, <[topic := lastPartitions]> lost, lasts)
  | Some nowPartitions =>
      let lasts1 := foldl (fun s p => {[p]} ∪ s) lasts lastPartitions in
      let '(added1, lasts2) := foldl (diffNow topic) (added, lasts1) nowPartitions in
      let '(lost1, lasts3) :=
        foldl (fun st last => (appendTo st.1 topic last, st.2 ∖ {[last]}))
              (lost, lasts2) (elements lasts2) in
      (added1, lost1, lasts3)
  end.

(** The body of the second loop, over [nowAssigned]. *)
Definition diffNewTopic (last : gmap string (list Z))
    (topic : string) (nowPartitions : list Z)
    (added : gmap string (list Z)) : gmap string (list Z) :=
  match last !! topic with
  | None => <[topic := nowPartitions]> added
  | Some _ => added
  end.

Definition diffAssigned (g : groupConsumer)
    : option (gmap string (list Z)) * option (gmap string (list Z)) :=
  match lastAssigned g with
  | None => (nowAssigned g, None)
  | Some last =>
      let '(added, lost, _) :=
        map_fold (diffTopic (nowAssigned g)) (∅, ∅, ∅) last in
      let added' := map_fold (diffNewTopic last) added (default ∅ (nowAssigned g)) in
      (Some added', Some lost)
  end.

(** ** [revoke] *)

Inductive revokeStage := revokeLastSession | revokeThisSession.

Definition lostPartitionOffsets (lostPartitions : list Z) : gmap Z kgoOffset :=
  foldl (fun m p => <[p := mkOffset 0 0]> m) ∅ lostPartitions.

(** The body of the loop that prunes the ledger. *)
Definition pruneTopic (lostTopic : string) (lostPartitions : list Z) (u : ledger)
    : ledger :=
  match u !! lostTopic with
  | None => u
  | Some uncommittedPartitions =>
      let ps := foldl (fun m p => delete p m) uncommittedPartitions lostPartitions in
      if decide (size ps = 0%nat) then delete lostTopic u
      else <[lostTopic := ps]> u
  end.

Definition pruneLost (lost : gmap string (list Z)) (unc : option ledger)
    : option ledger :=
  match unc with
  | None => None
  | Some u =>
      let u' := map_fold pruneTopic u lost in
      if decide (size u' = 0%nat) then None else Some u'
  end.

Definition callOnRevoked (cb : option callback)
    (parts : option (gmap string (list Z))) (g : groupConsumer)
    : groupConsumer * list event :=
  match cb with
  | None => (g, [])
  | Some f => (f parts g, [EvOnRevoked parts])
  end.

(** [revoke]; [cb] is [g.onRevoked] (nil when [None]). *)
Definition revoke (cb : option callback) (g : groupConsumer)
    (stage : revokeStage) (lost : option (gmap string (list Z)))
    : groupConsumer * list event :=
  if negb (cooperative g) then
    let '(g1, ev) := callOnRevoked cb (nowAssigned g) g in
    (set_uncommitted None (set_nowAssigned None g1), ev)
  else
    if decide (goLen lost = 0%nat) then (g, [])
    else
      let lostOffsets := lostPartitionOffsets <$> default ∅ lost in
      let '(g1, ev) := callOnRevoked cb lost g in
      let g2 := set_uncommitted (pruneLost (default ∅ lost) (uncommitted g1)) g1 in
      let '(g3, ev') := rejoin g2 in
      (g3,
       EvMaybeAssignPartitions (Some lostOffsets) assignInvalidateMatching
         :: ev ++ ev').

(** ** [findNewAssignments] *)

(** What [topicPartitions.load()] yields: one entry per partition (only
    the length is read) and the internal-topic flag. *)
Record topicPartitionsData := mkTopicPartitionsData {
  partitions : list Z;
  isInternal : bool
}.

Record change := mkChange { isNew : bool; delta : Z }.

(** The loop over the configured expressions: [regexp.MatchString] is
    called on each until one matches.  [MatchString] is the standard
    library's matcher, a parameter of the model. *)
Fixpoint matchTopics (MatchString : string -> string -> bool)
    (reTopics : list string) (topic : string) : bool * list event :=
  match reTopics with
  | [] => (false, [])
  | reTopic :: rest =>
      if MatchString reTopic topic then (true, [EvMatchString reTopic topic])
      else
        let '(useTopic, ev) := matchTopics MatchString rest topic in
        (useTopic, EvMatchString reTopic topic :: ev)
  end.

(** The state of the loop over the metadata topics. *)
Record findState := mkFindState {
  fsReSeen : gset string;
  fsToChange : gmap string change;
  fsNumNew : Z;
  fsEvents : list event
}.

(** The body of the loop over the metadata topics. *)
Definition findTopic (MatchString : string -> string -> bool) (g : groupConsumer)
    (st : findState) (entry : string * topicPartitionsData) : findState :=
  let '(topic, topicPartitions) := entry in
  let numPartitions := Z.of_nat (length (partitions topicPartitions)) in
  match using_ g !! topic with
  | Some used =>
      if numPartitions - used >? 0
      then mkFindState (fsReSeen st)
             (<[topic := mkChange false (numPartitions - used)]> (fsToChange st))
             (fsNumNew st) (fsEvents st)
      else st
  | None =>
      let '(useTopic, reSeen', ev) :=
        if regexTopics g then
          if decide (topic ∈ fsReSeen st) then (false, fsReSeen st, [])
          else
            let '(useTopic, ev) := matchTopics MatchString (topics g) topic in
            (useTopic, {[topic]} ∪ fsReSeen st, ev)
        else (bool_decide (topic ∈ topics g), fsReSeen st, []) in
      if useTopic then
        if regexTopics g && isInternal topicPartitions
        then mkFindState reSeen' (fsToChange st) (fsNumNew st) (fsEvents st ++ ev)
        else mkFindState reSeen'
               (<[topic := mkChange true numPartitions]> (fsToChange st))
               (fsNumNew st + 1) (fsEvents st ++ ev)
      else mkFindState reSeen' (fsToChange st) (fsNumNew st) (fsEvents st ++ ev)
  end.

(** [g.using[topic] += change.delta] *)
Definition applyChange (topic : string) (c : change) (u : gmap string Z)
    : gmap string Z :=
  <[topic := default 0 (u !! topic) + delta c]> u.

(** [findNewAssignments]; [topics] lists the metadata map in the order the
    loop visits it. *)
Definition findNewAssignments (MatchString : string -> string -> bool)
    (g : groupConsumer) (topics : list (string * topicPartitionsData))
    : groupConsumer * list event :=
  let st := foldl (findTopic MatchString g)
                  (mkFindState (reSeen g) ∅ 0 []) topics in
  let g1 := set_reSeen (fsReSeen st) g in
  if decide (size (fsToChange st) = 0%nat) then (g1, fsEvents st)
  else
    let wasManaging := negb (bool_decide (size (using_ g1) = 0%nat)) in
    let g2 := set_using (map_fold applyChange (using_ g1) (fsToChange st)) g1 in
    let ev1 := if wasManaging then [] else [EvManage] in
    if (fsNumNew st >? 0) || leader g2 then
      let '(g3, ev2) := rejoin g2 in
      (g3, fsEvents st ++ ev1 ++ ev2)
    else (g2, fsEvents st ++ ev1).

(** A sequence of metadata updates, one call each. *)
Definition findNewAssignmentsAll (MatchString : string -> string -> bool)
    (g : groupConsumer) (updates : list (list (string * topicPartitionsData)))
    : groupConsumer * list event :=
  foldl (fun st topics =>
           let '(g1, ev) := findNewAssignments MatchString st.1 topics in
           (g1, st.2 ++ ev))
        (g, []) updates.

(** ** [fetchOffsets] *)

Record OffsetFetchResponseTopicPartition := mkOffsetFetchResponseTopicPartition {
  ofPartition : Z;
  ofOffset : Z;
  ofLeaderEpoch : Z;
  ofPartErrorCode : Z
}.

Record OffsetFetchResponseTopic := mkOffsetFetchResponseTopic {
  ofTopic : string;
  ofPartitions : list OffsetFetchResponseTopicPartition
}.

Record OffsetFetchResponse := mkOffsetFetchResponse {
  ofVersion : Z;
  ofTopics : list OffsetFetchResponseTopic;
  ofErrorCode : Z
}.

Section Kerr.

(** The error values of Go and the two functions of package [kerr] that
    [fetchOffsets] calls; [ErrorForCode] yields [None] for a nil error. *)
Context {error : Type}.
Context (ErrorForCode : Z -> option error).
Context (IsRetriable : error -> bool).
Context (errorsNew : string -> error).

(** The error code [fetchOffsets] inspects first. *)
Definition fetchErrCode (resp : OffsetFetchResponse) : Z :=
  if ofVersion resp <? 2 then
    match ofTopics resp with
    | rTopic :: _ =>
        match ofPartitions rTopic with
        | rPartition :: _ => ofPartErrorCode rPartition
        | [] => ofErrorCode resp
        end
    | [] => ofErrorCode resp
    end
  else ofErrorCode resp.

(** The offset stored for one partition of the response. *)
Definition fetchPartitionOffset (version : Z) (resetOffset : kgoOffset)
    (rPartition : OffsetFetchResponseTopicPartition) : kgoOffset :=
  let offset := mkOffset (ofOffset rPartition) (-1) in
  let offset :=
    if version >=? 5 then mkOffset (request offset) (ofLeaderEpoch rPartition)
    else offset in
  if ofOffset rPartition =? -1 then resetOffset else offset.

(** The loop over a topic's partitions: [inl] is the early [return]. *)
Fixpoint fetchPartitions (version : Z) (resetOffset : kgoOffset)
    (topicOffsets : gmap Z kgoOffset)
    (rPartitions : list OffsetFetchResponseTopicPartition)
    : option error + gmap Z kgoOffset :=
  match rPartitions with
  | [] => inr topicOffsets
  | rPartition :: rest =>
      if bool_decide (ofPartErrorCode rPartition ≠ 0)
      then inl (ErrorForCode (ofPartErrorCode rPartition))
      else fetchPartitions version resetOffset
             (<[ofPartition rPartition :=
                  fetchPartitionOffset version resetOffset rPartition]> topicOffsets)
             rest
  end.

(** The loop over the response's topics. *)
Fixpoint fetchTopics (version : Z) (resetOffset : kgoOffset)
    (offsets : gmap string (gmap Z kgoOffset))
    (rTopics : list OffsetFetchResponseTopic)
    : option error + gmap string (gmap Z kgoOffset) :=
  match rTopics with
  | [] => inr offsets
  | rTopic :: rest =>
      match fetchPartitions version resetOffset ∅ (ofPartitions rTopic) with
      | inl err => inl err
      | inr topicOffsets =>
          fetchTopics version resetOffset
            (<[ofTopic rTopic := topicOffsets]> offsets) rest
      end
  end.

(** [fetchOffsets]: the returned error ([None] for nil) and what was done.
    [reply] is what [g.cl.Request] returns, [assigned] what
    [maybeAssignPartitions] answers, [resetOffset] is
    [g.cl.cfg.resetOffset]. *)
Definition fetchOffsets (g : groupConsumer)
    (newAssigned : option (gmap string (list Z)))
    (resetOffset : kgoOffset)
    (reply : error + OffsetFetchResponse) (assigned : bool)
    : option error * list event :=
  let req :=
    mkOffsetFetchRequest (id g)
      ((fun tp => mkOffsetFetchRequestTopic tp.1 tp.2)
         <$> map_to_list (default ∅ newAssigned)) in
  match reply with
  | inl err => (Some err, [EvOffsetFetchRequest req])
  | inr resp =>
      let decoded :=
        match fetchTopics (ofVersion resp) resetOffset ∅ (ofTopics resp) with
        | inl err' => (err', [EvOffsetFetchRequest req])
        | inr offsets =>
            let assignHow :=
              if cooperative g then assignWithoutInvalidating
              else assignInvalidateAll in
            if assigned then
              (None, [EvOffsetFetchRequest req;
                      EvMaybeAssignPartitions (Some offsets) assignHow;
                      EvResetAndLoadOffsets])
            else
              (Some (errorsNew "stale group"),
               [EvOffsetFetchRequest req;
                EvMaybeAssignPartitions (Some offsets) assignHow])
        end in
      match ErrorForCode (fetchErrCode resp) with
      | Some err =>
          if negb (IsRetriable err) then (Some err, [EvOffsetFetchRequest req])
          else decoded
      | None => decoded
      end
  end.

End Kerr.

(** ** The commit pipeline: [commit] and [commitTxn]

    A call to [commit] runs its first part under the group lock and leaves
    the rest to a goroutine.  The goroutines, the contexts and the
    completion channels live in a [world]; every call is numbered, and the
    number names the call's [commitCtx] / [commitCancel] and its
    [commitDone] channel. *)

Inductive commitRequest :=
| PlainRequest (req : OffsetCommitRequest)
| TxnRequest (req : TxnOffsetCommitRequest).

Inductive commitResponse :=
| PlainResponse (resp : OffsetCommitResponse)
| TxnResponse (resp : TxnOffsetCommitResponse).

(** [new(kmsg.OffsetCommitRequest)] and its three siblings. *)
Definition newOffsetCommitRequest : OffsetCommitRequest :=
  mkOffsetCommitRequest "" 0 "" None [].
Definition newOffsetCommitResponse : OffsetCommitResponse :=
  mkOffsetCommitResponse [].
Definition newTxnOffsetCommitRequest : TxnOffsetCommitRequest :=
  mkTxnOffsetCommitRequest "" "" 0 0 [].
Definition newTxnOffsetCommitResponse : TxnOffsetCommitResponse :=
  mkTxnOffsetCommitResponse [].

(** The client's transactional identity read by [commitTxn]. *)
Record producerInfo := mkProducerInfo {
  txnID : string;
  producerID : Z;
  producerEpoch : Z
}.

(** Where a commit goroutine stands. *)
Inductive stage :=
| AwaitPrior                          (* before [<-priorDone] *)
| Ready                               (* prior done; request not yet built *)
| InFlight                            (* inside [g.cl.Request] *)
| Updating (resp : commitResponse)    (* response in hand, ledger not yet updated *)
| Calling (resp : commitResponse)     (* ledger updated, [onDone] not yet called *)
| Finishing                           (* [onDone] returned; deferred calls pending *)
| Finished                            (* [commitDone] closed *)
| Panicked.                           (* type assertion on a nil response *)

(** A commit goroutine: the captured [priorDone], [uncommitted], [memberID]
    and request, and its position. *)
Record task := mkTask {
  tPriorDone : option nat;
  tUncommitted : gmap string (gmap Z EpochOffset);
  tMemberID : string;
  tReq : commitRequest;
  tStage : stage
}.

Definition set_stage (s : stage) (t : task) : task :=
  mkTask (tPriorDone t) (tUncommitted t) (tMemberID t) (tReq t) s.

Definition set_req (r : commitRequest) (t : task) : task :=
  mkTask (tPriorDone t) (tUncommitted t) (tMemberID t) r (tStage t).

Section Pipeline.

Context {error : Type}.

(** What the pipeline does, in order of occurrence; [c] is the number of
    the call concerned. *)
Inductive commitEvent :=
| CevCancel (c : nat)
| CevRequest (c : nat) (req : commitRequest)
| CevUpdate (c : nat)
| CevOnDone (c : nat) (req : commitRequest) (resp : option commitResponse)
            (err : option error)
| CevClose (c : nat).

Record world := mkWorld {
  wGroup : groupConsumer;
  wCancelled : gset nat;
  wClosed : gset nat;
  wNext : nat;
  wTasks : gmap nat task;
  wTrace : list commitEvent
}.

(** A group consumer as [AssignGroup] creates it has no commit handle. *)
Definition initWorld (g : groupConsumer) : world :=
  mkWorld (set_commit None None g) ∅ ∅ 0 ∅ [].

(** The part of [commit] and [commitTxn] between the empty check and the
    construction of the request: cancel the prior commit, remember its
    completion channel, install the new handles. *)
Definition installCommit (w : world)
    : world * option nat :=
  let g := wGroup w in
  let c := wNext w in
  let '(cancelled, ev) :=
    match commitCancel g with
    | Some k => ({[k]} ∪ wCancelled w, [CevCancel k])
    | None => (wCancelled w, [])
    end in
  let priorDone := commitDone g in
  (mkWorld (set_commit (Some c) (Some c) g) cancelled (wClosed w) (S c)
           (wTasks w) (wTrace w ++ ev),
   priorDone).

Definition spawn (c : nat) (t : task) (w : world) : world :=
  mkWorld (wGroup w) (wCancelled w) (wClosed w) (wNext w)
          (<[c := t]> (wTasks w)) (wTrace w).

(** The synchronous part of [commit]. *)
Definition commit (w : world)
    (uncommitted : option (gmap string (gmap Z EpochOffset))) : world :=
  let c := wNext w in
  if decide (goLen uncommitted = 0%nat) then
    mkWorld (wGroup w) (wCancelled w) (wClosed w) (S c) (wTasks w)
      (wTrace w ++ [CevOnDone c (PlainRequest newOffsetCommitRequest)
                      (Some (PlainResponse newOffsetCommitResponse)) None])
  else
    let g := wGroup w in
    let '(w1, priorDone) := installCommit w in
    let req :=
      mkOffsetCommitRequest (id g) (generation g) (memberID g) (instanceID g) [] in
    spawn c (mkTask priorDone (default ∅ uncommitted) (memberID g)
                    (PlainRequest req) AwaitPrior) w1.

(** The synchronous part of [commitTxn]. *)
Definition commitTxn (cl : producerInfo) (w : world)
    (uncommitted : option (gmap string (gmap Z EpochOffset))) : world :=
  let c := wNext w in
  if decide (goLen uncommitted = 0%nat) then
    mkWorld (wGroup w) (wCancelled w) (wClosed w) (S c) (wTasks w)
      (wTrace w ++ [CevOnDone c (TxnRequest newTxnOffsetCommitRequest)
                      (Some (TxnResponse newTxnOffsetCommitResponse)) None])
  else
    let g := wGroup w in
    let '(w1, priorDone) := installCommit w in
    let req :=
      mkTxnOffsetCommitRequest (txnID cl) (id g) (producerID cl) (producerEpoch cl) [] in
    spawn c (mkTask priorDone (default ∅ uncommitted) (memberID g)
                    (TxnRequest req) AwaitPrior) w1.

(** The goroutine's loop that fills [req.Topics] from [uncommitted]. *)
Definition buildTopics (memberID : string)
    (uncommitted : gmap string (gmap Z EpochOffset)) : list CommitRequestTopic :=
  (fun tp =>
     mkCommitRequestTopic tp.1
       ((fun pe =>
           mkCommitRequestPartition pe.1 (Offset pe.2) (Epoch pe.2) (Some memberID))
          <$> map_to_list tp.2))
    <$> map_to_list uncommitted.

Definition withTopics (r : commitRequest) (ts : list CommitRequestTopic)
    : commitRequest :=
  match r with
  | PlainRequest req =>
      PlainRequest (mkOffsetCommitRequest (ocGroup req) (ocGeneration req)
                      (ocMemberID req) (ocInstanceID req) (ocTopics req ++ ts))
  | TxnRequest req =>
      TxnRequest (mkTxnOffsetCommitRequest (tcTransactionalID req) (tcGroup req)
                    (tcProducerID req) (tcProducerEpoch req) (tcTopics req ++ ts))
  end.

Definition requestTopics (r : commitRequest) : list CommitRequestTopic :=
  match r with
  | PlainRequest req => ocTopics req
  | TxnRequest req => tcTopics req
  end.

(** A response of the type the goroutine asserts. *)
Definition sameKind (r : commitRequest) (resp : commitResponse) : bool :=
  match r, resp with
  | PlainRequest _, PlainResponse _ => true
  | TxnRequest _, TxnResponse _ => true
  | _, _ => false
  end.

(** [g.updateCommitted(req, resp)] or [g.updateCommittedTxn(req, resp)]. *)
Definition applyUpdate (g : groupConsumer) (r : commitRequest) (resp : commitResponse)
    : groupConsumer * commitRequest * commitResponse :=
  match r, resp with
  | PlainRequest req, PlainResponse rs =>
      let '(g', req', rs') := updateCommitted g req rs in
      (g', PlainRequest req', PlainResponse rs')
  | TxnRequest req, TxnResponse rs =>
      let '(g', req', rs') := updateCommittedTxn g req rs in
      (g', TxnRequest req', TxnResponse rs')
  | _, _ => (g, r, resp)
  end.

Definition setTask (c : nat) (t : task) (ev : list commitEvent) (w : world) : world :=
  mkWorld (wGroup w) (wCancelled w) (wClosed w) (wNext w)
          (<[c := t]> (wTasks w)) (wTrace w ++ ev).

(** One step of the goroutine of call [c], whose state is [t]. *)
Inductive taskStep (w : world) (c : nat) (t : task) : world -> Prop :=
| TAwait :
    tStage t = AwaitPrior ->
    (forall m, tPriorDone t = Some m -> m ∈ wClosed w) ->
    taskStep w c t (setTask c (set_stage Ready t) [] w)
| TRequest req :
    tStage t = Ready ->
    req = withTopics (tReq t) (buildTopics (tMemberID t) (tUncommitted t)) ->
    requestTopics req <> [] ->
    taskStep w c t (setTask c (set_stage InFlight (set_req req t)) [CevRequest c req] w)
| TPanic req :
    tStage t = Ready ->
    req = withTopics (tReq t) (buildTopics (tMemberID t) (tUncommitted t)) ->
    requestTopics req = [] ->
    taskStep w c t (setTask c (set_stage Panicked (set_req req t)) [] w)
| TFail err :
    tStage t = InFlight ->
    taskStep w c t
      (setTask c (set_stage Finishing t) [CevOnDone c (tReq t) None (Some err)] w)
| TReply resp :
    tStage t = InFlight ->
    sameKind (tReq t) resp = true ->
    taskStep w c t (setTask c (set_stage (Updating resp) t) [] w)
| TUpdate resp g' req' resp' :
    tStage t = Updating resp ->
    applyUpdate (wGroup w) (tReq t) resp = (g', req', resp') ->
    taskStep w c t
      (mkWorld g' (wCancelled w) (wClosed w) (wNext w)
         (<[c := set_stage (Calling resp') (set_req req' t)]> (wTasks w))
         (wTrace w ++ [CevUpdate c]))
| TDone resp :
    tStage t = Calling resp ->
    taskStep w c t
      (setTask c (set_stage Finishing t) [CevOnDone c (tReq t) (Some resp) None] w)
| TClose :
    tStage t = Finishing ->
    taskStep w c t
      (mkWorld (wGroup w) ({[c]} ∪ wCancelled w) ({[c]} ∪ wClosed w) (wNext w)
         (<[c := set_stage Finished t]> (wTasks w))
         (wTrace w ++ [CevCancel c; CevClose c])).

(** One step of the whole: a call to [commit] or [commitTxn], a step of a
    commit goroutine, a cancellation of a commit's context from outside
    (the caller's context or the session's), or any other method changing
    the group consumer while leaving the two commit handles alone. *)
Inductive step : world -> world -> Prop :=
| StepCommit w uncommitted :
    step w (commit w uncommitted)
| StepCommitTxn w cl uncommitted :
    step w (commitTxn cl w uncommitted)
| StepTask w c t w' :
    wTasks w !! c = Some t ->
    taskStep w c t w' ->
    step w w'
| StepCancel w c :
    step w (mkWorld (wGroup w) ({[c]} ∪ wCancelled w) (wClosed w) (wNext w)
              (wTasks w) (wTrace w ++ [CevCancel c]))
| StepOther w g' :
    commitCancel g' = commitCancel (wGroup w) ->
    commitDone g' = commitDone (wGroup w) ->
    step w (mkWorld g' (wCancelled w) (wClosed w) (wNext w) (wTasks w) (wTrace w)).

(** The worlds a group consumer can get into, starting with no commit
    handle installed. *)
Inductive reachable (g0 : groupConsumer) : world -> Prop :=
| ReachInit : reachable g0 (initWorld g0)
| ReachStep w w' : reachable g0 w -> step w w' -> reachable g0 w'.

(** The goroutine of call [c] has run to its end. *)
Definition finishedAt (c : nat) (w : world) : Prop :=
  exists t, wTasks w !! c = Some t /\ tStage t = Finished.

(** The event belongs to the goroutine (or the empty call) numbered [c]. *)
Definition ownEvent (c : nat) (e : commitEvent) : bool :=
  match e with
  | CevCancel _ => false
  | CevRequest c' _ => bool_decide (c' = c)
  | CevUpdate c' => bool_decide (c' = c)
  | CevOnDone c' _ _ _ => bool_decide (c' = c)
  | CevClose c' => bool_decide (c' = c)
  end.

Definition isOnDone (c : nat) (e : commitEvent) : bool :=
  match e with
  | CevOnDone c' _ _ _ => bool_decide (c' = c)
  | _ => false
  end.

Definition isRequest (c : nat) (e : commitEvent) : bool :=
  match e with
  | CevRequest c' _ => bool_decide (c' = c)
  | _ => false
  end.

Definition isUpdate (c : nat) (e : commitEvent) : bool :=
  match e with
  | CevUpdate c' => bool_decide (c' = c)
  | _ => false
  end.

Definition isClose (c : nat) (e : commitEvent) : bool :=
  match e with
  | CevClose c' => bool_decide (c' = c)
  | _ => false
  end.

(** How many times [onDone] of call [c] was invoked. *)
Definition onDoneCount (c : nat) (tr : list commitEvent) : nat :=
  length (filter (fun e => isOnDone c e = true) tr).

(** How many requests call [c] put on the wire. *)
Definition requestCount (c : nat) (tr : list commitEvent) : nat :=
  length (filter (fun e => isRequest c e = true) tr).

(** [onDone] has been called at this stage. *)
Definition doneCalled (s : stage) : bool :=
  match s with
  | Finishing | Finished => true
  | _ => false
  end.

(** The request has been issued at this stage. *)
Definition requestIssued (s : stage) : bool :=
  match s with
  | InFlight | Updating _ | Calling _ | Finishing | Finished => true
  | _ => false
  end.

(** The number of [onDone] invocations call [c] is due in world [w]: one
    for a call that returned at the empty check (it has no goroutine) and
    for a goroutine past its [onDone], none otherwise. *)
Definition doneExpected (w : world) (c : nat) : nat :=
  match wTasks w !! c with
  | Some t => if doneCalled (tStage t) then 1%nat else 0%nat
  | None => if decide (c < wNext w)%nat then 1%nat else 0%nat
  end.

Definition requestExpected (w : world) (c : nat) : nat :=
  match wTasks w !! c with
  | Some t => if requestIssued (tStage t) then 1%nat else 0%nat
  | None => 0%nat
  end.

(** The [priorDone] captured by the goroutine of call [c], if any. *)
Definition priorOf (w : world) (c : nat) : option nat :=
  match wTasks w !! c with
  | Some t => tPriorDone t
  | None => None
  end.

(** In the trace, a request or a ledger update of a call whose prior is
    [m] comes after the close of [m]'s completion channel. *)
Definition ordered (prior : nat -> option nat) (tr : list commitEvent) : Prop :=
  forall pre e post c m,
    tr = pre ++ e :: post -> prior c = Some m ->
    isRequest c e = true \/ isUpdate c e = true ->
    exists x, x ∈ pre /\ isClose m x = true.

(** In the trace, no event of a call comes after the close of its
    completion channel. *)
Definition settled (tr : list commitEvent) : Prop :=
  forall pre e post m,
    tr = pre ++ e :: post -> ownEvent m e = true ->
    forall x, x ∈ pre -> isClose m x = false.

(** What holds in every reachable world. *)
Record inv (w : world) : Prop := mkInv {
  inv_fresh : forall c t, wTasks w !! c = Some t -> (c < wNext w)%nat;
  inv_handle : forall d, commitDone (wGroup w) = Some d -> is_Some (wTasks w !! d);
  inv_prior : forall c t m,
      wTasks w !! c = Some t -> tPriorDone t = Some m ->
      (m < c)%nat /\ is_Some (wTasks w !! m);
  inv_closed : forall c,
      c ∈ wClosed w -> exists t, wTasks w !! c = Some t /\ tStage t = Finished;
  inv_finished : forall c t,
      wTasks w !! c = Some t -> tStage t = Finished -> c ∈ wClosed w;
  inv_await : forall c t m,
      wTasks w !! c = Some t -> tStage t <> AwaitPrior -> tPriorDone t = Some m ->
      m ∈ wClosed w;
  inv_nonempty : forall c t,
      wTasks w !! c = Some t -> tUncommitted t <> ∅ /\ tStage t <> Panicked;
  inv_own : forall c e, e ∈ wTrace w -> ownEvent c e = true -> (c < wNext w)%nat;
  inv_close : forall c,
      c ∈ wClosed w <-> exists e, e ∈ wTrace w /\ isClose c e = true;
  inv_done : forall c, onDoneCount c (wTrace w) = doneExpected w c;
  inv_request : forall c, requestCount c (wTrace w) = requestExpected w c;
  inv_order : ordered (priorOf w) (wTrace w);
  inv_after : settled (wTrace w)
}.

End Pipeline.

Arguments commitEvent : clear implicits.
Arguments world : clear implicits.

(** ** Membership in an assignment *)

(** Partition [p] of [topic] is in the assignment [m]. *)
Definition assigned (m : option (gmap string (list Z))) (topic : string) (p : Z) : Prop :=
  exists ps, goLookup m topic = Some ps /\ p ∈ ps.

(** ** Concrete inputs *)

(** A cooperative dynamic member of generation 5 with one ledger entry. *)
Definition exLedger : ledger :=
  {[ "t"%string := {[ 0 := mkUncommit (mkEpochOffset 3 11) (mkEpochOffset 3 7) ]} ]}.

Definition exGroup : groupConsumer :=
  mkGroupConsumer "grp" ["t"%string] true false ∅ (Some exLedger) None None false
    false ∅ "member-1" None 5 None (Some {[ "t"%string := [0; 1] ]}).

(** The same member with an instance ID. *)
Definition exStatic : groupConsumer :=
  mkGroupConsumer "grp" ["t"%string] true false ∅ (Some exLedger) None None false
    false ∅ "member-1" (Some "svc-0"%string) 5 None (Some {[ "t"%string := [0; 1] ]}).

(** A commit for [t/0] at offset 11 built in generation 4, and its
    acknowledgement. *)
Definition exRequest (generation : Z) : OffsetCommitRequest :=
  mkOffsetCommitRequest "grp" generation "member-1" None
    [mkCommitRequestTopic "t" [mkCommitRequestPartition 0 11 3 (Some "member-1"%string)]].

Definition exResponse : OffsetCommitResponse :=
  mkOffsetCommitResponse [mkCommitResponseTopic "t" [mkCommitResponsePartition 0 0]].

(** ** Reading the ledger *)

(** The ledger's entry for a partition, if any ([unc] may be nil). *)
Definition entry (unc : option ledger) (topic : string) (p : Z) : option uncommit :=
  match unc with
  | None => None
  | Some u =>
      match u !! topic with
      | None => None
      | Some m => m !! p
      end
  end.

(** The partitions of a delivery in the order [updateUncommitted] visits
    them, each with its topic. *)
Definition fetchedPartitions (fetches : list Fetch) : list (string * FetchPartition) :=
  fetches ≫= (fun fetch =>
    fTopics fetch ≫= (fun topic =>
      (fun partition => (ftTopic topic, partition)) <$> ftPartitions topic)).

(** A delivery of one partition of one topic. *)
Definition onePartition (tp : string * FetchPartition) : list Fetch :=
  [mkFetch [mkFetchTopic tp.1 [tp.2]]].

(** Every fetch of the delivery carries at most one topic. *)
Definition oneTopicPerFetch (fetches : list Fetch) : Prop :=
  Forall (fun fetch => (length (fTopics fetch) <= 1)%nat) fetches.

(** The ledger after the loop body ran with [topicOffsets] still nil. *)
Definition stepLedger (topic : string) (partition : FetchPartition)
    (unc : option ledger) : option ledger :=
  (updatePartition topic partition (unc, None)).1.

(** [topicOffsets] is nil or refers to the map of [topic], which is in the
    ledger. *)
Definition aliasOk (topic : string) (st : option ledger * option string) : Prop :=
  st.2 = None \/
  (st.2 = Some topic /\ exists u, st.1 = Some u /\ is_Some (u !! topic)).

(** No entry of [unc] is gone or has a lower head offset in [unc'], and
    the committed positions are the same. *)
Definition notLowered (unc unc' : option ledger) : Prop :=
  forall topic p un,
    entry unc topic p = Some un ->
    exists un', entry unc' topic p = Some un'
                /\ Offset (head un) <= Offset (head un')
                /\ committed un' = committed un.

(** A delivery for [t/0] whose final record (offset 10) was seen before,
    now with leader epoch 5. *)
Definition exSeenFetch : list Fetch :=
  [mkFetch [mkFetchTopic "t" [mkFetchPartition 0 [mkRecord 5 10]]]].

(** One fetch carrying records of two topics. *)
Definition exTwoTopics : list Fetch :=
  [mkFetch [mkFetchTopic "a" [mkFetchPartition 0 [mkRecord 1 5]];
            mkFetchTopic "b" [mkFetchPartition 1 [mkRecord 1 7]]]].

(** ** What a commit response acknowledges *)

(** The pair at one position of the two sorted partition lists
    acknowledges the request partition [rq] for partition [p]: both sides
    name [p] and the response reports no error. *)
Definition ackedPartition (p : Z) (rq : CommitRequestPartition)
    (pair : CommitRequestPartition * CommitResponsePartition) : Prop :=
  pair.1 = rq /\ rqPartition rq = p /\ rsPartition pair.2 = p
  /\ rsErrorCode pair.2 = 0.

(** The pair at one position of the two topic lists acknowledges [rq] for
    [topic]/[p]: both sides name [topic], they list as many partitions, and
    some position of their sorted partitions acknowledges [rq]. *)
Definition ackedTopic (topic : string) (p : Z) (rq : CommitRequestPartition)
    (pair : CommitRequestTopic * CommitResponseTopic) : Prop :=
  rqTopic pair.1 = topic /\ rsTopic pair.2 = topic
  /\ length (rqPartitions pair.1) = length (rsPartitions pair.2)
  /\ Exists (ackedPartition p rq)
            (zip (sortSlice reqPartLess (rqPartitions pair.1))
                 (sortSlice respPartLess (rsPartitions pair.2))).

(** The request and the response, each sorted by topic and then by
    partition, acknowledge [rq] for [topic]/[p] at matching positions. *)
Definition acked (reqTopics : list CommitRequestTopic)
    (respTopics : list CommitResponseTopic)
    (topic : string) (p : Z) (rq : CommitRequestPartition) : Prop :=
  Exists (ackedTopic topic p rq)
         (zip (sortSlice reqTopicLess reqTopics) (sortSlice respTopicLess respTopics)).

(** How one ledger entry may change when the acknowledged request
    partitions are those satisfying [P]: an absent entry stays absent; a
    present one keeps its head, and its committed position is that of an
    acknowledged request partition, or is unchanged if there is none. *)
Definition entryStep (P : CommitRequestPartition -> Prop)
    (o o' : option uncommit) : Prop :=
  match o with
  | None => o' = None
  | Some un =>
      exists un', o' = Some un' /\ head un' = head un
        /\ ((exists rq, P rq
               /\ committed un' = mkEpochOffset (rqLeaderEpoch rq) (rqOffset rq))
            \/ ((forall rq, ~ P rq) /\ committed un' = committed un))
  end.

(** The ledger [u'] is [u] with the commit applied. *)
Definition commitApplied (u u' : ledger)
    (reqTopics : list CommitRequestTopic) (respTopics : list CommitResponseTopic)
    : Prop :=
  dom u' = dom u
  /\ forall topic p,
       entryStep (acked reqTopics respTopics topic p)
                 (entry (Some u) topic p) (entry (Some u') topic p).

(** [less] never holds both ways. *)
Definition asymmetric {A : Type} (less : A -> A -> bool) : Prop :=
  forall a b, less a b = true -> less b a = false.

(** ** What the loop over [lastAssigned] establishes for one topic *)

(** [topic], with partitions [lastPartitions] in [lastAssigned], has been
    diffed into [added] and [lost]. *)
Definition topicDiffed (now : option (gmap string (list Z)))
    (topic : string) (lastPartitions : list Z)
    (added lost : gmap string (list Z)) : Prop :=
  match goLookup now topic with
  | None => lost !! topic = Some lastPartitions /\ added !! topic = None
  | Some nowPartitions =>
      (forall p, p ∈ default [] (lost !! topic)
                 <-> p ∈ lastPartitions /\ p ∉ nowPartitions)
      /\ (forall p, p ∈ nowPartitions -> p ∉ lastPartitions ->
                    p ∈ default [] (added !! topic))
      /\ (forall p, p ∈ default [] (added !! topic) -> p ∈ nowPartitions)
      /\ (NoDup nowPartitions ->
          forall p, p ∈ default [] (added !! topic) -> p ∉ lastPartitions)
  end.

(** A member in its second session: [t/1] went away. *)
Definition exRebalanced : groupConsumer :=
  mkGroupConsumer "grp" ["t"%string] true false ∅ (Some exLedger) None None false
    false ∅ "member-1" None 6
    (Some {[ "t"%string := [0; 1; 2] ]}) (Some {[ "t"%string := [0; 2] ]}).

(** ** Tests of a topic against the subscription *)

Definition isMatchOn (topic : string) (e : event) : bool :=
  match e with
  | EvMatchString _ t => bool_decide (t = topic)
  | _ => false
  end.

(** The calls to [regexp.MatchString] on [topic] among the events. *)
Definition testsOn (topic : string) (ev : list event) : list event :=
  filter (fun e => isMatchOn topic e = true) ev.

(** A regex subscriber that has not yet seen any topic. *)
Definition exRegex : groupConsumer :=
  mkGroupConsumer "grp" ["^foo"%string; "^t"%string; "^bar"%string] true false ∅
    None None None false true ∅ "member-1" None 5 None None.

(** A matcher for the witnesses: the expression [^t] matches the topic [t]. *)
Definition exMatchString (re topic : string) : bool :=
  bool_decide (re = "^t"%string) && bool_decide (topic = "t"%string).

Definition exMetadata : list (string * topicPartitionsData) :=
  [("t"%string, mkTopicPartitionsData [0; 1] false)].

(** ** The offsets an OffsetFetch response stands for *)

(** The offset of one partition in the words of the specification: the
    reset offset for a stored offset of -1, otherwise the stored offset
    with the response's leader epoch from version 5 on and -1 before. *)
Definition specOffset (version : Z) (resetOffset : kgoOffset)
    (rPartition : OffsetFetchResponseTopicPartition) : kgoOffset :=
  if decide (ofOffset rPartition = -1) then resetOffset
  else mkOffset (ofOffset rPartition)
                (if decide (5 <= version) then ofLeaderEpoch rPartition else -1).

(** The map for the partitions of one response topic, a later entry for a
    partition replacing an earlier one. *)
Definition specPartitions (version : Z) (resetOffset : kgoOffset)
    (rPartitions : list OffsetFetchResponseTopicPartition) : gmap Z kgoOffset :=
  foldl (fun m rp => <[ofPartition rp := specOffset version resetOffset rp]> m)
        ∅ rPartitions.

(** The map for the response's topics, a later entry for a topic replacing
    an earlier one. *)
Definition specTopics (version : Z) (resetOffset : kgoOffset)
    (rTopics : list OffsetFetchResponseTopic) : gmap string (gmap Z kgoOffset) :=
  foldl (fun o rt => <[ofTopic rt := specPartitions version resetOffset (ofPartitions rt)]> o)
        ∅ rTopics.

(** No partition of the topics reports an error. *)
Definition noPartitionError (rTopics : list OffsetFetchResponseTopic) : Prop :=
  Forall (fun rt => Forall (fun rp => ofPartErrorCode rp = 0) (ofPartitions rt)) rTopics.

(** [rPartition] is the first partition of the topics, in response order,
    that reports an error. *)
Definition firstPartitionError (rTopics : list OffsetFetchResponseTopic)
    (rPartition : OffsetFetchResponseTopicPartition) : Prop :=
  exists ts1 rt ts2 ps1 ps2,
    rTopics = ts1 ++ rt :: ts2
    /\ ofPartitions rt = ps1 ++ rPartition :: ps2
    /\ noPartitionError ts1
    /\ Forall (fun rp => ofPartErrorCode rp = 0) ps1
    /\ ofPartErrorCode rPartition ≠ 0.

Definition isMaybeAssign (e : event) : bool :=
  match e with
  | EvMaybeAssignPartitions _ _ => true
  | _ => false
  end.

(** Error codes as their own errors, code 14 being retriable. *)
Definition exErrorForCode (code : Z) : option Z :=
  if decide (code = 0) then None else Some code.

Definition exIsRetriable (err : Z) : bool := bool_decide (err = 14).

Definition exErrorsNew (msg : string) : Z := -1.

(** A version 5 response with a retriable top-level error, one committed
    partition and one without a commit. *)
Definition exFetchResponse : OffsetFetchResponse :=
  mkOffsetFetchResponse 5
    [mkOffsetFetchResponseTopic "t"
       [mkOffsetFetchResponseTopicPartition 0 42 7 0;
        mkOffsetFetchResponseTopicPartition 1 (-1) (-1) 0]]
    14.

Definition exResetOffset : kgoOffset := mkOffset (-2) (-1).

(** ** Two commits in a row *)

Definition exOffsets (offset : Z) : option (gmap string (gmap Z EpochOffset)) :=
  Some {[ "t"%string := {[ 0 := mkEpochOffset 3 offset ]} ]}.

(** The first commit, for [t/0] at offset 10, has been submitted. *)
Definition exWorld1 : world string := commit (initWorld exGroup) (exOffsets 10).

(** The second, at offset 20, has been submitted right after. *)
Definition exWorld2 : world string := commit exWorld1 (exOffsets 20).

(** Metadata with a topic that none of [exRegex]'s expressions matches. *)
Definition exUnmatched : list (string * topicPartitionsData) :=
  [("x"%string, mkTopicPartitionsData [0] false)].

(** * Further methods of the group consumer *)

(** ** [getUncommittedLocked] *)

(** Offsets by topic and partition, as [Uncommitted] returns them and
    [commit] takes them. *)
Abbreviation offsets := (gmap string (gmap Z EpochOffset)).

(** The body of the loop over a topic's partitions.  The state is the
    result map [uncommitted] ([None] while nil) and whether the local
    [topicUncommitted] is set; once set it is the map stored at
    [uncommitted[topic]]. *)
Definition snapshotPartition (topic : string) (partition : Z) (un : uncommit)
    (st : option offsets * bool) : option offsets * bool :=
  if decide (head un = committed un) then st
  else
    let '(unc, topicUncommitted) := st in
    let u : offsets :=
      if topicUncommitted then default ∅ unc
      else
        let u0 : offsets := default ∅ unc in
        match u0 !! topic with
        | Some _ => u0
        | None => <[topic := ∅]> u0
        end in
    (Some (<[topic := <[partition := head un]> (default ∅ (u !! topic))]> u), true).

(** The body of the loop over the ledger's topics; [topicUncommitted] is
    declared in it. *)
Definition snapshotTopic (topic : string) (partitions : gmap Z uncommit)
    (unc : option offsets) : option offsets :=
  (map_fold (snapshotPartition topic) (unc, false) partitions).1.

Definition getUncommittedLocked (g : groupConsumer) : option offsets :=
  match uncommitted g with
  | None => None
  | Some u => map_fold snapshotTopic None u
  end.

(** The offset a possibly nil [offsets] map holds for a partition. *)
Definition offsetsEntry (unc : option offsets) (topic : string) (p : Z)
    : option EpochOffset :=
  match unc with
  | None => None
  | Some u =>
      match u !! topic with
      | None => None
      | Some m => m !! p
      end
  end.

(** What the snapshot should hold for a ledger entry: the head of a dirty
    entry, nothing for a clean or absent one. *)
Definition dirtyHead (o : option uncommit) : option EpochOffset :=
  match o with
  | Some un => if decide (head un = committed un) then None else Some (head un)
  | None => None
  end.

(** A map of maps that is nil, or allocated with at least one key and no
    empty inner map. *)
Definition noEmptyMaps {V : Type} (unc : option (gmap string (gmap Z V))) : Prop :=
  match unc with
  | None => True
  | Some u => u <> ∅ /\ forall topic m, u !! topic = Some m -> m <> ∅
  end.

(** No ledger entry is dirty. *)
Definition clean (unc : option ledger) : Prop :=
  forall topic p un, entry unc topic p = Some un -> head un = committed un.

(** ** [loopCommit] *)

Section Autocommit.

Context {error : Type}.

(** What [loopCommit] does when its ticker fires: under the group lock,
    unless [blockAuto] is set, commit the snapshot with the background
    context and no callback.  [blockAuto] is the group consumer's flag of
    that name, which only [CommitOffsets] writes; it is an argument here. *)
Definition loopCommitTick (blockAuto : bool) (w : world error) : world error :=
  if blockAuto then w
  else commit w (getUncommittedLocked (wGroup w)).

End Autocommit.

(** The member of [exGroup] once [t/0] is committed up to its head. *)
Definition exClean : groupConsumer :=
  set_uncommitted
    (Some {[ "t"%string := {[ 0 := mkUncommit (mkEpochOffset 3 11) (mkEpochOffset 3 11) ]} ]})
    exGroup.

(** [exClean] with a commit in flight. *)
Definition exCleanWorld : world string := commit (initWorld exClean) (exOffsets 11).

(** ** The outcome of [findNewAssignments] for one topic *)

(** Whether the subscription takes up a topic that is not in use: by name,
    the topic is one of [g.topics]; by expression, the topic has not been
    seen ([seen] is [g.reSeen] at that point), some expression matches it
    and it is not internal. *)
Definition wanted (MatchString : string -> string -> bool) (g : groupConsumer)
    (seen : gset string) (topic : string) (tp : topicPartitionsData) : bool :=
  if regexTopics g then
    if decide (topic ∈ seen) then false
    else (matchTopics MatchString (topics g) topic).1 && negb (isInternal tp)
  else bool_decide (topic ∈ topics g).

(** The entry of [toChange] a metadata topic gives rise to, if any. *)
Definition changeFor (MatchString : string -> string -> bool) (g : groupConsumer)
    (seen : gset string) (topic : string) (tp : topicPartitionsData) : option change :=
  let numPartitions := Z.of_nat (length (partitions tp)) in
  match using_ g !! topic with
  | Some used =>
      if numPartitions - used >? 0 then Some (mkChange false (numPartitions - used))
      else None
  | None =>
      if wanted MatchString g seen topic tp then Some (mkChange true numPartitions)
      else None
  end.

(** The partition count [g.using] holds for a topic after a metadata update
    that lists the topic with data [tp]. *)
Definition usingAfter (MatchString : string -> string -> bool) (g : groupConsumer)
    (topic : string) (tp : topicPartitionsData) : option Z :=
  let numPartitions := Z.of_nat (length (partitions tp)) in
  match using_ g !! topic with
  | Some used => Some (Z.max used numPartitions)
  | None =>
      if wanted MatchString g (reSeen g) topic tp then Some numPartitions else None
  end.

(** The update added a topic to [using]. *)
Definition newTopic (g g' : groupConsumer) : Prop :=
  exists topic, using_ g !! topic = None /\ is_Some (using_ g' !! topic).

(** The update raised the partition count of a topic in use. *)
Definition grew (g g' : groupConsumer) : Prop :=
  exists topic used used',
    using_ g !! topic = Some used /\ using_ g' !! topic = Some used' /\ used < used'.

(** A subscriber by name to [t] and [u] that uses [t] with one partition
    and leads the group. *)
Definition exLeader : groupConsumer :=
  mkGroupConsumer "grp" ["t"%string; "u"%string] true true {[ "t"%string := 1 ]}
    None None None false false ∅ "member-1" None 5 None None.

(** ** A response that acknowledges a whole commit request *)

(** The response lists the topics of the request and, under each topic,
    the partitions of the request, in any order, each partition with error
    code 0. *)
Definition fullAck (reqTopics : list CommitRequestTopic)
    (respTopics : list CommitResponseTopic) : Prop :=
  rsTopic <$> respTopics ≡ₚ rqTopic <$> reqTopics
  /\ forall rt pt, rt ∈ reqTopics -> pt ∈ respTopics -> rqTopic rt = rsTopic pt ->
       rsPartition <$> rsPartitions pt ≡ₚ rqPartition <$> rqPartitions rt
       /\ Forall (fun rp => rsErrorCode rp = 0) (rsPartitions pt).

(** The ledger entry once [eo], if any, is recorded as committed. *)
Definition withCommitted (un : uncommit) (eo : option EpochOffset) : uncommit :=
  mkUncommit (head un) (default (committed un) eo).

(** What is uncommitted in [exGroup]: [t/0] up to offset 11. *)
Definition exSnapshot : offsets := {[ "t"%string := {[ 0 := mkEpochOffset 3 11 ]} ]}.

Definition responseTopics (resp : commitResponse) : list CommitResponseTopic :=
  match resp with
  | PlainResponse rs => ocrTopics rs
  | TxnResponse rs => tcrTopics rs
  end.

(** The request the goroutine of [commit] sends for [exGroup] and the
    offsets [exSnapshot], and a response acknowledging it. *)
Definition exSnapshotRequest : commitRequest :=
  PlainRequest
    (mkOffsetCommitRequest "grp" 5 "member-1" None (buildTopics "member-1" exSnapshot)).

Definition exSnapshotResponse : commitResponse := PlainResponse exResponse.

(** ** Assignments without empty partition lists *)

Definition noNil (m : gmap string (list Z)) : Prop :=
  forall topic ps, m !! topic = Some ps -> ps <> [].

(** ** [setLeader], [prejoin], [syncGroup], [joinGroupProtocols], [joinAndSync] *)

Definition set_leader (b : bool) (g : groupConsumer) : groupConsumer :=
  mkGroupConsumer (id g) (topics g) (cooperative g) b (using_ g) (uncommitted g)
    (commitCancel g) (commitDone g) (rejoinCh g) (regexTopics g) (reSeen g)
    (memberID g) (instanceID g) (generation g) (lastAssigned g) (nowAssigned g).

Definition set_memberID (m : string) (g : groupConsumer) : groupConsumer :=
  mkGroupConsumer (id g) (topics g) (cooperative g) (leader g) (using_ g) (uncommitted g)
    (commitCancel g) (commitDone g) (rejoinCh g) (regexTopics g) (reSeen g)
    m (instanceID g) (generation g) (lastAssigned g) (nowAssigned g).

Definition set_generation (n : Z) (g : groupConsumer) : groupConsumer :=
  mkGroupConsumer (id g) (topics g) (cooperative g) (leader g) (using_ g) (uncommitted g)
    (commitCancel g) (commitDone g) (rejoinCh g) (regexTopics g) (reSeen g)
    (memberID g) (instanceID g) n (lastAssigned g) (nowAssigned g).

Definition set_lastAssigned (a : option (gmap string (list Z))) (g : groupConsumer)
    : groupConsumer :=
  mkGroupConsumer (id g) (topics g) (cooperative g) (leader g) (using_ g) (uncommitted g)
    (commitCancel g) (commitDone g) (rejoinCh g) (regexTopics g) (reSeen g)
    (memberID g) (instanceID g) (generation g) a (nowAssigned g).

Definition setLeader (g : groupConsumer) : groupConsumer := set_leader true g.

(** [prejoin]: the leader flag is reset and a pending rejoin signal, if
    any, is taken off the channel. *)
Definition prejoin (g : groupConsumer) : groupConsumer :=
  set_rejoinCh false (set_leader false g).

Record GroupMemberAssignmentTopic := mkGroupMemberAssignmentTopic {
  gmaTopic : string;
  gmaPartitions : list Z
}.

(** The loop of [syncGroup] that fills the new [nowAssigned]. *)
Definition assignTopics (kassignment : list GroupMemberAssignmentTopic)
    : gmap string (list Z) :=
  foldl (fun m topic => <[gmaTopic topic := gmaPartitions topic]> m) ∅ kassignment.

Section Join.

(** Go's errors, compared with [==]; the plan of the balancers, the
    assignment it is encoded into, the member list of a JoinGroup response
    and the metadata of a protocol are opaque here. *)
Context {error : Type} `{EqDecision error}.
Context {balancePlan groupAssignment memberList metadata : Type}.

(** Package [kerr]. *)
Context (ErrorForCode : Z -> option error).
Context (MemberIDRequired UnknownMemberID RebalanceInProgress : error).

(** [plan.intoAssignment], the zero [balancePlan], [g.balanceGroup], and
    the two timeouts of the configuration in milliseconds. *)
Context (intoAssignment : balancePlan -> groupAssignment).
Context (zeroPlan : balancePlan).
Context (balanceGroup : groupConsumer -> string -> memberList -> balancePlan * option error).
Context (sessionTimeoutMillis rebalanceTimeoutMillis : Z).

(** A [GroupBalancer] as far as [joinGroupProtocols] uses it. *)
Record balancer := mkBalancer {
  protocolName : string;
  metaFor : list string -> option (gmap string (list Z)) -> Z -> metadata
}.

Context (balancers : list balancer).

Record JoinGroupRequestProtocol := mkJoinGroupRequestProtocol {
  jpName : string;
  jpMetadata : metadata
}.

Record JoinGroupRequest := mkJoinGroupRequest {
  jgGroup : string;
  jgSessionTimeoutMillis : Z;
  jgRebalanceTimeoutMillis : Z;
  jgProtocolType : string;
  jgMemberID : string;
  jgInstanceID : option string;
  jgProtocols : list JoinGroupRequestProtocol
}.

Record JoinGroupResponse := mkJoinGroupResponse {
  jrErrorCode : Z;
  jrGeneration : Z;
  jrProtocol : string;
  jrLeaderID : string;
  jrMemberID : string;
  jrMembers : memberList
}.

Record SyncGroupRequest := mkSyncGroupRequest {
  sgGroup : string;
  sgGeneration : Z;
  sgMemberID : string;
  sgInstanceID : option string;
  sgGroupAssignment : groupAssignment
}.

(** What [g.cl.Request] and the decoding of the member assignment yield for
    a SyncGroup request: a request error, a decoding error, or the decoded
    topics. *)
Inductive syncReply :=
| SyncRequestError (err : error)
| SyncDecodeError (err : error)
| SyncAssignment (kassignment : list GroupMemberAssignmentTopic).

Inductive joinEvent :=
| EvJoinGroupRequest (req : JoinGroupRequest)
| EvSyncGroupRequest (req : SyncGroupRequest).

Definition joinGroupProtocols (g : groupConsumer) : list JoinGroupRequestProtocol :=
  let topics := (map_to_list (using_ g)).*1 in
  (fun b => mkJoinGroupRequestProtocol (protocolName b)
              (metaFor b topics (nowAssigned g) (generation g)))
    <$> balancers.

Definition syncGroup (g : groupConsumer) (plan : balancePlan) (generation : Z)
    (reply : syncReply) : groupConsumer * option error * list joinEvent :=
  let req :=
    mkSyncGroupRequest (id g) generation (memberID g) (instanceID g)
      (intoAssignment plan) in
  match reply with
  | SyncRequestError err => (g, Some err, [EvSyncGroupRequest req])
  | SyncDecodeError err => (g, Some err, [EvSyncGroupRequest req])
  | SyncAssignment kassignment =>
      let g1 := if cooperative g then set_lastAssigned (nowAssigned g) g else g in
      (set_nowAssigned (Some (assignTopics kassignment)) g1, None,
       [EvSyncGroupRequest req])
  end.

(** What the network answers in one pass through the label [start]: the
    reply to the JoinGroup request and, if the pass gets that far, the
    reply to the SyncGroup request. *)
Record round := mkRound {
  rJoin : error + JoinGroupResponse;
  rSync : syncReply
}.

(** The loop of [joinAndSync] from the label [start]; one round of replies
    per pass.  The result is [None] when the replies run out before the
    function returns. *)
Fixpoint joinLoop (g : groupConsumer) (rounds : list round)
    : groupConsumer * list joinEvent * option (option error) :=
  match rounds with
  | [] => (g, [], None)
  | rd :: rest =>
      let req :=
        mkJoinGroupRequest (id g) sessionTimeoutMillis rebalanceTimeoutMillis
          "consumer" (memberID g) (instanceID g) (joinGroupProtocols g) in
      let again (g1 : groupConsumer) (ev : list joinEvent) :=
        let '(g2, ev', result) := joinLoop g1 rest in
        (g2, ev ++ ev', result) in
      match rJoin rd with
      | inl err => (g, [EvJoinGroupRequest req], Some (Some err))
      | inr resp =>
          match ErrorForCode (jrErrorCode resp) with
          | Some err =>
              if decide (err = MemberIDRequired)
              then again (set_memberID (jrMemberID resp) g) [EvJoinGroupRequest req]
              else if decide (err = UnknownMemberID)
              then again (set_memberID "" g) [EvJoinGroupRequest req]
              else (g, [EvJoinGroupRequest req], Some (Some err))
          | None =>
              let g1 := set_generation (jrGeneration resp)
                          (set_memberID (jrMemberID resp) g) in
              let '(g2, plan, failed) :=
                if decide (jrLeaderID resp = jrMemberID resp) then
                  match balanceGroup g1 (jrProtocol resp) (jrMembers resp) with
                  | (_, Some err) => (g1, zeroPlan, Some err)
                  | (plan, None) => (setLeader g1, plan, None)
                  end
                else (g1, zeroPlan, None) in
              match failed with
              | Some err => (g2, [EvJoinGroupRequest req], Some (Some err))
              | None =>
                  let '(g3, serr, ev) :=
                    syncGroup g2 plan (jrGeneration resp) (rSync rd) in
                  match serr with
                  | Some err =>
                      if decide (err = RebalanceInProgress)
                      then again g3 (EvJoinGroupRequest req :: ev)
                      else (g3, EvJoinGroupRequest req :: ev, Some (Some err))
                  | None => (g3, EvJoinGroupRequest req :: ev, Some None)
                  end
              end
          end
      end
  end.

Definition joinAndSync (g : groupConsumer) (rounds : list round)
    : groupConsumer * list joinEvent * option (option error) :=
  joinLoop (prejoin g) rounds.

(** The reply of a round makes [joinAndSync] go back to [start] with a
    new member ID. *)
Definition retried (rd : round) : option string :=
  match rJoin rd with
  | inl _ => None
  | inr resp =>
      match ErrorForCode (jrErrorCode resp) with
      | Some err =>
          if decide (err = MemberIDRequired) then Some (jrMemberID resp)
          else if decide (err = UnknownMemberID) then Some ""%string
          else None
      | None => None
      end
  end.

Definition joinRequests (ev : list joinEvent) : list JoinGroupRequest :=
  omap (fun e => match e with EvJoinGroupRequest req => Some req | _ => None end) ev.

End Join.

(** ** A member that joins with a retry *)

(** Error codes as their own errors: 79 is MEMBER_ID_REQUIRED, 25
    UNKNOWN_MEMBER_ID and 27 REBALANCE_IN_PROGRESS. *)
Definition exJoinResponse (code : Z) (member : string) : JoinGroupResponse (memberList := unit) :=
  mkJoinGroupResponse code 6 "cooperative-sticky" "member-0" member tt.

(** The group asks for a member ID first, then accepts the member. *)
Definition exRounds : list (round (error := Z) (memberList := unit)) :=
  [mkRound (inr (exJoinResponse 79 "member-7")) (SyncAssignment []);
   mkRound (inr (exJoinResponse 0 "member-7"))
     (SyncAssignment [mkGroupMemberAssignmentTopic "t" [0; 1]])].

(** [exGroup] before it has a member ID, and an eager sibling. *)
Definition exNewMember : groupConsumer := set_memberID "" exGroup.

Definition exJoin (g : groupConsumer) (rounds : list (round (error := Z) (memberList := unit)))
    : groupConsumer * list (joinEvent (groupAssignment := unit) (metadata := unit))
      * option (option Z) :=
  joinAndSync (balancePlan := unit) exErrorForCode 79 25 27 (fun _ => tt) tt
    (fun _ _ _ => (tt, None)) 45000 60000 [] g rounds.

(** ** [heartbeat] *)

Record HeartbeatRequest := mkHeartbeatRequest {
  hbGroup : string;
  hbGeneration : Z;
  hbMemberID : string;
  hbInstanceID : option string
}.

#[global] Instance HeartbeatRequest_eq_dec : EqDecision HeartbeatRequest.
Proof. solve_decision. Defined.

(** What the heartbeat loop does to the world outside, in order. *)
Inductive heartbeatEvent :=
| HbRequest (req : HeartbeatRequest)      (* the heartbeat request *)
| HbInvalidateAll                         (* [maybeAssignPartitions(nil, assignInvalidateAll)] *)
| HbAwaitAssign                           (* [<-s.assignDone] *)
| HbRevoke                                (* [s.revoke(g)] *)
| HbWaitMeta.                             (* the goroutine around [waitmeta] *)

#[global] Instance heartbeatEvent_eq_dec : EqDecision heartbeatEvent.
Proof. solve_decision. Defined.

Section Heartbeat.

Context {error : Type} `{EqDecision error}.
Context (ErrorForCode : Z -> option error).
Context (RebalanceInProgress : error).
Context (errorsNew : string -> error).

(** What happens next: one of the cases of the [select] fires (with what
    it receives), or, between two passes, another goroutine signals a
    rejoin. *)
Inductive selected :=
| SelTick (reply : error + Z)        (* the ticker; the request's error or
                                        the response's error code *)
| SelRejoin                          (* [<-g.rejoinCh] *)
| SelFetchErr (err : option error)   (* [err = <-fetchErrCh] *)
| SelMetadone                        (* [<-metadone] *)
| SelRevoked                         (* [<-revoked] *)
| SelCtxDone                         (* [<-g.ctx.Done()] *)
| Rejoined.                          (* [g.rejoin()] elsewhere *)

(** The local variables of [heartbeat]; a channel variable is [true]
    while it is not nil. *)
Record heartbeatState := mkHeartbeatState {
  fetchErrCh : bool;
  metadone : bool;
  revoked : bool;
  didMetadone : bool;
  didRevoke : bool;
  lastErr : option error
}.

Definition heartbeatStart : heartbeatState :=
  mkHeartbeatState true false false false false None.

(** Where one pass through the loop ends. *)
Inductive heartbeatNext :=
| HbContinue (st : heartbeatState)
| HbReturn (err : option error).

(** The part of the loop body after the [select]; [err] is the error of
    the pass. *)
Definition afterSelect (g : groupConsumer) (st : heartbeatState) (err : option error)
    : list heartbeatEvent * heartbeatNext :=
  if didMetadone st && didRevoke st then ([], HbReturn (lastErr st))
  else
    match err with
    | None => ([], HbContinue st)
    | Some e =>
        let invalidate := if negb (cooperative g) then [HbInvalidateAll] else [] in
        if negb (didRevoke st) && negb (revoked st) then
          if decide (e <> RebalanceInProgress) then
            (invalidate ++ [HbAwaitAssign], HbReturn (Some e))
          else
            let st1 := mkHeartbeatState (fetchErrCh st) (metadone st) true
                         (didMetadone st) (didRevoke st) (lastErr st) in
            let '(st2, ev) :=
              if negb (didMetadone st1) && negb (metadone st1)
              then (mkHeartbeatState (fetchErrCh st1) true (revoked st1)
                      (didMetadone st1) (didRevoke st1) (lastErr st1), [HbWaitMeta])
              else (st1, []) in
            (invalidate ++ [HbRevoke] ++ ev,
             HbContinue (mkHeartbeatState (fetchErrCh st2) (metadone st2) (revoked st2)
                           (didMetadone st2) (didRevoke st2) (Some e)))
        else
          let '(st2, ev) :=
            if negb (didMetadone st) && negb (metadone st)
            then (mkHeartbeatState (fetchErrCh st) true (revoked st)
                    (didMetadone st) (didRevoke st) (lastErr st), [HbWaitMeta])
            else (st, []) in
          (ev,
           HbContinue (mkHeartbeatState (fetchErrCh st2) (metadone st2) (revoked st2)
                         (didMetadone st2) (didRevoke st2) (Some e)))
    end.

(** One pass through the loop when [sel] is what fires; [None] when [sel]
    cannot fire: a receive on a nil channel or on the empty [rejoinCh]. *)
Definition heartbeatPass (g : groupConsumer) (st : heartbeatState) (sel : selected)
    : option (groupConsumer * list heartbeatEvent * heartbeatNext) :=
  match sel with
  | SelTick reply =>
      let req := mkHeartbeatRequest (id g) (generation g) (memberID g) (instanceID g) in
      let err := match reply with
                 | inl e => Some e
                 | inr code => ErrorForCode code
                 end in
      let '(ev, next) := afterSelect g st err in
      Some (g, HbRequest req :: ev, next)
  | SelRejoin =>
      if rejoinCh g then
        let '(ev, next) := afterSelect g st (Some RebalanceInProgress) in
        Some (set_rejoinCh false g, ev, next)
      else None
  | SelFetchErr err =>
      if fetchErrCh st then
        let st1 := mkHeartbeatState false (metadone st) (revoked st)
                     (didMetadone st) (didRevoke st) (lastErr st) in
        let '(ev, next) := afterSelect g st1 err in
        Some (g, ev, next)
      else None
  | SelMetadone =>
      if metadone st then
        let st1 := mkHeartbeatState (fetchErrCh st) false (revoked st)
                     true (didRevoke st) (lastErr st) in
        let '(ev, next) := afterSelect g st1 None in
        Some (g, ev, next)
      else None
  | SelRevoked =>
      if revoked st then
        let st1 := mkHeartbeatState (fetchErrCh st) (metadone st) false
                     (didMetadone st) true (lastErr st) in
        let '(ev, next) := afterSelect g st1 None in
        Some (g, ev, next)
      else None
  | SelCtxDone =>
      Some (g, [HbAwaitAssign],
            HbReturn (Some (errorsNew "left group or client closed")))
  | Rejoined => Some (set_rejoinCh true g, [], HbContinue st)
  end.

(** The loop under a schedule: [None] when the schedule cannot happen,
    otherwise the group consumer, the events and where the loop stands
    when the schedule is used up or the function has returned. *)
Fixpoint heartbeatLoop (g : groupConsumer) (st : heartbeatState) (sels : list selected)
    : option (groupConsumer * list heartbeatEvent * heartbeatNext) :=
  match sels with
  | [] => Some (g, [], HbContinue st)
  | sel :: rest =>
      match heartbeatPass g st sel with
      | None => None
      | Some (g1, ev, HbReturn err) =>
          match rest with
          | [] => Some (g1, ev, HbReturn err)
          | _ :: _ => None
          end
      | Some (g1, ev, HbContinue st1) =>
          match heartbeatLoop g1 st1 rest with
          | None => None
          | Some (g2, ev', next) => Some (g2, ev ++ ev', next)
          end
      end
  end.

Definition heartbeat (g : groupConsumer) (sels : list selected)
    : option (groupConsumer * list heartbeatEvent * heartbeatNext) :=
  heartbeatLoop g heartbeatStart sels.

(** The error of a pass, as the [select] sets it. *)
Definition passError (sel : selected) : option error :=
  match sel with
  | SelTick (inl e) => Some e
  | SelTick (inr code) => ErrorForCode code
  | SelRejoin => Some RebalanceInProgress
  | SelFetchErr err => err
  | _ => None
  end.

(** How often the loop did [e]. *)
Definition countEvent (e : heartbeatEvent) (ev : list heartbeatEvent) : nat :=
  length (filter (fun x => x = e) ev).

(** What holds between two passes of the loop, [pre] being the passes so
    far and [ev] what they did. *)
Record heartbeatInv (g : groupConsumer) (pre : list selected)
    (st : heartbeatState) (ev : list heartbeatEvent) : Prop := mkHeartbeatInv {
  hb_last : lastErr st = last (omap passError pre);
  hb_quiet : revoked st || didRevoke st = false ->
             Forall (fun sel => passError sel = None) pre;
  hb_revoke : countEvent HbRevoke ev = if revoked st || didRevoke st then 1%nat else 0%nat;
  hb_waitmeta : countEvent HbWaitMeta ev
                = if metadone st || didMetadone st then 1%nat else 0%nat;
  hb_phase : (metadone st, revoked st, didMetadone st, didRevoke st)
             ∈ [(false, false, false, false); (true, true, false, false);
                (false, true, true, false); (true, false, false, true)];
  hb_err : revoked st || didRevoke st = true -> is_Some (lastErr st);
  hb_didMetadone : didMetadone st = true -> SelMetadone ∈ pre;
  hb_didRevoke : didRevoke st = true -> SelRevoked ∈ pre;
  hb_invalidate : countEvent HbInvalidateAll ev
                  = if cooperative g then 0%nat
                    else if revoked st || didRevoke st then 1%nat else 0%nat;
  hb_order : cooperative g = false -> revoked st || didRevoke st = true ->
             exists ev1 ev2, ev = ev1 ++ [HbInvalidateAll; HbRevoke] ++ ev2
}.

(** The three ways in which [heartbeat] returns [r] after the passes
    [sels], having done [ev]. *)
Definition returnsBy (g : groupConsumer) (sels : list selected)
    (ev : list heartbeatEvent) (r : option error) : Prop :=
  exists pre sel,
    sels = pre ++ [sel]
    /\ ((sel = SelCtxDone
         /\ r = Some (errorsNew "left group or client closed")
         /\ last ev = Some HbAwaitAssign)
        \/ (exists e,
              passError sel = Some e /\ e <> RebalanceInProgress /\ r = Some e
              /\ Forall (fun s => passError s = None) pre
              /\ countEvent HbRevoke ev = 0%nat
              /\ countEvent HbWaitMeta ev = 0%nat
              /\ countEvent HbInvalidateAll ev = (if cooperative g then 0%nat else 1%nat)
              /\ last ev = Some HbAwaitAssign)
        \/ ((sel = SelMetadone \/ sel = SelRevoked)
            /\ SelMetadone ∈ sels /\ SelRevoked ∈ sels
            /\ r = last (omap passError pre) /\ is_Some r
            /\ countEvent HbRevoke ev = 1%nat
            /\ countEvent HbWaitMeta ev = 1%nat
            /\ countEvent HbInvalidateAll ev = (if cooperative g then 0%nat else 1%nat)
            /\ (cooperative g = false ->
                exists ev1 ev2, ev = ev1 ++ [HbInvalidateAll; HbRevoke] ++ ev2))).

End Heartbeat.

(** A session that ends with a rebalance: a heartbeat is answered
    REBALANCE_IN_PROGRESS (code 27), then the revoke and the metadata wait
    finish. *)
Definition exSchedule : list (selected (error := Z)) :=
  [SelTick (inr 27); SelRevoked; SelMetadone].

(** An eager sibling of [exGroup]. *)
Definition exEager : groupConsumer :=
  mkGroupConsumer "grp" ["t"%string] false false ∅ (Some exLedger) None None false
    false ∅ "member-1" None 5 None (Some {[ "t"%string := [0; 1] ]}).

(** ** More on the commit pipeline *)

(** The offsets a request's topics stand for. *)
Definition offsetsOf (reqTopics : list CommitRequestTopic) : offsets :=
  list_to_map
    ((fun rt =>
        (rqTopic rt,
         list_to_map
           ((fun rq => (rqPartition rq,
                        mkEpochOffset (rqLeaderEpoch rq) (rqOffset rq)))
              <$> rqPartitions rt)))
       <$> reqTopics).

Section PipelineChain.

Context {error : Type}.

(** What holds besides [inv] in every reachable world: the completion
    channel in the group consumer is the latest goroutine's; the prior of
    a goroutine is the goroutine submitted right before it; every
    goroutine but the one whose cancel function the group consumer holds
    has a cancelled context; a request not yet built lists no topic; a
    request that was sent lists what [buildTopics] makes of the
    goroutine's offsets. *)
Record chained (w : world error) : Prop := mkChained {
  ch_handle : forall m,
      is_Some (wTasks w !! m) ->
      exists d, commitDone (wGroup w) = Some d /\ (m <= d)%nat;
  ch_prior : forall c t m',
      wTasks w !! c = Some t -> is_Some (wTasks w !! m') -> (m' < c)%nat ->
      exists m, tPriorDone t = Some m /\ (m' <= m)%nat;
  ch_cancel : forall c,
      is_Some (wTasks w !! c) ->
      commitCancel (wGroup w) = Some c \/ c ∈ wCancelled w;
  ch_header : forall c t,
      wTasks w !! c = Some t -> tStage t = AwaitPrior \/ tStage t = Ready ->
      requestTopics (tReq t) = [];
  ch_request : forall c req,
      CevRequest c req ∈ wTrace w ->
      exists t, wTasks w !! c = Some t
        /\ requestTopics req = buildTopics (tMemberID t) (tUncommitted t)
}.

End PipelineChain.

(** ** Runs of the commit goroutines *)

Section PipelineRuns.

Context {error : Type}.

(** The steps [TAwait], [TRequest], [TFail] and [TClose] of the goroutine
    of call [c], as functions on worlds (the world is unchanged when there
    is no such goroutine). *)
Definition doAwait (c : nat) (w : world error) : world error :=
  match wTasks w !! c with
  | Some t => setTask c (set_stage Ready t) [] w
  | None => w
  end.

Definition doRequest (c : nat) (w : world error) : world error :=
  match wTasks w !! c with
  | Some t =>
      let req := withTopics (tReq t) (buildTopics (tMemberID t) (tUncommitted t)) in
      setTask c (set_stage InFlight (set_req req t)) [CevRequest c req] w
  | None => w
  end.

Definition doFail (c : nat) (err : error) (w : world error) : world error :=
  match wTasks w !! c with
  | Some t => setTask c (set_stage Finishing t) [CevOnDone c (tReq t) None (Some err)] w
  | None => w
  end.

Definition doClose (c : nat) (w : world error) : world error :=
  match wTasks w !! c with
  | Some t =>
      mkWorld (wGroup w) ({[c]} ∪ wCancelled w) ({[c]} ∪ wClosed w) (wNext w)
        (<[c := set_stage Finished t]> (wTasks w))
        (wTrace w ++ [CevCancel c; CevClose c])
  | None => w
  end.

End PipelineRuns.

(** The first commit of [exWorld2] has failed and run to its end, the
    second has got past its wait. *)
Definition exSerial : world string :=
  doAwait 1 (doClose 0 (doFail 0 "context canceled"%string
                          (doRequest 0 (doAwait 0 exWorld2)))).

(** ** The session: [assignRevokeSession] *)

(** The calls a session makes, in order: [g.revoke(revokeLastSession,
    lost)] by the goroutine of [prerevoke], [g.onAssigned] by that of
    [assign], [g.revoke(revokeThisSession, nil)] by that of [revoke]; the
    two calls of [revoke] with what they did. *)
Inductive sessionEvent :=
| SevPrerevoke (ev : list event)
| SevOnAssigned (added : option (gmap string (list Z)))
| SevRevoke (ev : list event).

(** A session: the group consumer, which of the three channels are
    closed, whether [s.revoke(g)] was called, and the calls so far. *)
Record session := mkSession {
  sGroup : groupConsumer;
  prerevokeDone : bool;
  assignDone : bool;
  revokeDone : bool;
  revokeCalled : bool;
  sTrace : list sessionEvent
}.

(** [setupAssigned] creates the session and starts the goroutines of
    [prerevoke] and [assign] at once. *)
Definition newAssignRevokeSession (g : groupConsumer) : session :=
  mkSession g false false false false [].

Section Session.

(** The two callbacks of the group consumer and the result of
    [diffAssigned] the session was set up with. *)
Context (onAssigned onRevoked : option callback).
Context (added lost : option (gmap string (list Z))).

(** The body of the goroutine of [prerevoke]. *)
Definition prerevokeBody (s : session) : session :=
  if cooperative (sGroup s) then
    let '(g', ev) := revoke onRevoked (sGroup s) revokeLastSession lost in
    mkSession g' true (assignDone s) (revokeDone s) (revokeCalled s)
      (sTrace s ++ [SevPrerevoke ev])
  else
    mkSession (sGroup s) true (assignDone s) (revokeDone s) (revokeCalled s) (sTrace s).

(** The body of the goroutine of [assign] after [<-s.prerevokeDone]. *)
Definition assignBody (s : session) : session :=
  match onAssigned with
  | Some f =>
      mkSession (f added (sGroup s)) (prerevokeDone s) true (revokeDone s)
        (revokeCalled s) (sTrace s ++ [SevOnAssigned added])
  | None =>
      mkSession (sGroup s) (prerevokeDone s) true (revokeDone s) (revokeCalled s)
        (sTrace s)
  end.

(** The body of the goroutine of [revoke] after [<-s.assignDone]. *)
Definition revokeBody (s : session) : session :=
  match onRevoked with
  | Some _ =>
      let '(g', ev) := revoke onRevoked (sGroup s) revokeThisSession None in
      mkSession g' (prerevokeDone s) (assignDone s) true (revokeCalled s)
        (sTrace s ++ [SevRevoke ev])
  | None =>
      mkSession (sGroup s) (prerevokeDone s) (assignDone s) true (revokeCalled s)
        (sTrace s)
  end.

(** One step of a session: one of the three goroutines runs (each waits
    for the channel before it), the heartbeat loop calls [s.revoke(g)], or
    something else changes the group consumer. *)
Inductive sessionStep : session -> session -> Prop :=
| SsPrerevoke s :
    prerevokeDone s = false ->
    sessionStep s (prerevokeBody s)
| SsAssign s :
    prerevokeDone s = true -> assignDone s = false ->
    sessionStep s (assignBody s)
| SsRevokeCall s :
    revokeCalled s = false ->
    sessionStep s (mkSession (sGroup s) (prerevokeDone s) (assignDone s) (revokeDone s)
                     true (sTrace s))
| SsRevoke s :
    revokeCalled s = true -> assignDone s = true -> revokeDone s = false ->
    sessionStep s (revokeBody s)
| SsOther s g' :
    cooperative g' = cooperative (sGroup s) ->
    sessionStep s (mkSession g' (prerevokeDone s) (assignDone s) (revokeDone s)
                     (revokeCalled s) (sTrace s)).

(** The calls of a session are, in this order: at most one prerevoke, at
    most one [onAssigned], at most one end-of-session revoke. *)
Record sessionInv (s : session) : Prop := mkSessionInv {
  si_trace : exists pre mid post,
      sTrace s = pre ++ mid ++ post
      /\ (pre = [] \/ exists ev, pre = [SevPrerevoke ev])
      /\ (mid = [] \/ mid = [SevOnAssigned added])
      /\ (post = [] \/ exists ev, post = [SevRevoke ev])
      /\ (assignDone s = false -> mid = [])
      /\ (assignDone s = true -> is_Some onAssigned -> mid = [SevOnAssigned added])
      /\ (revokeDone s = false -> post = [])
      /\ (revokeDone s = true -> is_Some onRevoked -> post <> []);
  si_prerevoke : prerevokeDone s = false -> sTrace s = [] /\ assignDone s = false;
  si_assign : assignDone s = false -> revokeDone s = false;
  si_revoke : revokeDone s = true -> revokeCalled s = true
}.

End Session.

(** A session of [exRebalanced], which lost [t/1]: the prerevoke and
    [onAssigned] have run. *)
Definition exSession : session :=
  assignBody (Some (fun _ g => g)) (Some ∅)
    (prerevokeBody None (Some {[ "t"%string := [1] ]})
       (newAssignRevokeSession exRebalanced)).

(** * Properties *)

(** ** Setters *)

Lemma uncommitted_set_uncommitted u g : uncommitted (set_uncommitted u g) = u.
Proof. reflexivity. Qed.

Lemma set_uncommitted_same g : set_uncommitted (uncommitted g) g = g.
Proof. by destruct g. Qed.

(** ** Generation check of [updateCommitted] *)

(** C1. A response to a request whose [Generation] is not the group's
    current one is dropped whole: [updateCommitted] returns with the group
    consumer (hence its ledger), the request and the response as they
    were. *)
Theorem updateCommitted_stale_generation g req resp :
  ocGeneration req ≠ generation g ->
  updateCommitted g req resp = (g, req, resp)
  /\ uncommitted (updateCommitted g req resp).1.1 = uncommitted g.
Proof.
  intros Hgen. unfold updateCommitted.
  rewrite bool_decide_eq_true_2 by done. done.
Qed.

Lemma updateCommitted_stale_generation_witness :
  ocGeneration (exRequest 4) ≠ generation exGroup
  /\ (updateCommitted exGroup (exRequest 4) exResponse
        = (exGroup, exRequest 4, exResponse)
      /\ uncommitted (updateCommitted exGroup (exRequest 4) exResponse).1.1
         = uncommitted exGroup).
Proof.
  split; [ by vm_compute | apply updateCommitted_stale_generation; by vm_compute ].
Defined.

(** ** [leave] *)

(** C8. With an instance ID, [leave] cancels the session and issues no
    LeaveGroup request; without one it cancels and issues exactly one,
    carrying the group and the member's ID (also as the only member). *)
Theorem leave_instance_id g :
  (is_Some (instanceID g) -> leave g = [EvCancel]
     /\ forall req, EvLeaveGroupRequest req ∉ leave g)
  /\ (instanceID g = None ->
      leave g = [EvCancel;
                 EvLeaveGroupRequest
                   (mkLeaveGroupRequest (id g) (memberID g) [memberID g])]).
Proof.
  unfold leave. split.
  - intros [i Hi]. rewrite Hi. split; [done|].
    intros req Hin. apply list_elem_of_singleton in Hin. discriminate.
  - intros Hi. by rewrite Hi.
Qed.

Lemma leave_instance_id_witness :
  (is_Some (instanceID exStatic)
   /\ leave exStatic = [EvCancel]
   /\ forall req, EvLeaveGroupRequest req ∉ leave exStatic)
  /\ (instanceID exGroup = None
      /\ leave exGroup
         = [EvCancel;
            EvLeaveGroupRequest
              (mkLeaveGroupRequest (id exGroup) (memberID exGroup) [memberID exGroup])]).
Proof.
  split.
  - split; [ by eexists | apply (proj1 (leave_instance_id exStatic)); by eexists ].
  - split; [ reflexivity | apply (proj2 (leave_instance_id exGroup)); reflexivity ].
Defined.

(** ** [revoke] *)

(** A cooperative member loses [t/1]: the fetch pipeline is told to
    invalidate it, the callback runs, the ledger entry goes and a rejoin
    is signalled (the ledger holds [t/0] only, so nothing else changes). *)
Example revoke_cooperative_lost :
  revoke (Some (fun _ g => g))
         (set_uncommitted
            (Some {[ "t"%string :=
                       {[ 0 := mkUncommit (mkEpochOffset 3 11) (mkEpochOffset 3 7);
                          1 := mkUncommit (mkEpochOffset 3 5) (mkEpochOffset 3 5) ]} ]})
            exGroup)
         revokeLastSession (Some {[ "t"%string := [1] ]})
  = (set_rejoinCh true exGroup,
     [EvMaybeAssignPartitions (Some {[ "t"%string := {[ 1 := mkOffset 0 0 ]} ]})
        assignInvalidateMatching;
      EvOnRevoked (Some {[ "t"%string := [1] ]});
      EvRejoin]).
Proof. by vm_compute. Qed.

(** An eager member gives up everything at the end of the session. *)
Example revoke_eager :
  revoke (Some (fun _ g => g))
         (mkGroupConsumer "grp" ["t"%string] false false ∅ (Some exLedger) None None
            false false ∅ "member-1" None 5 None (Some {[ "t"%string := [0; 1] ]}))
         revokeThisSession None
  = (mkGroupConsumer "grp" ["t"%string] false false ∅ None None None
       false false ∅ "member-1" None 5 None None,
     [EvOnRevoked (Some {[ "t"%string := [0; 1] ]})]).
Proof. by vm_compute. Qed.

(** *** With nothing lost *)

(** C10. For a cooperative group, [revoke] with a nil or empty [lost]
    returns at once: the group consumer (ledger, rejoin channel and all) is
    as before and nothing was done outside it: no call to
    [maybeAssignPartitions], none to [onRevoked], no rejoin. *)
Theorem revoke_cooperative_nothing_lost cb g stage lost :
  cooperative g = true ->
  goLen lost = 0%nat ->
  revoke cb g stage lost = (g, [])
  /\ uncommitted (revoke cb g stage lost).1 = uncommitted g
  /\ rejoinCh (revoke cb g stage lost).1 = rejoinCh g
  /\ (forall e, e ∉ (revoke cb g stage lost).2).
Proof.
  intros Hcoop Hlen.
  assert (Hrev : revoke cb g stage lost = (g, [])).
  { unfold revoke. rewrite Hcoop. simpl. by rewrite decide_True. }
  rewrite Hrev. simpl. repeat split; try done.
  intros e He. by apply elem_of_nil in He.
Qed.

Lemma revoke_cooperative_nothing_lost_witness :
  cooperative exGroup = true
  /\ goLen (Some (∅ : gmap string (list Z))) = 0%nat
  /\ revoke (Some (fun _ g => set_uncommitted None g)) exGroup revokeLastSession (Some ∅)
     = (exGroup, [])
  /\ uncommitted (revoke (Some (fun _ g => set_uncommitted None g)) exGroup
                    revokeLastSession (Some ∅)).1 = uncommitted exGroup
  /\ rejoinCh (revoke (Some (fun _ g => set_uncommitted None g)) exGroup
                 revokeLastSession (Some ∅)).1 = rejoinCh exGroup
  /\ (forall e, e ∉ (revoke (Some (fun _ g => set_uncommitted None g)) exGroup
                       revokeLastSession (Some ∅)).2).
Proof.
  split; [reflexivity|]. split; [reflexivity|].
  apply revoke_cooperative_nothing_lost; reflexivity.
Defined.

(** ** [sort.Slice] *)

Lemma insertSlice_Permutation {A} (less : A -> A -> bool) x l :
  Permutation (insertSlice less x l) (x :: l).
Proof.
  induction l as [|y l IH]; simpl; [done|].
  destruct (less y x); [|done].
  rewrite IH. apply perm_swap.
Qed.

Lemma sortSlice_Permutation {A} (less : A -> A -> bool) l :
  Permutation (sortSlice less l) l.
Proof.
  induction l as [|x l IH]; simpl; [done|].
  unfold sortSlice in *. simpl. rewrite insertSlice_Permutation. by constructor.
Qed.

Lemma sortSlice_length {A} (less : A -> A -> bool) l :
  length (sortSlice less l) = length l.
Proof. apply Permutation_length, sortSlice_Permutation. Qed.

Lemma insertSlice_Sorted {A} (less : A -> A -> bool) x l :
  asymmetric less ->
  Sorted (fun a b => less b a = false) l ->
  Sorted (fun a b => less b a = false) (insertSlice less x l).
Proof.
  intros Hasym. induction 1 as [|y l Hsorted IH Hhd]; simpl.
  - by repeat constructor.
  - destruct (less y x) eqn:Hyx.
    + constructor; [done|].
      destruct Hhd as [|z l Hyz]; simpl.
      * constructor. by apply Hasym.
      * destruct (less z x); constructor; [done|]. by apply Hasym.
    + constructor; [by constructor|]. by constructor.
Qed.

Lemma sortSlice_Sorted {A} (less : A -> A -> bool) l :
  asymmetric less ->
  Sorted (fun a b => less b a = false) (sortSlice less l).
Proof.
  intros Hasym. induction l as [|x l IH]; [constructor|].
  unfold sortSlice in *. simpl. by apply insertSlice_Sorted.
Qed.

Lemma Sorted_weaken {A} (R R' : A -> A -> Prop) l :
  (forall a b, R a b -> R' a b) -> Sorted R l -> Sorted R' l.
Proof.
  intros HR. induction 1 as [|x l Hs IH Hhd]; constructor; [done|].
  destruct Hhd; constructor. by apply HR.
Qed.

Lemma String_ltb_asymmetric a b : String.ltb a b = true -> String.ltb b a = false.
Proof.
  unfold String.ltb. rewrite (String.compare_antisym a b).
  by destruct (String.compare b a).
Qed.

Lemma reqTopicLess_asymmetric : asymmetric reqTopicLess.
Proof. intros a b. apply String_ltb_asymmetric. Qed.

Lemma respTopicLess_asymmetric : asymmetric respTopicLess.
Proof. intros a b. apply String_ltb_asymmetric. Qed.

Lemma reqPartLess_asymmetric : asymmetric reqPartLess.
Proof. intros a b. unfold reqPartLess. lia. Qed.

Lemma respPartLess_asymmetric : asymmetric respPartLess.
Proof. intros a b. unfold respPartLess. lia. Qed.

(** ** [updateCommitted] and [updateCommittedTxn] *)

Lemma entryStep_none (P : CommitRequestPartition -> Prop) o :
  (forall rq, ~ P rq) -> entryStep P o o.
Proof.
  intros HP. destruct o as [un|]; simpl; [|done].
  exists un. split; [done|]. split; [done|]. by right.
Qed.

Lemma entryStep_compose (P1 P2 P : CommitRequestPartition -> Prop) o o1 o2 :
  (forall rq, P rq <-> P1 rq \/ P2 rq) ->
  entryStep P1 o o1 -> entryStep P2 o1 o2 -> entryStep P o o2.
Proof.
  intros HP H1 H2. destruct o as [un|]; simpl in *.
  - destruct H1 as (un1 & -> & Hh1 & Hc1). simpl in H2.
    destruct H2 as (un2 & -> & Hh2 & Hc2).
    exists un2. split; [done|]. split; [congruence|].
    destruct Hc2 as [(rq & Hrq & Hc2) | [Hno2 Hc2]].
    + left. exists rq. split; [|done]. apply HP. by right.
    + destruct Hc1 as [(rq & Hrq & Hc1) | [Hno1 Hc1]].
      * left. exists rq. split; [apply HP; by left | congruence].
      * right. split; [|congruence]. intros rq Hrq. apply HP in Hrq as [?|?];
          [by eapply Hno1 | by eapply Hno2].
  - subst o1. simpl in H2. done.
Qed.

Lemma commitPartition_entryStep topic reqPart respPart p :
  entryStep (fun rq => ackedPartition p rq (reqPart, respPart))
            (topic !! p) (commitPartition topic reqPart respPart !! p).
Proof.
  unfold commitPartition.
  destruct (topic !! rsPartition respPart) as [un|] eqn:Hun.
  2:{ destruct (decide (p = rsPartition respPart)) as [->|Hne].
      - by rewrite Hun.
      - apply entryStep_none. intros rq (_ & _ & Hp & _). simpl in Hp. congruence. }
  destruct (bool_decide (rsErrorCode respPart ≠ 0)) eqn:Herr; simpl.
  { apply entryStep_none. intros rq (_ & _ & _ & He). simpl in He.
    apply bool_decide_eq_true_1 in Herr. done. }
  destruct (bool_decide (rqPartition reqPart ≠ rsPartition respPart)) eqn:Hpart; simpl.
  { apply entryStep_none. intros rq (Hrq & Hp1 & Hp2 & _). simpl in *. subst rq.
    apply bool_decide_eq_true_1 in Hpart. congruence. }
  apply bool_decide_eq_false_1 in Herr, Hpart.
  assert (rsErrorCode respPart = 0) as He by (destruct (decide (rsErrorCode respPart = 0)); done).
  assert (rqPartition reqPart = rsPartition respPart) as Hp
    by (destruct (decide (rqPartition reqPart = rsPartition respPart)); done).
  destruct (decide (p = rsPartition respPart)) as [->|Hne].
  - rewrite Hun, lookup_insert_eq. simpl. eexists. split; [done|]. split; [done|].
    left. exists reqPart. split; [|done]. by repeat split.
  - rewrite lookup_insert_ne by done. apply entryStep_none.
    intros rq (_ & _ & Hp2 & _). simpl in Hp2. congruence.
Qed.

Lemma commitPartitions_entryStep topic reqParts respParts p :
  entryStep (fun rq => Exists (ackedPartition p rq) (zip reqParts respParts))
            (topic !! p) (commitPartitions topic reqParts respParts !! p).
Proof.
  revert topic respParts. induction reqParts as [|reqPart reqParts IH];
    intros topic respParts; simpl.
  - apply entryStep_none. intros rq H. by apply Exists_nil in H.
  - destruct respParts as [|respPart respParts]; simpl.
    + apply entryStep_none. intros rq H. by apply Exists_nil in H.
    + eapply entryStep_compose; [|apply commitPartition_entryStep|apply IH].
      intros rq. simpl. apply Exists_cons.
Qed.

Lemma entryStep_iff (P Q : CommitRequestPartition -> Prop) o o' :
  (forall rq, Q rq <-> P rq) -> entryStep P o o' -> entryStep Q o o'.
Proof.
  intros HPQ H. destruct o as [un|]; simpl in *; [|done].
  destruct H as (un' & -> & Hh & Hc). exists un'. split; [done|]. split; [done|].
  destruct Hc as [(rq & Hrq & Hc) | [Hno Hc]].
  - left. exists rq. split; [by apply HPQ|done].
  - right. split; [|done]. intros rq Hrq. apply (Hno rq). by apply HPQ.
Qed.

Lemma commitTopic_dom u reqTopic respTopic :
  dom (commitTopic u reqTopic respTopic).1.1 = dom u.
Proof.
  unfold commitTopic. destruct (u !! rsTopic respTopic) as [m|] eqn:Hm; [|done].
  destruct (_ || _); [done|]. simpl. rewrite dom_insert_L.
  assert (rsTopic respTopic ∈ dom u) by (apply elem_of_dom; eauto). set_solver.
Qed.

Lemma commitTopic_entryStep u reqTopic respTopic topic p :
  entryStep (fun rq => ackedTopic topic p rq (reqTopic, respTopic))
            (entry (Some u) topic p)
            (entry (Some (commitTopic u reqTopic respTopic).1.1) topic p).
Proof.
  unfold commitTopic, entry.
  destruct (u !! rsTopic respTopic) as [m|] eqn:Hm.
  2:{ simpl. destruct (decide (topic = rsTopic respTopic)) as [->|Hne].
      - by rewrite Hm.
      - apply entryStep_none. intros rq (_ & Ht & _). simpl in Ht. congruence. }
  destruct (bool_decide (rqTopic reqTopic ≠ rsTopic respTopic)) eqn:Hname; simpl.
  { apply entryStep_none. intros rq (Ht1 & Ht2 & _). simpl in *.
    apply bool_decide_eq_true_1 in Hname. congruence. }
  destruct (bool_decide (length (rqPartitions reqTopic)
                         ≠ length (rsPartitions respTopic))) eqn:Hlen; simpl.
  { apply entryStep_none. intros rq (_ & _ & Hl & _). simpl in *.
    apply bool_decide_eq_true_1 in Hlen. congruence. }
  apply bool_decide_eq_false_1 in Hname, Hlen.
  assert (rqTopic reqTopic = rsTopic respTopic) as Hn
    by (destruct (decide (rqTopic reqTopic = rsTopic respTopic)); done).
  assert (length (rqPartitions reqTopic) = length (rsPartitions respTopic)) as Hl
    by (destruct (decide (length (rqPartitions reqTopic)
                          = length (rsPartitions respTopic))); done).
  destruct (decide (topic = rsTopic respTopic)) as [->|Hne].
  - rewrite Hm, lookup_insert_eq.
    eapply entryStep_iff; [|apply commitPartitions_entryStep].
    intros rq. unfold ackedTopic. simpl. naive_solver.
  - rewrite lookup_insert_ne by done. apply entryStep_none.
    intros rq (_ & Ht & _). simpl in Ht. congruence.
Qed.

Lemma commitTopics_dom u reqTopics respTopics :
  dom (commitTopics u reqTopics respTopics).1.1 = dom u.
Proof.
  revert u respTopics. induction reqTopics as [|rt rts IH]; intros u pts; simpl; [done|].
  destruct pts as [|pt pts]; [done|].
  pose proof (commitTopic_dom u rt pt) as Hd.
  destruct (commitTopic u rt pt) as [[u1 rt1] pt1]. simpl in Hd.
  specialize (IH u1 pts).
  destruct (commitTopics u1 rts pts) as [[u2 rts2] pts2]. simpl in *. congruence.
Qed.

Lemma commitTopics_entryStep u reqTopics respTopics topic p :
  entryStep (fun rq => Exists (ackedTopic topic p rq) (zip reqTopics respTopics))
            (entry (Some u) topic p)
            (entry (Some (commitTopics u reqTopics respTopics).1.1) topic p).
Proof.
  revert u respTopics. induction reqTopics as [|rt rts IH]; intros u pts; simpl.
  - apply entryStep_none. intros rq H. by apply Exists_nil in H.
  - destruct pts as [|pt pts].
    + apply entryStep_none. intros rq H. by apply Exists_nil in H.
    + pose proof (commitTopic_entryStep u rt pt topic p) as H1.
      destruct (commitTopic u rt pt) as [[u1 rt1] pt1]. simpl in H1.
      specialize (IH u1 pts).
      destruct (commitTopics u1 rts pts) as [[u2 rts2] pts2]. simpl in *.
      eapply entryStep_compose; [|apply H1|apply IH].
      intros rq. simpl. apply Exists_cons.
Qed.

Lemma commitTopics_applied u reqTopics respTopics :
  commitApplied u
    (commitTopics u (sortSlice reqTopicLess reqTopics)
                    (sortSlice respTopicLess respTopics)).1.1
    reqTopics respTopics.
Proof.
  split; [apply commitTopics_dom|]. intros topic p. apply commitTopics_entryStep.
Qed.

(** How the loop over the topics leaves the request: the topics in the
    order given, each with its partitions as they were or sorted. *)
Lemma commitTopics_request u reqTopics respTopics :
  length reqTopics = length respTopics ->
  Forall2 (fun rt rt' =>
             rqTopic rt' = rqTopic rt
             /\ (rqPartitions rt' = rqPartitions rt
                 \/ rqPartitions rt' = sortSlice reqPartLess (rqPartitions rt)))
          reqTopics (commitTopics u reqTopics respTopics).1.2.
Proof.
  revert u respTopics. induction reqTopics as [|rt rts IH]; intros u pts Hlen; simpl.
  - constructor.
  - destruct pts as [|pt pts]; [done|]. simpl in Hlen.
    assert (Hone : rqTopic (commitTopic u rt pt).1.2 = rqTopic rt
                   /\ (rqPartitions (commitTopic u rt pt).1.2 = rqPartitions rt
                       \/ rqPartitions (commitTopic u rt pt).1.2
                          = sortSlice reqPartLess (rqPartitions rt))).
    { unfold commitTopic. destruct (u !! rsTopic pt); [|by auto].
      destruct (_ || _); simpl; auto. }
    destruct (commitTopic u rt pt) as [[u1 rt1] pt1]. simpl in Hone.
    specialize (IH u1 pts ltac:(lia)).
    destruct (commitTopics u1 rts pts) as [[u2 rts2] pts2]. simpl in *.
    by constructor.
Qed.

(** The same for the response. *)
Lemma commitTopics_response u reqTopics respTopics :
  length reqTopics = length respTopics ->
  Forall2 (fun pt pt' =>
             rsTopic pt' = rsTopic pt
             /\ (rsPartitions pt' = rsPartitions pt
                 \/ rsPartitions pt' = sortSlice respPartLess (rsPartitions pt)))
          respTopics (commitTopics u reqTopics respTopics).2.
Proof.
  revert u respTopics. induction reqTopics as [|rt rts IH]; intros u pts Hlen; simpl.
  - destruct pts; [constructor|done].
  - destruct pts as [|pt pts]; [done|]. simpl in Hlen.
    assert (Hone : rsTopic (commitTopic u rt pt).2 = rsTopic pt
                   /\ (rsPartitions (commitTopic u rt pt).2 = rsPartitions pt
                       \/ rsPartitions (commitTopic u rt pt).2
                          = sortSlice respPartLess (rsPartitions pt))).
    { unfold commitTopic. destruct (u !! rsTopic pt); [|by auto].
      destruct (_ || _); simpl; auto. }
    destruct (commitTopic u rt pt) as [[u1 rt1] pt1]. simpl in Hone.
    specialize (IH u1 pts ltac:(lia)).
    destruct (commitTopics u1 rts pts) as [[u2 rts2] pts2]. simpl in *.
    by constructor.
Qed.

Example updateCommitted_acknowledged :
  entry (uncommitted (updateCommitted exGroup (exRequest 5) exResponse).1.1) "t" 0
  = Some (mkUncommit (mkEpochOffset 3 11) (mkEpochOffset 3 11)).
Proof. by vm_compute. Qed.

(** C3.  Both functions work on the request and the response sorted by
    topic, and within a topic pair by partition.  When the ledger is
    allocated and both sides list as many topics (and, for
    [updateCommitted], the generation is current), the ledger afterwards is
    the ledger before with the commit applied ([commitApplied]): the same
    topics; absent entries stay absent; a present entry keeps its head and
    takes (request epoch, request offset) as committed position exactly
    when some position of the sorted lists pairs a request and a response
    partition of that topic and partition with error code zero, and is
    unchanged otherwise.  When the topic counts differ, or the ledger is
    nil, nothing changes.  The request and the response are left sorted by
    topic, the partitions of a topic as they were or sorted. *)
Theorem updateCommitted_applies g :
  (forall req resp u,
      uncommitted g = Some u ->
      ocGeneration req = generation g ->
      length (ocTopics req) = length (ocrTopics resp) ->
      (exists u',
          uncommitted (updateCommitted g req resp).1.1 = Some u'
          /\ commitApplied u u' (ocTopics req) (ocrTopics resp))
      /\ Forall2 (fun rt rt' =>
                    rqTopic rt' = rqTopic rt
                    /\ (rqPartitions rt' = rqPartitions rt
                        \/ rqPartitions rt' = sortSlice reqPartLess (rqPartitions rt)))
                 (sortSlice reqTopicLess (ocTopics req))
                 (ocTopics (updateCommitted g req resp).1.2)
      /\ Forall2 (fun pt pt' =>
                    rsTopic pt' = rsTopic pt
                    /\ (rsPartitions pt' = rsPartitions pt
                        \/ rsPartitions pt' = sortSlice respPartLess (rsPartitions pt)))
                 (sortSlice respTopicLess (ocrTopics resp))
                 (ocrTopics (updateCommitted g req resp).2))
  /\ (forall req resp u,
        uncommitted g = Some u ->
        length (tcTopics req) = length (tcrTopics resp) ->
        (exists u',
            uncommitted (updateCommittedTxn g req resp).1.1 = Some u'
            /\ commitApplied u u' (tcTopics req) (tcrTopics resp))
        /\ Forall2 (fun rt rt' =>
                      rqTopic rt' = rqTopic rt
                      /\ (rqPartitions rt' = rqPartitions rt
                          \/ rqPartitions rt' = sortSlice reqPartLess (rqPartitions rt)))
                   (sortSlice reqTopicLess (tcTopics req))
                   (tcTopics (updateCommittedTxn g req resp).1.2)
        /\ Forall2 (fun pt pt' =>
                      rsTopic pt' = rsTopic pt
                      /\ (rsPartitions pt' = rsPartitions pt
                          \/ rsPartitions pt' = sortSlice respPartLess (rsPartitions pt)))
                   (sortSlice respTopicLess (tcrTopics resp))
                   (tcrTopics (updateCommittedTxn g req resp).2))
  /\ (forall req resp,
        length (ocTopics req) ≠ length (ocrTopics resp) \/ uncommitted g = None ->
        updateCommitted g req resp = (g, req, resp))
  /\ (forall req resp,
        length (tcTopics req) ≠ length (tcrTopics resp) \/ uncommitted g = None ->
        updateCommittedTxn g req resp = (g, req, resp))
  /\ (forall reqTopics respTopics reqParts respParts,
        (Permutation (sortSlice reqTopicLess reqTopics) reqTopics
         /\ Sorted (fun a b => String.ltb (rqTopic b) (rqTopic a) = false)
                   (sortSlice reqTopicLess reqTopics))
        /\ (Permutation (sortSlice respTopicLess respTopics) respTopics
            /\ Sorted (fun a b => String.ltb (rsTopic b) (rsTopic a) = false)
                      (sortSlice respTopicLess respTopics))
        /\ (Permutation (sortSlice reqPartLess reqParts) reqParts
            /\ Sorted (fun a b => rqPartition a <= rqPartition b)
                      (sortSlice reqPartLess reqParts))
        /\ (Permutation (sortSlice respPartLess respParts) respParts
            /\ Sorted (fun a b => rsPartition a <= rsPartition b)
                      (sortSlice respPartLess respParts))).
Proof.
  split; [|split; [|split; [|split]]].
  - intros req resp u Hu Hgen Hlen. unfold updateCommitted.
    rewrite bool_decide_eq_false_2 by (intros ?; done).
    rewrite Hu. rewrite bool_decide_eq_false_2 by (intros ?; done).
    pose proof (commitTopics_applied u (ocTopics req) (ocrTopics resp)) as Happ.
    pose proof (commitTopics_request u (sortSlice reqTopicLess (ocTopics req))
                  (sortSlice respTopicLess (ocrTopics resp))) as Hreq.
    pose proof (commitTopics_response u (sortSlice reqTopicLess (ocTopics req))
                  (sortSlice respTopicLess (ocrTopics resp))) as Hresp.
    rewrite !sortSlice_length in Hreq, Hresp.
    destruct (commitTopics _ _ _) as [[u' rts] pts]. simpl in *.
    split; [by eexists|]. split; [by apply Hreq | by apply Hresp].
  - intros req resp u Hu Hlen. unfold updateCommittedTxn.
    rewrite Hu. rewrite bool_decide_eq_false_2 by (intros ?; done).
    pose proof (commitTopics_applied u (tcTopics req) (tcrTopics resp)) as Happ.
    pose proof (commitTopics_request u (sortSlice reqTopicLess (tcTopics req))
                  (sortSlice respTopicLess (tcrTopics resp))) as Hreq.
    pose proof (commitTopics_response u (sortSlice reqTopicLess (tcTopics req))
                  (sortSlice respTopicLess (tcrTopics resp))) as Hresp.
    rewrite !sortSlice_length in Hreq, Hresp.
    destruct (commitTopics _ _ _) as [[u' rts] pts]. simpl in *.
    split; [by eexists|]. split; [by apply Hreq | by apply Hresp].
  - intros req resp Hor. unfold updateCommitted.
    destruct (bool_decide _); [done|].
    destruct (uncommitted g) as [u|]; [|done].
    destruct Hor as [Hlen|?]; [|done]. by rewrite bool_decide_eq_true_2.
  - intros req resp Hor. unfold updateCommittedTxn.
    destruct (uncommitted g) as [u|]; [|done].
    destruct Hor as [Hlen|?]; [|done]. by rewrite bool_decide_eq_true_2.
  - intros rts pts rps pps.
    split; [split; [apply sortSlice_Permutation|]|].
    { apply (sortSlice_Sorted reqTopicLess), reqTopicLess_asymmetric. }
    split; [split; [apply sortSlice_Permutation|]|].
    { apply (sortSlice_Sorted respTopicLess), respTopicLess_asymmetric. }
    split; (split; [apply sortSlice_Permutation|]).
    + eapply Sorted_weaken; [|apply (sortSlice_Sorted reqPartLess), reqPartLess_asymmetric].
      intros a b. unfold reqPartLess. simpl. lia.
    + eapply Sorted_weaken; [|apply (sortSlice_Sorted respPartLess), respPartLess_asymmetric].
      intros a b. unfold respPartLess. simpl. lia.
Qed.

Lemma updateCommitted_applies_witness :
  uncommitted exGroup = Some exLedger
  /\ ocGeneration (exRequest 5) = generation exGroup
  /\ length (ocTopics (exRequest 5)) = length (ocrTopics exResponse)
  /\ exists u',
       uncommitted (updateCommitted exGroup (exRequest 5) exResponse).1.1 = Some u'
       /\ commitApplied exLedger u' (ocTopics (exRequest 5)) (ocrTopics exResponse).
Proof.
  split; [reflexivity|]. split; [reflexivity|]. split; [reflexivity|].
  apply (proj1 (updateCommitted_applies exGroup) (exRequest 5) exResponse exLedger);
    reflexivity.
Defined.

(** ** [updateUncommitted] *)

Lemma add64_in_range z :
  - 2 ^ 63 <= z < 2 ^ 63 - 1 -> add64 z 1 = z + 1.
Proof.
  intros Hz. unfold add64, wrap.
  replace (2 ^ (64 - 1)) with 9223372036854775808 by reflexivity.
  replace (2 ^ 64) with 18446744073709551616 by reflexivity.
  replace (2 ^ 63) with 9223372036854775808 in Hz by reflexivity.
  rewrite Z.mod_small; lia.
Qed.

Lemma updatePartition_alias topic partition st :
  aliasOk topic st ->
  (updatePartition topic partition st).1 = stepLedger topic partition st.1
  /\ aliasOk topic (updatePartition topic partition st).
Proof.
  destruct st as [unc al]. unfold aliasOk, stepLedger. simpl.
  intros [-> | [-> (u & -> & [m Hm])]].
  - split; [done|].
    unfold updatePartition. destruct (last (fpRecords partition)) as [final|]; [|by left].
    right.
    destruct (default ∅ unc !! topic) as [m|] eqn:Hm; simpl.
    + rewrite Hm. simpl.
      destruct (m !! fpPartition partition) as [un|].
      * destruct (Offset (head un) >? _); simpl; split; try done; eexists; split; try done.
        all: try by rewrite Hm.
        by rewrite lookup_insert_eq.
      * simpl. split; [done|]. eexists; split; [done|]. by rewrite lookup_insert_eq.
    + rewrite lookup_insert_eq. simpl. rewrite lookup_empty.
      simpl. split; [done|]. eexists; split; [done|]. by rewrite lookup_insert_eq.
  - unfold updatePartition. destruct (last (fpRecords partition)) as [final|].
    2:{ split; [done|]. right. split; [done|]. eexists; split; [done|]. by rewrite Hm. }
    repeat (progress (simpl; rewrite ?Hm)).
    destruct (m !! fpPartition partition) as [un|].
    + destruct (Offset (head un) >? _); simpl; (split; [done|]); right;
        (split; [done|]); eexists; (split; [done|]).
      * by rewrite Hm.
      * by rewrite lookup_insert_eq.
    + simpl. split; [done|]. right. split; [done|]. eexists; split; [done|].
      by rewrite lookup_insert_eq.
Qed.

Lemma updateTopic_alias topic st :
  aliasOk (ftTopic topic) st ->
  (updateTopic topic st).1
  = foldl (fun unc partition => stepLedger (ftTopic topic) partition unc)
          st.1 (ftPartitions topic).
Proof.
  unfold updateTopic. generalize (ftPartitions topic) as ps.
  intros ps. revert st. induction ps as [|p ps IH]; intros st Hal; [done|].
  simpl. destruct (updatePartition_alias (ftTopic topic) p st Hal) as [Heq Hal'].
  rewrite IH by done. by rewrite Heq.
Qed.

Lemma updateFetch_one_topic unc fetch :
  (length (fTopics fetch) <= 1)%nat ->
  updateFetch unc fetch
  = foldl (fun unc tp => stepLedger tp.1 tp.2 unc) unc (fetchedPartitions [fetch]).
Proof.
  destruct fetch as [[|topic [|topic' ts]]]; simpl; intros Hlen; [done| |lia].
  unfold updateFetch, fetchedPartitions. simpl.
  rewrite updateTopic_alias by (by left). simpl.
  rewrite !app_nil_r. generalize (ftPartitions topic) as ps. intros ps. revert unc.
  induction ps as [|p ps IH]; intros unc; [done|]. simpl. apply IH.
Qed.

Lemma fetchedPartitions_cons fetch fetches :
  fetchedPartitions (fetch :: fetches)
  = fetchedPartitions [fetch] ++ fetchedPartitions fetches.
Proof. unfold fetchedPartitions. simpl. by rewrite app_nil_r. Qed.

Lemma updateUncommitted_onePartition g tp :
  updateUncommitted g (onePartition tp)
  = set_uncommitted (stepLedger tp.1 tp.2 (uncommitted g)) g.
Proof.
  unfold updateUncommitted, onePartition. simpl. f_equal.
Qed.

Lemma foldl_onePartition g tps :
  foldl (fun g tp => updateUncommitted g (onePartition tp)) g tps
  = set_uncommitted (foldl (fun unc tp => stepLedger tp.1 tp.2 unc) (uncommitted g) tps) g.
Proof.
  revert g. induction tps as [|tp tps IH]; intros g; simpl.
  - by rewrite set_uncommitted_same.
  - rewrite IH, updateUncommitted_onePartition. by destruct g.
Qed.

(** Under one topic per fetch a delivery is processed as if its partitions
    were delivered one at a time. *)
Lemma updateUncommitted_one_at_a_time g fetches :
  oneTopicPerFetch fetches ->
  updateUncommitted g fetches
  = foldl (fun g tp => updateUncommitted g (onePartition tp)) g (fetchedPartitions fetches).
Proof.
  intros Hone. rewrite foldl_onePartition. unfold updateUncommitted. f_equal.
  generalize (uncommitted g) as unc. induction Hone as [|fetch fetches Hlen _ IH]; intros unc; [done|].
  rewrite fetchedPartitions_cons, foldl_app. simpl.
  rewrite IH. by rewrite updateFetch_one_topic.
Qed.

(** The loop body on one partition, [topicOffsets] being nil. *)
Lemma stepLedger_no_records topic partition unc :
  fpRecords partition = [] -> stepLedger topic partition unc = unc.
Proof. unfold stepLedger, updatePartition. by intros ->. Qed.

Lemma stepLedger_new topic partition unc final :
  last (fpRecords partition) = Some final ->
  entry unc topic (fpPartition partition) = None ->
  entry (stepLedger topic partition unc) topic (fpPartition partition)
  = Some (mkUncommit (mkEpochOffset (recLeaderEpoch final) (add64 (recOffset final) 1))
                     (mkEpochOffset 0 0)).
Proof.
  unfold stepLedger, updatePartition, entry. intros -> Hent.
  destruct unc as [u|]; simpl.
  - destruct (u !! topic) as [m|] eqn:Hm; simpl.
    + rewrite Hm in *. simpl. rewrite Hent. simpl. by rewrite !lookup_insert_eq.
    + rewrite lookup_insert_eq. simpl. rewrite lookup_empty. simpl.
      by rewrite !lookup_insert_eq.
  - rewrite lookup_empty. simpl. rewrite lookup_insert_eq. simpl.
    rewrite lookup_empty. simpl. by rewrite !lookup_insert_eq.
Qed.

Lemma stepLedger_advance topic partition unc final un :
  last (fpRecords partition) = Some final ->
  entry unc topic (fpPartition partition) = Some un ->
  Offset (head un) <= add64 (recOffset final) 1 ->
  entry (stepLedger topic partition unc) topic (fpPartition partition)
  = Some (mkUncommit (mkEpochOffset (recLeaderEpoch final) (add64 (recOffset final) 1))
                     (committed un)).
Proof.
  unfold stepLedger, updatePartition, entry. intros -> Hent Hle.
  destruct unc as [u|]; [|done]. simpl.
  destruct (u !! topic) as [m|] eqn:Hm; [|done]. simpl. rewrite Hm. simpl.
  rewrite Hent. destruct (Z.gtb_spec (Offset (head un)) (add64 (recOffset final) 1)); [lia|].
  simpl. by rewrite !lookup_insert_eq.
Qed.

Lemma stepLedger_stale topic partition unc final un :
  last (fpRecords partition) = Some final ->
  entry unc topic (fpPartition partition) = Some un ->
  add64 (recOffset final) 1 < Offset (head un) ->
  stepLedger topic partition unc = unc.
Proof.
  unfold stepLedger, updatePartition, entry. intros -> Hent Hlt.
  destruct unc as [u|]; [|done]. simpl.
  destruct (u !! topic) as [m|] eqn:Hm; [|done]. simpl. rewrite Hm. simpl.
  rewrite Hent. destruct (Z.gtb_spec (Offset (head un)) (add64 (recOffset final) 1)); [done|lia].
Qed.

Lemma stepLedger_other topic partition unc topic' p' :
  (topic', p') ≠ (topic, fpPartition partition) ->
  entry (stepLedger topic partition unc) topic' p' = entry unc topic' p'.
Proof.
  unfold stepLedger, updatePartition, entry. intros Hne.
  destruct (last (fpRecords partition)) as [final|]; [|done].
  assert (Hins : forall (u : ledger) (m : gmap Z uncommit) x,
             u !! topic = Some m \/ (u !! topic = None /\ m = ∅) ->
             match <[topic := <[fpPartition partition := x]> m]> u !! topic' with
             | Some m0 => m0 !! p' | None => None end
             = match u !! topic' with Some m0 => m0 !! p' | None => None end).
  { intros u m x Hm. destruct (decide (topic' = topic)) as [->|Hnt].
    - rewrite lookup_insert_eq. assert (p' ≠ fpPartition partition) by congruence.
      rewrite lookup_insert_ne by done.
      destruct Hm as [-> | [-> ->]]; [done|]. by rewrite lookup_empty.
    - by rewrite lookup_insert_ne. }
  destruct unc as [u|]; simpl.
  - destruct (u !! topic) as [m|] eqn:Hm; simpl.
    + rewrite Hm. simpl. destruct (m !! fpPartition partition) as [un|].
      * destruct (Offset (head un) >? _); simpl; [done|]. apply Hins. by left.
      * simpl. apply Hins. by left.
    + rewrite lookup_insert_eq. simpl. rewrite lookup_empty.
      rewrite insert_insert_eq. simpl. apply Hins. by right.
  - rewrite lookup_empty. simpl. rewrite lookup_insert_eq. simpl. rewrite lookup_empty.
    rewrite insert_insert_eq. simpl.
    rewrite (Hins ∅ ∅) by (right; by rewrite lookup_empty). by rewrite lookup_empty.
Qed.

Lemma notLowered_refl unc : notLowered unc unc.
Proof. intros topic p un Hent. exists un. split; [done|]. split; [lia|done]. Qed.

Lemma notLowered_trans unc1 unc2 unc3 :
  notLowered unc1 unc2 -> notLowered unc2 unc3 -> notLowered unc1 unc3.
Proof.
  intros H12 H23 topic p un Hent.
  destruct (H12 _ _ _ Hent) as (un2 & Hent2 & Hle2 & Hc2).
  destruct (H23 _ _ _ Hent2) as (un3 & Hent3 & Hle3 & Hc3).
  exists un3. split; [done|]. split; [lia|congruence].
Qed.

Lemma notLowered_insert (u : ledger) k p x :
  (forall un, entry (Some u) k p = Some un ->
              Offset (head un) <= Offset (head x) /\ committed x = committed un) ->
  notLowered (Some u) (Some (<[k := <[p := x]> (default ∅ (u !! k))]> u)).
Proof.
  intros Hx topic p' un Hent. unfold entry in *.
  destruct (decide (topic = k)) as [->|Hnk].
  - rewrite lookup_insert_eq. destruct (decide (p' = p)) as [->|Hnp].
    + rewrite lookup_insert_eq. exists x. split; [done|]. by apply Hx.
    + rewrite lookup_insert_ne by done. exists un. destruct (u !! k); [|done].
      split; [done|]. split; [lia|done].
  - rewrite lookup_insert_ne by done. exists un. split; [done|]. split; [lia|done].
Qed.

Lemma updatePartition_notLowered topic partition st :
  notLowered st.1 (updatePartition topic partition st).1.
Proof.
  destruct st as [unc al]. unfold updatePartition. simpl.
  destruct (last (fpRecords partition)) as [final|]; [|apply notLowered_refl].
  destruct unc as [u|]; [|by intros ? ? ? ?].
  assert (Hk : forall k,
    notLowered (Some u)
      (match default ∅ (u !! k) !! fpPartition partition with
       | Some un =>
           if Offset (head un) >? add64 (recOffset final) 1 then (Some u, Some k)
           else (Some (<[k := <[fpPartition partition :=
                   mkUncommit (mkEpochOffset (recLeaderEpoch final) (add64 (recOffset final) 1))
                              (committed un)]> (default ∅ (u !! k))]> u), Some k)
       | None =>
           (Some (<[k := <[fpPartition partition :=
                   mkUncommit (mkEpochOffset (recLeaderEpoch final) (add64 (recOffset final) 1))
                              (mkEpochOffset 0 0)]> (default ∅ (u !! k))]> u), Some k)
       end).1).
  { intros k. destruct (default ∅ (u !! k) !! fpPartition partition) as [un|] eqn:Hun.
    - destruct (Z.gtb_spec (Offset (head un)) (add64 (recOffset final) 1)); simpl.
      + apply notLowered_refl.
      + apply notLowered_insert. intros un0 Hent. unfold entry in Hent.
        destruct (u !! k); simpl in Hun; [|done].
        assert (un0 = un) as -> by congruence. simpl. split; [lia|done].
    - simpl. apply notLowered_insert. intros un0 Hent. unfold entry in Hent.
      destruct (u !! k); simpl in Hun; [congruence|done]. }
  destruct al as [k|]; simpl; [apply Hk|].
  destruct (u !! topic) as [m|] eqn:Hm; simpl; [apply Hk|].
  specialize (Hk topic). rewrite Hm in Hk. simpl in Hk. rewrite lookup_empty in Hk.
  rewrite lookup_insert_eq. simpl. rewrite lookup_empty. simpl.
  rewrite insert_insert_eq. apply Hk.
Qed.

Lemma updateTopic_notLowered topic st :
  notLowered st.1 (updateTopic topic st).1.
Proof.
  unfold updateTopic. generalize (ftPartitions topic) as ps. intros ps. revert st.
  induction ps as [|p ps IH]; intros st; simpl; [apply notLowered_refl|].
  eapply notLowered_trans; [apply updatePartition_notLowered | apply IH].
Qed.

Lemma updateFetch_notLowered unc fetch :
  notLowered unc (updateFetch unc fetch).
Proof.
  unfold updateFetch. generalize (fTopics fetch) as ts. intros ts.
  change unc with ((unc, @None string).1) at 1.
  generalize (unc, @None string) as st.
  induction ts as [|t ts IH]; intros st; simpl; [apply notLowered_refl|].
  eapply notLowered_trans; [apply updateTopic_notLowered | apply IH].
Qed.

Lemma updateUncommitted_notLowered g fetches :
  notLowered (uncommitted g) (uncommitted (updateUncommitted g fetches)).
Proof.
  unfold updateUncommitted. rewrite uncommitted_set_uncommitted.
  generalize (uncommitted g) as unc. induction fetches as [|f fs IH]; intros unc; simpl.
  - apply notLowered_refl.
  - eapply notLowered_trans; [apply updateFetch_notLowered | apply IH].
Qed.

(** The final record of [exSeenFetch] has offset 10 while the ledger's head
    for [t/0] is already 11: the delivery carries an already-seen offset.
    It is not a no-op (C4): the head's epoch is rewritten from 3 to 5. *)
Lemma updateUncommitted_seen_offset_rewrites_epoch :
  entry (uncommitted exGroup) "t" 0
    = Some (mkUncommit (mkEpochOffset 3 11) (mkEpochOffset 3 7))
  /\ add64 10 1 <= 11
  /\ updateUncommitted exGroup exSeenFetch ≠ exGroup
  /\ entry (uncommitted (updateUncommitted exGroup exSeenFetch)) "t" 0
     = Some (mkUncommit (mkEpochOffset 5 11) (mkEpochOffset 3 7)).
Proof.
  assert (Hafter : entry (uncommitted (updateUncommitted exGroup exSeenFetch)) "t" 0
                   = Some (mkUncommit (mkEpochOffset 5 11) (mkEpochOffset 3 7)))
    by (by vm_compute).
  split; [by vm_compute|]. split; [by vm_compute|]. split; [|done].
  intros Heq. rewrite Heq in Hafter. vm_compute in Hafter. discriminate.
Qed.

(** Within one fetch the records of a second topic are entered under the
    first topic: [b/1] gets no entry and [a] gets one for partition 1. *)
Lemma updateUncommitted_second_topic_of_a_fetch :
  entry (uncommitted (updateUncommitted (set_uncommitted None exGroup) exTwoTopics)) "b" 1
    = None
  /\ entry (uncommitted (updateUncommitted (set_uncommitted None exGroup) exTwoTopics)) "a" 1
     = Some (mkUncommit (mkEpochOffset 1 8) (mkEpochOffset 0 0))
  /\ entry (uncommitted (updateUncommitted (set_uncommitted None exGroup) exTwoTopics)) "a" 0
     = Some (mkUncommit (mkEpochOffset 1 6) (mkEpochOffset 0 0)).
Proof. by vm_compute. Qed.

(** C4, as the code has it.  When every fetch of a delivery carries one
    topic, the delivery is processed partition by partition, and for a
    partition with a final record: with no entry, or with a head offset at
    most the new one, the head becomes (final epoch, final offset + 1) and
    the committed position stays (zero for a new entry), so that an equal
    offset keeps the offset and takes the record's epoch; with a higher
    head offset the group consumer is unchanged; no other entry changes; a
    partition without records changes nothing.  In every delivery, of any
    shape, no entry disappears and no head offset decreases. *)
Theorem updateUncommitted_head g fetches :
  oneTopicPerFetch fetches ->
  updateUncommitted g fetches
    = foldl (fun g tp => updateUncommitted g (onePartition tp)) g
            (fetchedPartitions fetches)
  /\ (forall g0 topic partition,
        (fpRecords partition = [] ->
         updateUncommitted g0 (onePartition (topic, partition)) = g0)
        /\ forall final,
            last (fpRecords partition) = Some final ->
            (- 2 ^ 63 <= recOffset final < 2 ^ 63 - 1 ->
             add64 (recOffset final) 1 = recOffset final + 1)
            /\ (entry (uncommitted g0) topic (fpPartition partition) = None ->
                entry (uncommitted (updateUncommitted g0 (onePartition (topic, partition))))
                      topic (fpPartition partition)
                = Some (mkUncommit
                          (mkEpochOffset (recLeaderEpoch final) (add64 (recOffset final) 1))
                          (mkEpochOffset 0 0)))
            /\ (forall un,
                  entry (uncommitted g0) topic (fpPartition partition) = Some un ->
                  Offset (head un) <= add64 (recOffset final) 1 ->
                  entry (uncommitted (updateUncommitted g0 (onePartition (topic, partition))))
                        topic (fpPartition partition)
                  = Some (mkUncommit
                            (mkEpochOffset (recLeaderEpoch final) (add64 (recOffset final) 1))
                            (committed un)))
            /\ (forall un,
                  entry (uncommitted g0) topic (fpPartition partition) = Some un ->
                  add64 (recOffset final) 1 < Offset (head un) ->
                  updateUncommitted g0 (onePartition (topic, partition)) = g0)
            /\ (forall topic' p',
                  (topic', p') ≠ (topic, fpPartition partition) ->
                  entry (uncommitted (updateUncommitted g0 (onePartition (topic, partition))))
                        topic' p'
                  = entry (uncommitted g0) topic' p'))
  /\ (forall g0 fetches',
        notLowered (uncommitted g0) (uncommitted (updateUncommitted g0 fetches'))).
Proof.
  intros Hone. split; [by apply updateUncommitted_one_at_a_time|].
  split; [|intros; apply updateUncommitted_notLowered].
  intros g0 topic partition.
  rewrite updateUncommitted_onePartition. simpl. split.
  - intros Hrec. rewrite stepLedger_no_records by done. apply set_uncommitted_same.
  - intros final Hfinal. split; [apply add64_in_range|].
    split; [intros; by apply stepLedger_new|].
    split; [intros; by apply stepLedger_advance|].
    split; [|intros; by apply stepLedger_other].
    intros un Hent Hlt. erewrite stepLedger_stale by done. apply set_uncommitted_same.
Qed.

Lemma updateUncommitted_head_witness :
  oneTopicPerFetch exSeenFetch
  /\ updateUncommitted exGroup exSeenFetch
     = foldl (fun g tp => updateUncommitted g (onePartition tp)) exGroup
             (fetchedPartitions exSeenFetch)
  /\ notLowered (uncommitted exGroup)
                (uncommitted (updateUncommitted exGroup exSeenFetch)).
Proof.
  assert (Hone : oneTopicPerFetch exSeenFetch).
  { repeat constructor. }
  split; [exact Hone|].
  split; [ apply (updateUncommitted_head exGroup exSeenFetch Hone)
         | apply (proj2 (proj2 (updateUncommitted_head exGroup exSeenFetch Hone))) ].
Defined.

(** ** [diffAssigned] *)

Example diffAssigned_first_session :
  diffAssigned exGroup = (Some {[ "t"%string := [0; 1] ]}, None).
Proof. reflexivity. Qed.

Example diffAssigned_lost_one :
  diffAssigned exRebalanced = (Some ∅, Some {[ "t"%string := [1] ]}).
Proof. by vm_compute. Qed.

Lemma appendTo_lookup m topic p :
  default [] (appendTo m topic p !! topic) = default [] (m !! topic) ++ [p].
Proof. unfold appendTo. by rewrite lookup_insert_eq. Qed.

Lemma appendTo_lookup_ne m topic p t :
  t ≠ topic -> appendTo m topic p !! t = m !! t.
Proof. intros Hne. unfold appendTo. by rewrite lookup_insert_ne. Qed.

Lemma foldl_lasts (lasts : gset Z) l :
  foldl (fun s p => {[p]} ∪ s) lasts l = list_to_set l ∪ lasts.
Proof.
  revert lasts. induction l as [|p l IH]; intros lasts; simpl.
  - set_solver.
  - rewrite IH. set_solver.
Qed.

Lemma diffNow_fold topic l added lasts :
  (foldl (diffNow topic) (added, lasts) l).2 = lasts ∖ list_to_set l
  /\ (forall t, t ≠ topic ->
                (foldl (diffNow topic) (added, lasts) l).1 !! t = added !! t)
  /\ (forall p, p ∈ default [] (added !! topic) \/ (p ∈ l /\ p ∉ lasts) ->
                p ∈ default [] ((foldl (diffNow topic) (added, lasts) l).1 !! topic))
  /\ (forall p, p ∈ default [] ((foldl (diffNow topic) (added, lasts) l).1 !! topic) ->
                p ∈ default [] (added !! topic) \/ p ∈ l)
  /\ (NoDup l ->
      forall p, p ∈ default [] ((foldl (diffNow topic) (added, lasts) l).1 !! topic) ->
                p ∈ default [] (added !! topic) \/ (p ∈ l /\ p ∉ lasts)).
Proof.
  revert added lasts. induction l as [|p0 l IH]; intros added lasts; simpl.
  - split; [set_solver|]. split; [done|]. split; [|split].
    + intros p [?|[Hin _]]; [done|]. by apply elem_of_nil in Hin.
    + intros p ?. by left.
    + intros _ p ?. by left.
  - destruct (decide (p0 ∈ lasts)) as [Hin|Hnin].
    + destruct (IH added (lasts ∖ {[p0]})) as (Hl & Hother & Hin1 & Hin2 & Hin3).
      split; [rewrite Hl; set_solver|]. split; [done|]. split; [|split].
      * intros p [?|[Hp Hnl]]; apply Hin1; [by left|].
        apply elem_of_cons in Hp as [->|Hp]; [done|]. right. split; [done|]. set_solver.
      * intros p Hp. apply Hin2 in Hp as [?|?]; [by left|]. right. by right.
      * intros Hnd p Hp. apply NoDup_cons in Hnd as [Hp0 Hnd].
        apply (Hin3 Hnd) in Hp as [?|[Hpl Hnl]]; [by left|]. right.
        split; [by right|]. assert (p ≠ p0) by congruence. set_solver.
    + destruct (IH (appendTo added topic p0) lasts) as (Hl & Hother & Hin1 & Hin2 & Hin3).
      split; [rewrite Hl; set_solver|].
      split; [intros t Hne; rewrite Hother by done; by apply appendTo_lookup_ne|].
      rewrite appendTo_lookup in Hin1, Hin2, Hin3. split; [|split].
      * intros p [?|[Hp Hnl]]; apply Hin1.
        -- left. apply elem_of_app. by left.
        -- apply elem_of_cons in Hp as [->|Hp].
           ++ left. apply elem_of_app. right. by apply list_elem_of_singleton.
           ++ by right.
      * intros p Hp. apply Hin2 in Hp as [Hp|?]; [|right; by right].
        apply elem_of_app in Hp as [?|Hp]; [by left|].
        apply list_elem_of_singleton in Hp as ->. right. by left.
      * intros Hnd p Hp. apply NoDup_cons in Hnd as [Hp0 Hnd].
        apply (Hin3 Hnd) in Hp as [Hp|[Hpl Hnl]].
        -- apply elem_of_app in Hp as [?|Hp]; [by left|].
           apply list_elem_of_singleton in Hp as ->. right. split; [by left|done].
        -- right. split; [by right|done].
Qed.

Lemma lost_fold topic l (lost : gmap string (list Z)) (s : gset Z) :
  (foldl (fun st last => (appendTo st.1 topic last, st.2 ∖ {[last]})) (lost, s) l).2
    = s ∖ list_to_set l
  /\ (forall t, t ≠ topic ->
        (foldl (fun st last => (appendTo st.1 topic last, st.2 ∖ {[last]})) (lost, s) l).1
          !! t = lost !! t)
  /\ default []
       ((foldl (fun st last => (appendTo st.1 topic last, st.2 ∖ {[last]})) (lost, s) l).1
          !! topic)
     = default [] (lost !! topic) ++ l.
Proof.
  revert lost s. induction l as [|p l IH]; intros lost s; simpl.
  - split; [set_solver|]. split; [done|]. by rewrite app_nil_r.
  - destruct (IH (appendTo lost topic p) (s ∖ {[p]})) as (Hs & Hother & Htopic).
    split; [rewrite Hs; set_solver|].
    split; [intros t Hne; rewrite Hother by done; by apply appendTo_lookup_ne|].
    rewrite Htopic, appendTo_lookup. by rewrite <- app_assoc.
Qed.

(** One iteration of the loop over [lastAssigned], entered with an empty
    scratch set and no entry yet for [topic]. *)
Lemma diffTopic_step now topic lastPartitions added lost :
  added !! topic = None -> lost !! topic = None ->
  (diffTopic now topic lastPartitions (added, lost, ∅)).2 = ∅
  /\ (forall t, t ≠ topic ->
        (diffTopic now topic lastPartitions (added, lost, ∅)).1.1 !! t = added !! t
        /\ (diffTopic now topic lastPartitions (added, lost, ∅)).1.2 !! t = lost !! t)
  /\ topicDiffed now topic lastPartitions
       (diffTopic now topic lastPartitions (added, lost, ∅)).1.1
       (diffTopic now topic lastPartitions (added, lost, ∅)).1.2.
Proof.
  intros Ha Hl. unfold diffTopic, topicDiffed.
  destruct (goLookup now topic) as [nowPartitions|] eqn:Hnow; simpl.
  2:{ split; [done|]. split.
      - intros t Hne. by rewrite lookup_insert_ne.
      - by rewrite lookup_insert_eq. }
  rewrite foldl_lasts.
  destruct (diffNow_fold topic nowPartitions added (list_to_set lastPartitions ∪ ∅))
    as (Hlasts & Hother & Hin1 & Hin2 & Hin3).
  destruct (foldl (diffNow topic) _ nowPartitions) as [added1 lasts2]. simpl in *.
  destruct (lost_fold topic (elements lasts2) lost lasts2) as (Hs & Hlother & Hltopic).
  destruct (foldl _ (lost, lasts2) (elements lasts2)) as [lost1 lasts3]. simpl in *.
  rewrite Ha in Hin1, Hin2, Hin3. rewrite Hl in Hltopic. simpl in *.
  split; [rewrite Hs; set_solver|].
  split; [intros t Hne; split; [by apply Hother | by apply Hlother]|].
  split; [|split; [|split]].
  - intros p. rewrite Hltopic, elem_of_elements, Hlasts. set_solver.
  - intros p Hp Hnp. apply Hin1. right. split; [done|]. set_solver.
  - intros p Hp. apply Hin2 in Hp as [Hp|?]; [|done]. by apply elem_of_nil in Hp.
  - intros Hnd p Hp. apply (Hin3 Hnd) in Hp as [Hp|[_ Hnl]]; [by apply elem_of_nil in Hp|].
    set_solver.
Qed.

(** The first loop of [diffAssigned]. *)
Lemma diffAssigned_first_loop now (last : gmap string (list Z)) :
  (map_fold (diffTopic now) (∅, ∅, ∅) last).2 = ∅
  /\ (forall t, last !! t = None ->
        (map_fold (diffTopic now) (∅, ∅, ∅) last).1.1 !! t = None
        /\ (map_fold (diffTopic now) (∅, ∅, ∅) last).1.2 !! t = None)
  /\ (forall t lastPartitions, last !! t = Some lastPartitions ->
        topicDiffed now t lastPartitions
          (map_fold (diffTopic now) (∅, ∅, ∅) last).1.1
          (map_fold (diffTopic now) (∅, ∅, ∅) last).1.2).
Proof.
  apply (map_fold_weak_ind
    (fun (st : gmap string (list Z) * gmap string (list Z) * gset Z)
         (m : gmap string (list Z)) =>
       st.2 = ∅
       /\ (forall t, m !! t = None -> st.1.1 !! t = None /\ st.1.2 !! t = None)
       /\ (forall t lastPartitions, m !! t = Some lastPartitions ->
             topicDiffed now t lastPartitions st.1.1 st.1.2))).
  - simpl. split; [done|]. split; [done|]. intros t ps. by rewrite lookup_empty.
  - intros topic lastPartitions m [[added lost] lasts] Hm (Hlasts & Hnone & Hdone).
    cbv beta in *. cbn [fst snd] in *. subst lasts.
    destruct (Hnone topic Hm) as [Ha Hl].
    destruct (diffTopic_step now topic lastPartitions added lost Ha Hl)
      as (Hempty & Hother & Htopic).
    split; [done|]. split.
    + intros t Ht. apply lookup_insert_None in Ht as [Ht Hne].
      destruct (Hother t ltac:(done)) as [-> ->]. by apply Hnone.
    + intros t ps Ht. destruct (decide (topic = t)) as [->|Hne].
      * rewrite lookup_insert_eq in Ht. by simplify_eq.
      * rewrite lookup_insert_ne in Ht by done.
        destruct (Hother t ltac:(done)) as [Ha' Hl'].
        specialize (Hdone t ps Ht). unfold topicDiffed in *.
        rewrite Ha', Hl'. done.
Qed.

(** The second loop of [diffAssigned]. *)
Lemma diffAssigned_second_loop (last added now : gmap string (list Z)) t :
  map_fold (diffNewTopic last) added now !! t
  = match now !! t with
    | Some nowPartitions =>
        match last !! t with
        | None => Some nowPartitions
        | Some _ => added !! t
        end
    | None => added !! t
    end.
Proof.
  apply (map_fold_weak_ind
    (fun (r : gmap string (list Z)) (m : gmap string (list Z)) =>
       r !! t = match m !! t with
                | Some nowPartitions =>
                    match last !! t with
                    | None => Some nowPartitions
                    | Some _ => added !! t
                    end
                | None => added !! t
                end)).
  - by rewrite lookup_empty.
  - intros topic nowPartitions m r Hm IH. unfold diffNewTopic.
    destruct (decide (topic = t)) as [->|Hne].
    + rewrite lookup_insert_eq. rewrite Hm in IH.
      destruct (last !! t); [done|]. by rewrite lookup_insert_eq.
    + rewrite (lookup_insert_ne m) by done. rewrite <- IH.
      destruct (last !! topic); [done|]. by rewrite lookup_insert_ne.
Qed.

(** C5.  As sets of partitions per topic (the partition lists of
    [nowAssigned] listing no partition twice): the lost partitions are
    those of [lastAssigned] that are not in [nowAssigned], the added ones
    those of [nowAssigned] that are not in [lastAssigned]; a topic of
    [lastAssigned] absent from [nowAssigned] is lost with its whole list; a
    topic new to [nowAssigned] is added with its whole list; and with a nil
    or empty [lastAssigned], [added] reads as [nowAssigned] and nothing is
    lost. *)
Theorem diffAssigned_spec g added lost :
  diffAssigned g = (added, lost) ->
  map_Forall (fun _ ps => NoDup ps) (default ∅ (nowAssigned g)) ->
  (forall t p,
      assigned lost t p
      <-> assigned (lastAssigned g) t p /\ ~ assigned (nowAssigned g) t p)
  /\ (forall t p,
        assigned added t p
        <-> assigned (nowAssigned g) t p /\ ~ assigned (lastAssigned g) t p)
  /\ (forall t ps,
        goLookup (lastAssigned g) t = Some ps ->
        goLookup (nowAssigned g) t = None ->
        goLookup lost t = Some ps)
  /\ (forall t ps,
        goLookup (nowAssigned g) t = Some ps ->
        goLookup (lastAssigned g) t = None ->
        goLookup added t = Some ps)
  /\ (goLen (lastAssigned g) = 0%nat ->
      (forall t, goLookup added t = goLookup (nowAssigned g) t)
      /\ forall t p, ~ assigned lost t p).
Proof.
  unfold diffAssigned. intros Hdiff Hnodup.
  destruct (lastAssigned g) as [last|] eqn:Hlast.
  2:{ simplify_eq. unfold assigned. simpl.
      split; [naive_solver|]. split; [naive_solver|]. split; [done|].
      split; [done|]. intros _. split; [done|]. naive_solver. }
  destruct (diffAssigned_first_loop (nowAssigned g) last) as (_ & Hnone & Hdone).
  pose proof (diffAssigned_second_loop last
                (map_fold (diffTopic (nowAssigned g)) (∅, ∅, ∅) last).1.1
                (default ∅ (nowAssigned g))) as Hsecond.
  destruct (map_fold (diffTopic (nowAssigned g)) (∅, ∅, ∅) last)
    as [[added1 lost1] lasts]. simpl in *. simplify_eq.
  assert (Hnow : forall t, default ∅ (nowAssigned g) !! t = goLookup (nowAssigned g) t).
  { intros t. destruct (nowAssigned g); simpl; [done|]. by rewrite lookup_empty. }
  assert (Hnd : forall t ps, goLookup (nowAssigned g) t = Some ps -> NoDup ps).
  { intros t ps Ht. rewrite <- Hnow in Ht. by apply (Hnodup t ps). }
  assert (Hlost : forall t p,
             assigned (Some lost1) t p
             <-> assigned (Some last) t p /\ ~ assigned (nowAssigned g) t p).
  { intros t p. unfold assigned. simpl. split.
    - intros (ps & Hps & Hp). destruct (last !! t) as [lastPs|] eqn:Hl.
      2:{ destruct (Hnone t Hl) as [_ Hl1]. congruence. }
      specialize (Hdone t lastPs Hl). unfold topicDiffed in Hdone.
      destruct (goLookup (nowAssigned g) t) as [nowPs|] eqn:Hn.
      + destruct Hdone as (Hl1 & _). rewrite Hps in Hl1. simpl in Hl1.
        apply Hl1 in Hp as [Hp Hnp]. split; [by eexists|].
        intros (ps' & Hps' & Hp'). congruence.
      + destruct Hdone as [Hl1 _]. split; [exists lastPs; split; congruence|].
        intros (ps' & Hps' & _). congruence.
    - intros [(lastPs & Hl & Hp) Hnot]. specialize (Hdone t lastPs Hl).
      unfold topicDiffed in Hdone.
      destruct (goLookup (nowAssigned g) t) as [nowPs|] eqn:Hn.
      + destruct Hdone as (Hl1 & _).
        assert (Hin : p ∈ default [] (lost1 !! t)).
        { apply Hl1. split; [done|]. intros Hpn. apply Hnot. by exists nowPs. }
        destruct (lost1 !! t) as [ps|]; simpl in Hin; [by exists ps|].
        by apply elem_of_nil in Hin.
      + destruct Hdone as [Hl1 _]. by exists lastPs. }
  split; [exact Hlost|]. split; [|split; [|split]].
  - intros t p. unfold assigned. simpl. rewrite Hsecond, Hnow. split.
    + intros (ps & Hps & Hp).
      destruct (goLookup (nowAssigned g) t) as [nowPs|] eqn:Hn.
      * destruct (last !! t) as [lastPs|] eqn:Hl.
        -- specialize (Hdone t lastPs Hl). unfold topicDiffed in Hdone.
           rewrite Hn in Hdone. destruct Hdone as (_ & _ & Hin & Hnl).
           rewrite Hps in Hin, Hnl. simpl in *.
           split; [exists nowPs; split; [done|by apply Hin]|].
           intros (ps' & Hps' & Hp'). simplify_eq.
           by apply (Hnl (Hnd t nowPs Hn) p).
        -- simplify_eq. split; [by exists ps|]. intros (ps' & Hps' & _). congruence.
      * destruct (last !! t) as [lastPs|] eqn:Hl.
        -- specialize (Hdone t lastPs Hl). unfold topicDiffed in Hdone.
           rewrite Hn in Hdone. destruct Hdone as [_ Ha]. congruence.
        -- destruct (Hnone t Hl) as [Ha _]. congruence.
    + intros [(nowPs & Hn & Hp) Hnot]. rewrite Hn.
      destruct (last !! t) as [lastPs|] eqn:Hl; [|by exists nowPs].
      specialize (Hdone t lastPs Hl). unfold topicDiffed in Hdone.
      rewrite Hn in Hdone. destruct Hdone as (_ & Hadd & _).
      assert (Hin : p ∈ default [] (added1 !! t)).
      { apply Hadd; [done|]. intros Hpl. apply Hnot. by exists lastPs. }
      destruct (added1 !! t) as [ps|]; simpl in Hin; [by exists ps|].
      by apply elem_of_nil in Hin.
  - simpl. intros t ps Hl Hn. specialize (Hdone t ps Hl). unfold topicDiffed in Hdone.
    rewrite Hn in Hdone. by destruct Hdone.
  - simpl. intros t ps Hn Hl. by rewrite Hsecond, Hnow, Hn, Hl.
  - simpl. intros Hsize. apply map_size_empty_iff in Hsize. subst last. split.
    + intros t. rewrite Hsecond, Hnow, lookup_empty.
      destruct (goLookup (nowAssigned g) t) eqn:Hn; [done|].
      destruct (Hnone t ltac:(by rewrite lookup_empty)) as [Ha _]. done.
    + intros t p Hass. apply Hlost in Hass as [(ps & Hps & _) _].
      simpl in Hps. by rewrite lookup_empty in Hps.
Qed.

Lemma diffAssigned_spec_witness :
  diffAssigned exRebalanced = (Some ∅, Some {[ "t"%string := [1] ]})
  /\ map_Forall (fun _ ps => NoDup ps) (default ∅ (nowAssigned exRebalanced))
  /\ (forall t p,
        assigned (Some {[ "t"%string := [1] ]}) t p
        <-> assigned (lastAssigned exRebalanced) t p
            /\ ~ assigned (nowAssigned exRebalanced) t p)
  /\ (forall t p,
        assigned (Some ∅) t p
        <-> assigned (nowAssigned exRebalanced) t p
            /\ ~ assigned (lastAssigned exRebalanced) t p).
Proof.
  assert (Hnd : map_Forall (fun _ ps => NoDup ps) (default ∅ (nowAssigned exRebalanced))).
  { apply map_Forall_singleton. apply (bool_decide_unpack (NoDup [0; 2])). by vm_compute. }
  split; [by vm_compute|]. split; [exact Hnd|].
  split; [ apply (diffAssigned_spec exRebalanced (Some ∅) (Some {[ "t"%string := [1] ]}));
             [by vm_compute | exact Hnd]
         | apply (proj2 (diffAssigned_spec exRebalanced (Some ∅)
                           (Some {[ "t"%string := [1] ]})
                           ltac:(by vm_compute) Hnd)) ].
Defined.

(** ** [fetchOffsets] *)

Lemma fetchPartitionOffset_spec version resetOffset rPartition :
  fetchPartitionOffset version resetOffset rPartition
  = specOffset version resetOffset rPartition.
Proof.
  unfold fetchPartitionOffset, specOffset.
  destruct (Z.eqb_spec (ofOffset rPartition) (-1)) as [Heq|Hne].
  - by rewrite decide_True.
  - rewrite decide_False by done. simpl.
    destruct (Z.geb_spec version 5); [by rewrite decide_True by lia|].
    by rewrite decide_False by lia.
Qed.

Section KerrFacts.

Context {error : Type}.
Context (ErrorForCode : Z -> option error).
Context (IsRetriable : error -> bool).
Context (errorsNew : string -> error).

Lemma fetchPartitions_ok version resetOffset topicOffsets rPartitions :
  Forall (fun rp => ofPartErrorCode rp = 0) rPartitions ->
  fetchPartitions ErrorForCode version resetOffset topicOffsets rPartitions
  = inr (foldl (fun m rp => <[ofPartition rp := specOffset version resetOffset rp]> m)
               topicOffsets rPartitions).
Proof.
  intros Hok. revert topicOffsets.
  induction Hok as [|rp rps Hrp _ IH]; intros topicOffsets; simpl; [done|].
  rewrite bool_decide_eq_false_2 by (intros ?; done).
  by rewrite IH, fetchPartitionOffset_spec.
Qed.

Lemma fetchPartitions_error version resetOffset topicOffsets ps1 rPartition ps2 :
  Forall (fun rp => ofPartErrorCode rp = 0) ps1 ->
  ofPartErrorCode rPartition ≠ 0 ->
  fetchPartitions ErrorForCode version resetOffset topicOffsets (ps1 ++ rPartition :: ps2)
  = inl (ErrorForCode (ofPartErrorCode rPartition)).
Proof.
  intros Hok Herr. revert topicOffsets.
  induction Hok as [|rp rps Hrp _ IH]; intros topicOffsets; simpl.
  - by rewrite bool_decide_eq_true_2.
  - rewrite bool_decide_eq_false_2 by (intros ?; done). apply IH.
Qed.

Lemma fetchTopics_ok version resetOffset offsets rTopics :
  noPartitionError rTopics ->
  fetchTopics ErrorForCode version resetOffset offsets rTopics
  = inr (foldl (fun o rt =>
                  <[ofTopic rt := specPartitions version resetOffset (ofPartitions rt)]> o)
               offsets rTopics).
Proof.
  intros Hok. revert offsets.
  induction Hok as [|rt rts Hrt _ IH]; intros offsets; simpl; [done|].
  rewrite fetchPartitions_ok by done. by rewrite IH.
Qed.

Lemma fetchTopics_error version resetOffset offsets rTopics rPartition :
  firstPartitionError rTopics rPartition ->
  fetchTopics ErrorForCode version resetOffset offsets rTopics
  = inl (ErrorForCode (ofPartErrorCode rPartition)).
Proof.
  intros (ts1 & rt & ts2 & ps1 & ps2 & -> & Hps & Hok & Hok1 & Herr).
  revert offsets. induction Hok as [|rt0 rts Hrt _ IH]; intros offsets; simpl.
  - rewrite Hps. by rewrite fetchPartitions_error.
  - rewrite fetchPartitions_ok by done. apply IH.
Qed.

End KerrFacts.

(** Reading the decoded maps. *)
Lemma specPartitions_lookup version resetOffset rPartitions p o :
  specPartitions version resetOffset rPartitions !! p = Some o ->
  exists rp, rp ∈ rPartitions /\ ofPartition rp = p
             /\ o = specOffset version resetOffset rp.
Proof.
  unfold specPartitions.
  assert (Hgen : forall m : gmap Z kgoOffset,
    foldl (fun m rp => <[ofPartition rp := specOffset version resetOffset rp]> m)
          m rPartitions !! p = Some o ->
    m !! p = Some o
    \/ exists rp, rp ∈ rPartitions /\ ofPartition rp = p
                  /\ o = specOffset version resetOffset rp).
  { induction rPartitions as [|rp rps IH]; intros m Hm; simpl in *; [by left|].
    apply IH in Hm as [Hm | (rp' & Hin & Hp & Ho)].
    - destruct (decide (ofPartition rp = p)) as [Heq|Hne].
      + rewrite Heq, lookup_insert_eq in Hm. right. exists rp.
        split; [by left|]. split; [done|congruence].
      + rewrite lookup_insert_ne in Hm by done. by left.
    - right. exists rp'. split; [by right|done]. }
  intros Hm. apply Hgen in Hm as [Hm|?]; [|done]. by rewrite lookup_empty in Hm.
Qed.

Lemma specPartitions_complete version resetOffset rPartitions rp :
  NoDup (ofPartition <$> rPartitions) ->
  rp ∈ rPartitions ->
  specPartitions version resetOffset rPartitions !! ofPartition rp
  = Some (specOffset version resetOffset rp).
Proof.
  unfold specPartitions.
  assert (Hkeep : forall (l : list OffsetFetchResponseTopicPartition)
                         (m : gmap Z kgoOffset) p,
    p ∉ ofPartition <$> l ->
    foldl (fun m rp => <[ofPartition rp := specOffset version resetOffset rp]> m) m l !! p
    = m !! p).
  { induction l as [|x l IH]; intros m p Hp; simpl in *; [done|].
    apply not_elem_of_cons in Hp as [Hne Hp]. rewrite IH by done.
    by rewrite lookup_insert_ne. }
  generalize (∅ : gmap Z kgoOffset) as m.
  induction rPartitions as [|x l IH]; intros m Hnd Hin; simpl in *.
  - by apply elem_of_nil in Hin.
  - apply NoDup_cons in Hnd as [Hx Hnd]. apply elem_of_cons in Hin as [->|Hin].
    + rewrite Hkeep by done. by rewrite lookup_insert_eq.
    + by apply IH.
Qed.

Lemma specTopics_lookup version resetOffset rTopics t m :
  specTopics version resetOffset rTopics !! t = Some m ->
  exists rt, rt ∈ rTopics /\ ofTopic rt = t
             /\ m = specPartitions version resetOffset (ofPartitions rt).
Proof.
  unfold specTopics.
  assert (Hgen : forall o : gmap string (gmap Z kgoOffset),
    foldl (fun o rt =>
             <[ofTopic rt := specPartitions version resetOffset (ofPartitions rt)]> o)
          o rTopics !! t = Some m ->
    o !! t = Some m
    \/ exists rt, rt ∈ rTopics /\ ofTopic rt = t
                  /\ m = specPartitions version resetOffset (ofPartitions rt)).
  { induction rTopics as [|rt rts IH]; intros o Ho; simpl in *; [by left|].
    apply IH in Ho as [Ho | (rt' & Hin & Ht & Hm)].
    - destruct (decide (ofTopic rt = t)) as [Heq|Hne].
      + rewrite Heq, lookup_insert_eq in Ho. right. exists rt.
        split; [by left|]. split; [done|congruence].
      + rewrite lookup_insert_ne in Ho by done. by left.
    - right. exists rt'. split; [by right|done]. }
  intros Ho. apply Hgen in Ho as [Ho|?]; [|done]. by rewrite lookup_empty in Ho.
Qed.

Lemma specTopics_complete version resetOffset rTopics rt :
  NoDup (ofTopic <$> rTopics) ->
  rt ∈ rTopics ->
  specTopics version resetOffset rTopics !! ofTopic rt
  = Some (specPartitions version resetOffset (ofPartitions rt)).
Proof.
  unfold specTopics.
  assert (Hkeep : forall (l : list OffsetFetchResponseTopic)
                         (o : gmap string (gmap Z kgoOffset)) t,
    t ∉ ofTopic <$> l ->
    foldl (fun o rt =>
             <[ofTopic rt := specPartitions version resetOffset (ofPartitions rt)]> o)
          o l !! t
    = o !! t).
  { induction l as [|x l IH]; intros o t Ht; simpl in *; [done|].
    apply not_elem_of_cons in Ht as [Hne Ht]. rewrite IH by done.
    by rewrite lookup_insert_ne. }
  generalize (∅ : gmap string (gmap Z kgoOffset)) as o.
  induction rTopics as [|x l IH]; intros o Hnd Hin; simpl in *.
  - by apply elem_of_nil in Hin.
  - apply NoDup_cons in Hnd as [Hx Hnd]. apply elem_of_cons in Hin as [->|Hin].
    + rewrite Hkeep by done. by rewrite lookup_insert_eq.
    + by apply IH.
Qed.

Example fetchOffsets_retriable_top_level :
  fetchOffsets exErrorForCode exIsRetriable exErrorsNew exGroup
    (Some {[ "t"%string := [0; 1] ]}) exResetOffset (inr exFetchResponse) true
  = (None,
     [EvOffsetFetchRequest
        (mkOffsetFetchRequest "grp" [mkOffsetFetchRequestTopic "t" [0; 1]]);
      EvMaybeAssignPartitions
        (Some {[ "t"%string := {[ 0 := mkOffset 42 7; 1 := mkOffset (-2) (-1) ]} ]})
        assignWithoutInvalidating;
      EvResetAndLoadOffsets]).
Proof. by vm_compute. Qed.

(** C7.  For a response [resp] to the OffsetFetch request:
    - below version 2 the error code inspected first is that of the first
      partition of the first topic (when there is one), from version 2 on
      it is the response's own;
    - when that code stands for an error that is not retriable, the error
      is returned and no offsets are handed to the fetch pipeline;
    - otherwise (no error, or a retriable one) the partitions are decoded:
      if none reports an error code, the offsets handed over are those of
      the specification ([specTopics]: the reset offset for a stored -1,
      else the stored offset with the leader epoch from version 5 on and
      -1 before), and the call returns nil, or "stale group" when the
      pipeline refuses them; if some partition reports an error code, the
      call returns the error for the first such code and hands over
      nothing. *)
Theorem fetchOffsets_decodes {error : Type} (ErrorForCode : Z -> option error)
    (IsRetriable : error -> bool) (errorsNew : string -> error)
    g newAssigned resetOffset resp assigned :
  (forall rTopic rts rPartition rps,
      ofVersion resp < 2 ->
      ofTopics resp = rTopic :: rts ->
      ofPartitions rTopic = rPartition :: rps ->
      fetchErrCode resp = ofPartErrorCode rPartition)
  /\ (2 <= ofVersion resp -> fetchErrCode resp = ofErrorCode resp)
  /\ (forall err,
        ErrorForCode (fetchErrCode resp) = Some err ->
        IsRetriable err = false ->
        (fetchOffsets ErrorForCode IsRetriable errorsNew g newAssigned resetOffset
           (inr resp) assigned).1 = Some err
        /\ filter (fun e => isMaybeAssign e = true)
             (fetchOffsets ErrorForCode IsRetriable errorsNew g newAssigned resetOffset
                (inr resp) assigned).2 = [])
  /\ ((forall err,
         ErrorForCode (fetchErrCode resp) = Some err -> IsRetriable err = true) ->
      (noPartitionError (ofTopics resp) ->
       filter (fun e => isMaybeAssign e = true)
         (fetchOffsets ErrorForCode IsRetriable errorsNew g newAssigned resetOffset
            (inr resp) assigned).2
       = [EvMaybeAssignPartitions
            (Some (specTopics (ofVersion resp) resetOffset (ofTopics resp)))
            (if cooperative g then assignWithoutInvalidating else assignInvalidateAll)]
       /\ (fetchOffsets ErrorForCode IsRetriable errorsNew g newAssigned resetOffset
             (inr resp) assigned).1
          = if assigned then None else Some (errorsNew "stale group"))
      /\ (forall rPartition,
            firstPartitionError (ofTopics resp) rPartition ->
            (fetchOffsets ErrorForCode IsRetriable errorsNew g newAssigned resetOffset
               (inr resp) assigned).1
            = ErrorForCode (ofPartErrorCode rPartition)
            /\ filter (fun e => isMaybeAssign e = true)
                 (fetchOffsets ErrorForCode IsRetriable errorsNew g newAssigned
                    resetOffset (inr resp) assigned).2 = []))
  /\ (forall rPartition,
        (ofOffset rPartition = -1 ->
         specOffset (ofVersion resp) resetOffset rPartition = resetOffset)
        /\ (ofOffset rPartition ≠ -1 -> 5 <= ofVersion resp ->
            specOffset (ofVersion resp) resetOffset rPartition
            = mkOffset (ofOffset rPartition) (ofLeaderEpoch rPartition))
        /\ (ofOffset rPartition ≠ -1 -> ofVersion resp < 5 ->
            specOffset (ofVersion resp) resetOffset rPartition
            = mkOffset (ofOffset rPartition) (-1))).
Proof.
  split; [|split; [|split; [|split]]].
  - intros rTopic rts rPartition rps Hv Hts Hps. unfold fetchErrCode.
    destruct (Z.ltb_spec (ofVersion resp) 2); [|lia]. by rewrite Hts, Hps.
  - intros Hv. unfold fetchErrCode.
    destruct (Z.ltb_spec (ofVersion resp) 2); [lia|done].
  - intros err Herr Hret. unfold fetchOffsets. rewrite Herr, Hret. simpl. done.
  - intros Htol.
    assert (Hdec : forall r,
      match ErrorForCode (fetchErrCode resp) with
      | Some err => if negb (IsRetriable err) then (Some err, [EvOffsetFetchRequest
            (mkOffsetFetchRequest (id g)
               ((fun tp => mkOffsetFetchRequestTopic tp.1 tp.2)
                  <$> map_to_list (default ∅ newAssigned)))]) else r
      | None => r
      end = r).
    { intros r. destruct (ErrorForCode (fetchErrCode resp)) as [err|] eqn:Herr; [|done].
      by rewrite (Htol err). }
    split.
    + intros Hok. unfold fetchOffsets. rewrite Hdec.
      rewrite (fetchTopics_ok ErrorForCode) by done.
      fold (specTopics (ofVersion resp) resetOffset (ofTopics resp)).
      destruct assigned; simpl; done.
    + intros rPartition Hfirst. unfold fetchOffsets. rewrite Hdec.
      rewrite (fetchTopics_error ErrorForCode _ _ _ _ rPartition) by done. done.
  - intros rPartition. unfold specOffset. split; [|split].
    + intros ->. done.
    + intros Hne Hv. rewrite decide_False by done. by rewrite decide_True.
    + intros Hne Hv. rewrite decide_False by done. by rewrite decide_False by lia.
Qed.

Lemma fetchOffsets_decodes_witness :
  (forall err,
      exErrorForCode (fetchErrCode exFetchResponse) = Some err ->
      exIsRetriable err = true)
  /\ noPartitionError (ofTopics exFetchResponse)
  /\ filter (fun e => isMaybeAssign e = true)
       (fetchOffsets exErrorForCode exIsRetriable exErrorsNew exGroup
          (Some {[ "t"%string := [0; 1] ]}) exResetOffset (inr exFetchResponse) true).2
     = [EvMaybeAssignPartitions
          (Some (specTopics (ofVersion exFetchResponse) exResetOffset
                   (ofTopics exFetchResponse)))
          (if cooperative exGroup then assignWithoutInvalidating
           else assignInvalidateAll)]
  /\ (fetchOffsets exErrorForCode exIsRetriable exErrorsNew exGroup
        (Some {[ "t"%string := [0; 1] ]}) exResetOffset (inr exFetchResponse) true).1
     = None.
Proof.
  assert (Htol : forall err,
             exErrorForCode (fetchErrCode exFetchResponse) = Some err ->
             exIsRetriable err = true).
  { intros err Herr. vm_compute in Herr. by simplify_eq. }
  assert (Hok : noPartitionError (ofTopics exFetchResponse)).
  { repeat constructor. }
  split; [exact Htol|]. split; [exact Hok|].
  apply (proj1 (proj1 (proj2 (proj2 (proj2
           (fetchOffsets_decodes exErrorForCode exIsRetriable exErrorsNew exGroup
              (Some {[ "t"%string := [0; 1] ]}) exResetOffset exFetchResponse true))))
           Htol) Hok).
Defined.

(** ** [findNewAssignments] and [reSeen] *)

Example findNewAssignments_first_update :
  (findNewAssignments exMatchString exRegex exMetadata).2
  = [EvMatchString "^foo" "t"; EvMatchString "^t" "t"; EvManage; EvRejoin]
  /\ reSeen (findNewAssignments exMatchString exRegex exMetadata).1 = {[ "t"%string ]}.
Proof. by vm_compute. Qed.

Lemma testsOn_app topic ev1 ev2 :
  testsOn topic (ev1 ++ ev2) = testsOn topic ev1 ++ testsOn topic ev2.
Proof. apply filter_app. Qed.

(** The loop over the expressions tests a prefix of them, in order, and
    stops at the first that matches. *)
Lemma matchTopics_prefix MatchString reTopics topic :
  exists tested rest,
    reTopics = tested ++ rest
    /\ (matchTopics MatchString reTopics topic).2
       = (fun re => EvMatchString re topic) <$> tested
    /\ ((matchTopics MatchString reTopics topic).1 = true ->
        exists pre re, tested = pre ++ [re] /\ MatchString re topic = true
                       /\ Forall (fun r => MatchString r topic = false) pre)
    /\ ((matchTopics MatchString reTopics topic).1 = false ->
        rest = [] /\ Forall (fun r => MatchString r topic = false) tested).
Proof.
  induction reTopics as [|re res IH]; simpl.
  - exists [], []. repeat split; try done; try constructor.
  - destruct (MatchString re topic) eqn:Hm; simpl.
    + exists [re], res. split; [done|]. split; [done|]. split; [|done].
      intros _. exists [], re. split; [done|]. split; [done|]. constructor.
    + destruct IH as (tested & rest & -> & Hev & Htrue & Hfalse).
      destruct (matchTopics MatchString (tested ++ rest) topic) as [useTopic ev].
      simpl in *. exists (re :: tested), rest. split; [done|].
      split; [by rewrite Hev|]. split.
      * intros Hu. destruct (Htrue Hu) as (pre & re' & -> & Hm' & Hpre).
        exists (re :: pre), re'. split; [done|]. split; [done|]. by constructor.
      * intros Hu. destruct (Hfalse Hu) as [-> Hall]. split; [done|]. by constructor.
Qed.

Lemma matchTopics_testsOn MatchString reTopics topic t :
  testsOn t (matchTopics MatchString reTopics topic).2
  = if decide (topic = t) then (matchTopics MatchString reTopics topic).2 else [].
Proof.
  induction reTopics as [|re res IH]; simpl.
  - by destruct (decide _).
  - destruct (MatchString re topic); simpl.
    + unfold testsOn. rewrite filter_cons. simpl.
      destruct (decide (topic = t)) as [Heq|Hne].
      * rewrite decide_True by (by apply bool_decide_eq_true_2). done.
      * rewrite decide_False; [done|]. by rewrite bool_decide_eq_false_2.
    + destruct (matchTopics MatchString res topic) as [b ev]. simpl in *.
      unfold testsOn in *. rewrite filter_cons. simpl.
      destruct (decide (topic = t)) as [Heq|Hne].
      * rewrite decide_True by (by apply bool_decide_eq_true_2). by rewrite IH.
      * rewrite decide_False; [done|]. by rewrite bool_decide_eq_false_2.
Qed.

#[local] Arguments findTopic : simpl never.

(** A topic already in [reSeen] is not tested by the loop body, and stays
    in [reSeen]. *)
Lemma findTopic_seen MatchString g st entry t :
  t ∈ fsReSeen st ->
  testsOn t (fsEvents (findTopic MatchString g st entry)) = testsOn t (fsEvents st)
  /\ t ∈ fsReSeen (findTopic MatchString g st entry).
Proof.
  intros Hseen. destruct entry as [topic tp]. unfold findTopic.
  destruct (using_ g !! topic) as [used|].
  { by destruct (_ >? 0). }
  destruct (regexTopics g) eqn:Hre.
  - destruct (decide (topic ∈ fsReSeen st)) as [Hin|Hnin]; simpl.
    + by rewrite app_nil_r.
    + assert (topic ≠ t) as Hne by (intros ->; done).
      pose proof (matchTopics_testsOn MatchString (topics g) topic t) as Hev.
      rewrite decide_False in Hev by done.
      destruct (matchTopics MatchString (topics g) topic) as [useTopic ev]. simpl in *.
      destruct useTopic; [destruct (isInternal tp)|]; simpl;
        rewrite testsOn_app, Hev, app_nil_r; (split; [done|set_solver]).
  - simpl. destruct (bool_decide (topic ∈ topics g)); simpl; by rewrite app_nil_r.
Qed.

Lemma findTopics_seen MatchString g st metadata t :
  t ∈ fsReSeen st ->
  testsOn t (fsEvents (foldl (findTopic MatchString g) st metadata))
    = testsOn t (fsEvents st)
  /\ t ∈ fsReSeen (foldl (findTopic MatchString g) st metadata).
Proof.
  revert st. induction metadata as [|entry metadata IH]; intros st Hseen; simpl; [done|].
  destruct (findTopic_seen MatchString g st entry t Hseen) as [Hev Hin].
  destruct (IH _ Hin) as [Hev' Hin']. split; [congruence|done].
Qed.

(** A topic that is not the one the loop body looks at is not tested. *)
Lemma findTopic_other MatchString g st topic tp t :
  topic ≠ t ->
  testsOn t (fsEvents (findTopic MatchString g st (topic, tp))) = testsOn t (fsEvents st)
  /\ (t ∉ fsReSeen st -> t ∉ fsReSeen (findTopic MatchString g st (topic, tp))).
Proof.
  intros Hne. unfold findTopic.
  destruct (using_ g !! topic) as [used|].
  { by destruct (_ >? 0). }
  destruct (regexTopics g) eqn:Hre.
  - destruct (decide (topic ∈ fsReSeen st)) as [Hin|Hnin]; simpl.
    + by rewrite app_nil_r.
    + pose proof (matchTopics_testsOn MatchString (topics g) topic t) as Hev.
      rewrite decide_False in Hev by done.
      destruct (matchTopics MatchString (topics g) topic) as [useTopic ev]. simpl in *.
      destruct useTopic; [destruct (isInternal tp)|]; simpl;
        rewrite testsOn_app, Hev, app_nil_r; (split; [done|set_solver]).
  - simpl. destruct (bool_decide (topic ∈ topics g)); simpl; by rewrite app_nil_r.
Qed.

(** The first time the loop body looks at a topic that is neither used nor
    seen, it runs the loop over the expressions and marks the topic. *)
Lemma findTopic_first MatchString g st tp t :
  regexTopics g = true -> using_ g !! t = None -> t ∉ fsReSeen st ->
  testsOn t (fsEvents (findTopic MatchString g st (t, tp)))
    = testsOn t (fsEvents st) ++ (matchTopics MatchString (topics g) t).2
  /\ t ∈ fsReSeen (findTopic MatchString g st (t, tp)).
Proof.
  intros Hre Hus Hnin. unfold findTopic. rewrite Hus, Hre.
  rewrite decide_False by done.
  pose proof (matchTopics_testsOn MatchString (topics g) t t) as Hev.
  rewrite decide_True in Hev by done.
  destruct (matchTopics MatchString (topics g) t) as [useTopic ev]. simpl in *.
  destruct useTopic; [destruct (isInternal tp)|]; simpl;
    rewrite testsOn_app, Hev; (split; [done|set_solver]).
Qed.

Lemma findTopics_first MatchString g st metadata t :
  regexTopics g = true -> using_ g !! t = None -> t ∉ fsReSeen st ->
  t ∈ metadata.*1 ->
  testsOn t (fsEvents (foldl (findTopic MatchString g) st metadata))
    = testsOn t (fsEvents st) ++ (matchTopics MatchString (topics g) t).2
  /\ t ∈ fsReSeen (foldl (findTopic MatchString g) st metadata).
Proof.
  intros Hre Hus. revert st.
  induction metadata as [|[topic tp] metadata IH]; intros st Hnin Hin; simpl in *.
  - by apply elem_of_nil in Hin.
  - destruct (decide (topic = t)) as [->|Hne].
    + destruct (findTopic_first MatchString g st tp t Hre Hus Hnin) as [Hev Hseen].
      destruct (findTopics_seen MatchString g _ metadata t Hseen) as [Hev' Hseen'].
      split; [congruence|done].
    + destruct (findTopic_other MatchString g st topic tp t Hne) as [Hev Hstill].
      apply elem_of_cons in Hin as [?|Hin]; [congruence|].
      destruct (IH _ (Hstill Hnin) Hin) as [Hev' Hseen']. split; [congruence|done].
Qed.

(** The events and the [reSeen] of a call are those of its loop, followed
    by the events of starting to manage and of rejoining. *)
Lemma findNewAssignments_loop MatchString g metadata t :
  testsOn t (findNewAssignments MatchString g metadata).2
    = testsOn t (fsEvents (foldl (findTopic MatchString g)
                                 (mkFindState (reSeen g) ∅ 0 []) metadata))
  /\ reSeen (findNewAssignments MatchString g metadata).1
     = fsReSeen (foldl (findTopic MatchString g)
                       (mkFindState (reSeen g) ∅ 0 []) metadata).
Proof.
  unfold findNewAssignments.
  destruct (decide (size (fsToChange _) = 0%nat)); simpl; [done|].
  destruct (bool_decide _); simpl;
    destruct (_ || _); simpl; rewrite ?testsOn_app; simpl;
    rewrite ?app_nil_r; done.
Qed.

Lemma findNewAssignments_seen MatchString g metadata t :
  t ∈ reSeen g ->
  testsOn t (findNewAssignments MatchString g metadata).2 = []
  /\ t ∈ reSeen (findNewAssignments MatchString g metadata).1.
Proof.
  intros Hseen. destruct (findNewAssignments_loop MatchString g metadata t) as [-> ->].
  by apply (findTopics_seen MatchString g (mkFindState (reSeen g) ∅ 0 [])).
Qed.

Lemma findNewAssignmentsAll_seen MatchString g updates t :
  t ∈ reSeen g ->
  testsOn t (findNewAssignmentsAll MatchString g updates).2 = []
  /\ t ∈ reSeen (findNewAssignmentsAll MatchString g updates).1.
Proof.
  unfold findNewAssignmentsAll.
  assert (Hgen : forall st : groupConsumer * list event,
             t ∈ reSeen st.1 -> testsOn t st.2 = [] ->
             testsOn t (foldl (fun st metadata =>
                          let '(g1, ev) := findNewAssignments MatchString st.1 metadata in
                          (g1, st.2 ++ ev)) st updates).2 = []
             /\ t ∈ reSeen (foldl (fun st metadata =>
                          let '(g1, ev) := findNewAssignments MatchString st.1 metadata in
                          (g1, st.2 ++ ev)) st updates).1).
  { induction updates as [|metadata updates IH]; intros st Hin Hev; simpl; [done|].
    destruct (findNewAssignments_seen MatchString st.1 metadata t Hin) as [Hev1 Hin1].
    destruct (findNewAssignments MatchString st.1 metadata) as [g1 ev1]. simpl in *.
    apply IH; simpl; [done|]. by rewrite testsOn_app, Hev, Hev1. }
  intros Hseen. by apply Hgen.
Qed.

(** The topic [x] matches none of the expressions (C9): all three are
    tested, the topic is not used, and yet it is in [reSeen] after the
    call, so that the next update does not test it. *)
Lemma findNewAssignments_marks_unmatched :
  (matchTopics exMatchString (topics exRegex) "x").1 = false
  /\ (findNewAssignments exMatchString exRegex exUnmatched).2
     = [EvMatchString "^foo" "x"; EvMatchString "^t" "x"; EvMatchString "^bar" "x"]
  /\ using_ (findNewAssignments exMatchString exRegex exUnmatched).1 = ∅
  /\ reSeen (findNewAssignments exMatchString exRegex exUnmatched).1 = {[ "x"%string ]}
  /\ (findNewAssignments exMatchString
        (findNewAssignments exMatchString exRegex exUnmatched).1 exUnmatched).2 = [].
Proof. by vm_compute. Qed.

(** C9, as the code has it.  In regex mode, a call that meets a metadata
    topic which is neither in use nor in [reSeen] runs the loop over the
    configured expressions on it once: a prefix of the expressions is
    tested in order, ending with the first that matches if any does.  The
    topic is in [reSeen] after the call whether or not an expression
    matched, and no later call, in any sequence of metadata updates, tests
    it again or removes it from [reSeen]. *)
Theorem findNewAssignments_reSeen MatchString g metadata t :
  regexTopics g = true ->
  using_ g !! t = None ->
  t ∉ reSeen g ->
  t ∈ metadata.*1 ->
  testsOn t (findNewAssignments MatchString g metadata).2
    = (matchTopics MatchString (topics g) t).2
  /\ (exists tested rest,
        topics g = tested ++ rest
        /\ (matchTopics MatchString (topics g) t).2
           = (fun re => EvMatchString re t) <$> tested
        /\ ((matchTopics MatchString (topics g) t).1 = true ->
            exists pre re, tested = pre ++ [re] /\ MatchString re t = true
                           /\ Forall (fun r => MatchString r t = false) pre)
        /\ ((matchTopics MatchString (topics g) t).1 = false ->
            rest = [] /\ Forall (fun r => MatchString r t = false) tested))
  /\ t ∈ reSeen (findNewAssignments MatchString g metadata).1
  /\ (forall updates,
        testsOn t (findNewAssignmentsAll MatchString
                     (findNewAssignments MatchString g metadata).1 updates).2 = []
        /\ t ∈ reSeen (findNewAssignmentsAll MatchString
                         (findNewAssignments MatchString g metadata).1 updates).1).
Proof.
  intros Hre Hus Hnin Hin.
  destruct (findNewAssignments_loop MatchString g metadata t) as [Hev Hseen].
  destruct (findTopics_first MatchString g (mkFindState (reSeen g) ∅ 0 []) metadata t
              Hre Hus Hnin Hin) as [Hev' Hseen'].
  simpl in Hev'. rewrite <- Hseen in Hseen'.
  split; [by rewrite Hev, Hev'|]. split; [apply matchTopics_prefix|].
  split; [done|]. intros updates. by apply findNewAssignmentsAll_seen.
Qed.

Lemma findNewAssignments_reSeen_witness :
  regexTopics exRegex = true
  /\ using_ exRegex !! "t"%string = None
  /\ ("t"%string ∉ reSeen exRegex)
  /\ ("t"%string ∈ exMetadata.*1)
  /\ testsOn "t" (findNewAssignments exMatchString exRegex exMetadata).2
     = (matchTopics exMatchString (topics exRegex) "t").2
  /\ "t"%string ∈ reSeen (findNewAssignments exMatchString exRegex exMetadata).1.
Proof.
  assert (H3 : "t"%string ∉ reSeen exRegex) by (by vm_compute).
  assert (H4 : "t"%string ∈ exMetadata.*1) by (simpl; by left).
  split; [reflexivity|]. split; [reflexivity|]. split; [exact H3|]. split; [exact H4|].
  split; [ apply (findNewAssignments_reSeen exMatchString exRegex exMetadata "t"
                    eq_refl eq_refl H3 H4)
         | apply (proj2 (proj2 (findNewAssignments_reSeen exMatchString exRegex exMetadata
                                  "t" eq_refl eq_refl H3 H4))) ].
Defined.

(** ** The commit pipeline *)

Section PipelineFacts.

Context {error : Type}.

Implicit Types (w : world error) (tr : list (commitEvent error)).

(** Case analysis on a step: the three ways through [commit], the three
    through [commitTxn], the eight steps of a goroutine, a cancellation,
    and a change by another method. *)
Ltac step_cases H :=
  let unc := fresh "unc" in
  let Hlk := fresh "Hlk" in
  let Hts := fresh "Hts" in
  destruct H as [? unc | ? ? unc | ? c0 t0 ? Hlk Hts | ? c0 | ? ? ? ?];
  [ unfold commit in *; destruct (decide (goLen unc = 0%nat));
      [| unfold installCommit, spawn in *; destruct (commitCancel (wGroup _)) ]
  | unfold commitTxn in *; destruct (decide (goLen unc = 0%nat));
      [| unfold installCommit, spawn in *; destruct (commitCancel (wGroup _)) ]
  | destruct Hts as [Hst Hprior | req Hst Hreq Htopics | req Hst Hreq Htopics
                    | err Hst | resp Hst Hkind | resp g' req' resp' Hst Happ
                    | resp Hst | Hst];
      unfold setTask in *
  | | ];
  cbn [wGroup wCancelled wClosed wNext wTasks wTrace
       tPriorDone tUncommitted tMemberID tReq tStage set_stage set_req
       commitDone commitCancel set_commit] in *.

Lemma step_fresh w w' :
  inv w -> step w w' ->
  forall c t, wTasks w' !! c = Some t -> (c < wNext w')%nat.
Proof.
  intros Hinv Hstep c t Hc. pose proof (inv_fresh w Hinv) as Hfresh.
  step_cases Hstep.
  all: try (apply Hfresh in Hc; lia).
  all: apply lookup_insert_Some in Hc as [[<- _]|[_ Hc]];
         [ try lia; eapply Hfresh; eauto | apply Hfresh in Hc; lia ].
Qed.


Lemma updateCommitted_handles g req resp :
  commitDone (updateCommitted g req resp).1.1 = commitDone g
  /\ commitCancel (updateCommitted g req resp).1.1 = commitCancel g.
Proof.
  unfold updateCommitted. destruct (bool_decide _); [done|].
  destruct (uncommitted g); [|done]. destruct (bool_decide _); [done|].
  by destruct (commitTopics _ _ _) as [[? ?] ?].
Qed.

Lemma updateCommittedTxn_handles g req resp :
  commitDone (updateCommittedTxn g req resp).1.1 = commitDone g
  /\ commitCancel (updateCommittedTxn g req resp).1.1 = commitCancel g.
Proof.
  unfold updateCommittedTxn.
  destruct (uncommitted g); [|done]. destruct (bool_decide _); [done|].
  by destruct (commitTopics _ _ _) as [[? ?] ?].
Qed.

Lemma applyUpdate_handles g r resp g' r' resp' :
  applyUpdate g r resp = (g', r', resp') ->
  commitDone g' = commitDone g /\ commitCancel g' = commitCancel g.
Proof.
  unfold applyUpdate. destruct r as [req|req], resp as [rs|rs]; intros Heq.
  - pose proof (updateCommitted_handles g req rs) as H.
    destruct (updateCommitted g req rs) as [[? ?] ?]. simpl in *. by simplify_eq.
  - by simplify_eq.
  - by simplify_eq.
  - pose proof (updateCommittedTxn_handles g req rs) as H.
    destruct (updateCommittedTxn g req rs) as [[? ?] ?]. simpl in *. by simplify_eq.
Qed.

Lemma step_handle w w' :
  inv w -> step w w' ->
  forall d, commitDone (wGroup w') = Some d -> is_Some (wTasks w' !! d).
Proof.
  intros Hinv Hstep d Hd. pose proof (inv_handle w Hinv) as Hhandle.
  step_cases Hstep.
  all: try (by apply Hhandle).
  all: try (simplify_eq; rewrite lookup_insert_eq; by eexists).
  all: try (apply lookup_insert_is_Some'; right; by apply Hhandle).
  - apply lookup_insert_is_Some'; right. apply Hhandle.
    apply applyUpdate_handles in Happ as [<- _]. done.
  - apply Hhandle. congruence.
Qed.


Lemma buildTopics_nonempty memberID (unc : gmap string (gmap Z EpochOffset)) :
  unc <> ∅ -> buildTopics memberID unc <> [].
Proof.
  intros Hne Hnil. unfold buildTopics in Hnil.
  apply fmap_nil_inv in Hnil. by apply map_to_list_empty_iff in Hnil.
Qed.

Lemma requestTopics_withTopics r ts :
  requestTopics (withTopics r ts) = requestTopics r ++ ts.
Proof. by destruct r. Qed.

Lemma step_prior w w' :
  inv w -> step w w' ->
  forall c t m,
    wTasks w' !! c = Some t -> tPriorDone t = Some m ->
    (m < c)%nat /\ is_Some (wTasks w' !! m).
Proof.
  intros Hinv Hstep c t m Hc Hm.
  pose proof (inv_prior w Hinv) as Hprior0.
  pose proof (inv_handle w Hinv) as Hhandle.
  pose proof (inv_fresh w Hinv) as Hfresh.
  step_cases Hstep.
  all: try (by eapply Hprior0).
  all: apply lookup_insert_Some in Hc as [[<- <-]|[Hne Hc]];
    cbn [tPriorDone set_stage set_req] in *;
    rewrite lookup_insert_is_Some';
    try (destruct (Hprior0 _ _ _ Hc Hm); by auto);
    try (destruct (Hprior0 _ _ _ Hlk Hm); by auto).
  all: destruct (Hhandle _ Hm) as [tm Htm]; split; [by eapply Hfresh|right; by eexists].
Qed.

Lemma step_closed w w' :
  inv w -> step w w' ->
  forall c, c ∈ wClosed w' ->
            exists t, wTasks w' !! c = Some t /\ tStage t = Finished.
Proof.
  intros Hinv Hstep c Hc.
  pose proof (inv_closed w Hinv) as Hclosed.
  pose proof (inv_fresh w Hinv) as Hfresh.
  step_cases Hstep.
  all: try (by apply Hclosed).
  all: try (destruct (Hclosed c Hc) as (tc & Htc & Hfin);
            destruct (decide (wNext w = c)) as [<-|Hne];
            [ apply Hfresh in Htc; lia
            | exists tc; by rewrite lookup_insert_ne by done ]).
  all: try (destruct (Hclosed c Hc) as (tc & Htc & Hfin);
            destruct (decide (c0 = c)) as [->|Hne];
            [ simplify_eq; congruence
            | exists tc; by rewrite lookup_insert_ne by done ]).
  apply elem_of_union in Hc as [Hc|Hc].
  - apply elem_of_singleton in Hc as ->. eexists. by rewrite lookup_insert_eq.
  - destruct (Hclosed c Hc) as (tc & Htc & Hfin).
    destruct (decide (c0 = c)) as [->|Hne]; [simplify_eq; congruence|].
    exists tc. by rewrite lookup_insert_ne by done.
Qed.

Lemma step_await w w' :
  inv w -> step w w' ->
  forall c t m,
    wTasks w' !! c = Some t -> tStage t <> AwaitPrior -> tPriorDone t = Some m ->
    m ∈ wClosed w'.
Proof.
  intros Hinv Hstep c t m Hc Hs Hm.
  pose proof (inv_await w Hinv) as Hawait.
  step_cases Hstep.
  all: try (by eapply Hawait).
  all: apply lookup_insert_Some in Hc as [[<- <-]|[Hne Hc]];
    cbn [tPriorDone tStage set_stage set_req] in *;
    try done;
    try (by eapply Hawait);
    try (by apply Hprior);
    try (eapply Hawait; [exact Hlk | congruence | done]).
  all: apply elem_of_union; right.
  - eapply Hawait; [exact Hlk | congruence | done].
  - by eapply Hawait.
Qed.

Lemma step_nonempty w w' :
  inv w -> step w w' ->
  forall c t, wTasks w' !! c = Some t -> tUncommitted t <> ∅ /\ tStage t <> Panicked.
Proof.
  intros Hinv Hstep c t Hc.
  pose proof (inv_nonempty w Hinv) as Hnonempty.
  assert (Hunc : forall unc : option (gmap string (gmap Z EpochOffset)),
             goLen unc <> 0%nat -> default ∅ unc <> ∅).
  { intros [m|]; simpl; [|done]. intros Hsize ->. by rewrite map_size_empty in Hsize. }
  step_cases Hstep.
  all: try (by eapply Hnonempty).
  all: apply lookup_insert_Some in Hc as [[<- <-]|[Hne Hc]];
    cbn [tUncommitted tStage set_stage set_req] in *;
    try (by eapply Hnonempty);
    try (split; [by apply Hunc|done]);
    try (destruct (Hnonempty _ _ Hlk); split; [done|congruence]).
  destruct (Hnonempty _ _ Hlk) as [Hne _]. exfalso.
  subst req. rewrite requestTopics_withTopics in Htopics.
  apply app_eq_nil in Htopics as [_ Hb]. by apply buildTopics_nonempty in Hb.
Qed.


Lemma step_own w w' :
  inv w -> step w w' ->
  forall c e, e ∈ wTrace w' -> ownEvent c e = true -> (c < wNext w')%nat.
Proof.
  intros Hinv Hstep c e He Hown.
  pose proof (inv_own w Hinv) as Hown0.
  pose proof (inv_fresh w Hinv) as Hfresh.
  step_cases Hstep.
  all: rewrite ?app_nil_r in He; try (pose proof (Hown0 _ _ He Hown); lia).
  all: apply elem_of_app in He as [He|He];
    [ specialize (Hown0 _ _ He Hown); lia |].
  all: repeat (apply elem_of_cons in He as [->|He]); try (by apply elem_of_nil in He);
    cbn [ownEvent] in Hown; try done;
    apply bool_decide_eq_true_1 in Hown; subst; try lia;
    by eapply Hfresh.
Qed.

Lemma step_close w w' :
  inv w -> step w w' ->
  forall c, c ∈ wClosed w' <-> exists e, e ∈ wTrace w' /\ isClose c e = true.
Proof.
  intros Hinv Hstep c.
  pose proof (inv_close w Hinv c) as Hclose.
  step_cases Hstep.
  all: rewrite ?app_nil_r; try done.
  all: rewrite Hclose || rewrite elem_of_union, Hclose.
  all: split;
    [ intros Hl; repeat (destruct Hl as [Hl|Hl]);
      try (destruct Hl as (e0 & He0 & Hc0); exists e0; split; [|done];
           apply elem_of_app; by left);
      try (apply elem_of_singleton in Hl as ->; eexists; split;
           [ apply elem_of_app; right; apply elem_of_cons; right;
             apply list_elem_of_singleton; reflexivity
           | cbn [isClose]; by apply bool_decide_eq_true_2 ])
    | intros (e0 & He0 & Hc0);
      apply elem_of_app in He0 as [He0|He0];
      [ try right; by exists e0 |];
      repeat (apply elem_of_cons in He0 as [->|He0]);
      try (by apply elem_of_nil in He0); cbn [isClose] in Hc0; try done;
      apply bool_decide_eq_true_1 in Hc0; subst; left; by apply elem_of_singleton ].
Qed.


Lemma onDoneCount_app c tr1 tr2 :
  onDoneCount c (tr1 ++ tr2) = (onDoneCount c tr1 + onDoneCount c tr2)%nat.
Proof. unfold onDoneCount. by rewrite filter_app, length_app. Qed.

Lemma requestCount_app c tr1 tr2 :
  requestCount c (tr1 ++ tr2) = (requestCount c tr1 + requestCount c tr2)%nat.
Proof. unfold requestCount. by rewrite filter_app, length_app. Qed.

Lemma onDoneCount_one c (e : commitEvent error) :
  onDoneCount c [e] = if isOnDone c e then 1%nat else 0%nat.
Proof.
  unfold onDoneCount. rewrite filter_cons, filter_nil.
  destruct (isOnDone c e); by simpl.
Qed.

Lemma requestCount_one c (e : commitEvent error) :
  requestCount c [e] = if isRequest c e then 1%nat else 0%nat.
Proof.
  unfold requestCount. rewrite filter_cons, filter_nil.
  destruct (isRequest c e); by simpl.
Qed.

(** Closing the counting cases: look the call up in the new goroutine
    table, compare it with the acting call, and compute. *)
Ltac count_case Hfresh Hlk :=
  rewrite ?lookup_insert; repeat case_decide; subst;
  rewrite ?Hlk; cbn [tStage set_stage set_req doneCalled requestIssued];
  repeat (case_match; simplify_eq); cbn [doneCalled requestIssued] in *;
  try done; try lia;
  try (match goal with
       | H : wTasks _ !! _ = Some _ |- _ => apply Hfresh in H; lia
       end).

Lemma step_done w w' :
  inv w -> step w w' ->
  forall c, onDoneCount c (wTrace w') = doneExpected w' c.
Proof.
  intros Hinv Hstep c.
  pose proof (inv_done w Hinv c) as Hd.
  pose proof (inv_fresh w Hinv) as Hfresh.
  unfold doneExpected in *.
  step_cases Hstep.
  all: rewrite ?app_nil_r, ?onDoneCount_app, ?onDoneCount_one, ?Hd;
    try (replace (onDoneCount c [CevCancel c0; CevClose c0]) with 0%nat by done);
    cbn [isOnDone].
  all: try (rewrite (bool_decide_ext (wNext w = c) (c = wNext w)) by naive_solver).
  all: try (rewrite (bool_decide_ext (c0 = c) (c = c0)) by naive_solver).
  all: try case_bool_decide; subst; try rewrite Hlk; rewrite ?Hst.
  all: count_case Hfresh Hlk.
  all: rewrite Hst in *; cbn [doneCalled requestIssued] in *; done.
Qed.


Lemma step_request w w' :
  inv w -> step w w' ->
  forall c, requestCount c (wTrace w') = requestExpected w' c.
Proof.
  intros Hinv Hstep c.
  pose proof (inv_request w Hinv c) as Hd.
  pose proof (inv_fresh w Hinv) as Hfresh.
  unfold requestExpected in *.
  step_cases Hstep.
  all: rewrite ?app_nil_r, ?requestCount_app, ?requestCount_one, ?Hd;
    try (replace (requestCount c [CevCancel c0; CevClose c0]) with 0%nat by done);
    cbn [isRequest].
  all: try (rewrite (bool_decide_ext (c0 = c) (c = c0)) by naive_solver).
  all: try case_bool_decide; subst; try rewrite Hlk; rewrite ?Hst.
  all: count_case Hfresh Hlk.
  all: rewrite Hst in *; cbn [doneCalled requestIssued] in *; done.
Qed.


Lemma snoc_split {A} (tr pre post : list A) e e' :
  tr ++ [e] = pre ++ e' :: post ->
  (post = [] /\ pre = tr /\ e' = e)
  \/ (exists post', post = post' ++ [e] /\ tr = pre ++ e' :: post').
Proof.
  destruct post as [|x post _] using rev_ind; intros Heq.
  - left. apply app_inj_tail in Heq as [-> ->]. done.
  - right. exists post. rewrite app_comm_cons, app_assoc in Heq.
    apply app_inj_tail in Heq as [-> ->]. done.
Qed.

Lemma ordered_snoc prior tr e :
  ordered prior tr ->
  (forall c m, prior c = Some m ->
               isRequest c e = true \/ isUpdate c e = true ->
               exists x, x ∈ tr /\ isClose m x = true) ->
  ordered prior (tr ++ [e]).
Proof.
  intros Hord Hnew pre e0 post c m Heq Hp He0.
  apply snoc_split in Heq as [(-> & -> & ->) | (post' & -> & ->)].
  - by eapply Hnew.
  - by eapply Hord.
Qed.

Lemma ordered_ext prior prior' tr :
  ordered prior tr ->
  (forall c m e, prior' c = Some m -> e ∈ tr ->
                 isRequest c e = true \/ isUpdate c e = true -> prior c = Some m) ->
  ordered prior' tr.
Proof.
  intros Hord Hext pre e post c m Heq Hp He. eapply Hord; [done| |done].
  eapply Hext; [done| |done]. rewrite Heq. apply elem_of_app. right. by left.
Qed.

Lemma settled_snoc tr e :
  settled tr ->
  (forall m, ownEvent m e = true -> forall x, x ∈ tr -> isClose m x = false) ->
  settled (tr ++ [e]).
Proof.
  intros Hset Hnew pre e0 post m Heq He0.
  apply snoc_split in Heq as [(-> & -> & ->) | (post' & -> & ->)].
  - by apply Hnew.
  - by eapply Hset.
Qed.

Lemma request_or_update_own c (e : commitEvent error) :
  isRequest c e = true \/ isUpdate c e = true -> ownEvent c e = true.
Proof. destruct e; simpl; naive_solver. Qed.


Lemma step_order w w' :
  inv w -> step w w' -> ordered (priorOf w') (wTrace w').
Proof.
  intros Hinv Hstep.
  pose proof (inv_order w Hinv) as Hord.
  pose proof (inv_own w Hinv) as Hown.
  pose proof (inv_await w Hinv) as Hawait.
  pose proof (inv_close w Hinv) as Hclose.
  step_cases Hstep; unfold priorOf in *; cbn [wTasks wTrace] in *.
  all: rewrite ?app_nil_r.
  all: try (change (wTrace w ++ [CevCancel c0; CevClose c0])
              with (wTrace w ++ ([CevCancel c0] ++ [CevClose c0]));
            rewrite app_assoc).
  all: repeat (apply ordered_snoc;
               [| intros c m Hp [He|He]; cbn [isRequest isUpdate] in He; try done ]).
  all: try exact Hord.
  all: try (eapply ordered_ext; [exact Hord|]; intros c m e Hp He Hru;
            apply request_or_update_own in Hru;
            pose proof (Hown _ _ He Hru) as Hlt;
            rewrite lookup_insert_ne in Hp by lia; exact Hp).
  all: try (eapply ordered_ext; [exact Hord|]; intros c m e Hp He Hru;
            destruct (decide (c0 = c)) as [->|Hne];
            [ rewrite lookup_insert_eq in Hp; cbn [tPriorDone set_stage set_req] in Hp;
              by rewrite Hlk
            | by rewrite lookup_insert_ne in Hp by done ]).
  all: apply bool_decide_eq_true_1 in He; subst c;
    rewrite lookup_insert_eq in Hp; cbn [tPriorDone set_stage set_req] in Hp;
    apply Hclose; eapply Hawait; [exact Hlk | congruence | exact Hp].
Qed.

Lemma step_settled w w' :
  inv w -> step w w' -> settled (wTrace w').
Proof.
  intros Hinv Hstep.
  pose proof (inv_after w Hinv) as Hset.
  pose proof (inv_fresh w Hinv) as Hfresh.
  pose proof (inv_closed w Hinv) as Hclosed.
  pose proof (inv_close w Hinv) as Hclose.
  assert (Hopen : forall c t, wTasks w !! c = Some t -> tStage t <> Finished ->
                              forall x, x ∈ wTrace w -> isClose c x = false).
  { intros c t Hc Hs x Hx. destruct (isClose c x) eqn:Hcl; [|done]. exfalso.
    assert (c ∈ wClosed w) as Hin by (apply Hclose; eauto).
    destruct (Hclosed c Hin) as (t' & Ht' & Hfin). congruence. }
  assert (Hnew : forall x, x ∈ wTrace w -> isClose (wNext w) x = false).
  { intros x Hx. destruct (isClose (wNext w) x) eqn:Hcl; [|done]. exfalso.
    assert (wNext w ∈ wClosed w) as Hin by (apply Hclose; eauto).
    destruct (Hclosed _ Hin) as (t' & Ht' & Hfin). apply Hfresh in Ht'. lia. }
  step_cases Hstep.
  all: rewrite ?app_nil_r.
  all: try (change (wTrace w ++ [CevCancel c0; CevClose c0])
              with (wTrace w ++ ([CevCancel c0] ++ [CevClose c0]));
            rewrite app_assoc).
  all: repeat (apply settled_snoc;
               [| intros m Hm; cbn [ownEvent] in Hm; try done;
                  apply bool_decide_eq_true_1 in Hm; subst m ]).
  all: try exact Hset.
  all: try exact Hnew.
  all: try (eapply Hopen; [exact Hlk | congruence]).
  intros x Hx. apply elem_of_app in Hx as [Hx|Hx].
  - eapply Hopen; [exact Hlk | congruence | done].
  - apply list_elem_of_singleton in Hx as ->. done.
Qed.


Lemma step_finished w w' :
  inv w -> step w w' ->
  forall c t, wTasks w' !! c = Some t -> tStage t = Finished -> c ∈ wClosed w'.
Proof.
  intros Hinv Hstep c t Hc Hs.
  pose proof (inv_finished w Hinv) as Hfin.
  step_cases Hstep.
  all: try (by eapply Hfin).
  all: apply lookup_insert_Some in Hc as [[<- <-]|[Hne Hc]];
    cbn [tStage set_stage set_req] in *; try done; try (by eapply Hfin).
  - apply elem_of_union. by left; apply elem_of_singleton.
  - apply elem_of_union. right. by eapply Hfin.
Qed.

Lemma inv_init g0 : inv (initWorld (error := error) g0).
Proof.
  split; unfold initWorld; cbn [wGroup wCancelled wClosed wNext wTasks wTrace].
  - intros c t Hc. by rewrite lookup_empty in Hc.
  - intros d Hd. by destruct g0.
  - intros c t m Hc. by rewrite lookup_empty in Hc.
  - intros c Hc. by apply elem_of_empty in Hc.
  - intros c t Hc. by rewrite lookup_empty in Hc.
  - intros c t m Hc. by rewrite lookup_empty in Hc.
  - intros c t Hc. by rewrite lookup_empty in Hc.
  - intros c e He. by apply elem_of_nil in He.
  - intros c. split; [intros Hc; by apply elem_of_empty in Hc|].
    intros (e & He & _). by apply elem_of_nil in He.
  - intros c. unfold doneExpected. cbn [wTasks wNext]. rewrite lookup_empty.
    by rewrite decide_False by lia.
  - intros c. unfold requestExpected. cbn [wTasks]. by rewrite lookup_empty.
  - intros pre e post c m Heq. by destruct pre.
  - intros pre e post m Heq. by destruct pre.
Qed.

Lemma inv_step w w' : inv w -> step w w' -> inv w'.
Proof.
  intros Hinv Hstep. split.
  - by eapply step_fresh.
  - by eapply step_handle.
  - by eapply step_prior.
  - by eapply step_closed.
  - by eapply step_finished.
  - by eapply step_await.
  - by eapply step_nonempty.
  - by eapply step_own.
  - by eapply step_close.
  - by eapply step_done.
  - by eapply step_request.
  - by eapply step_order.
  - by eapply step_settled.
Qed.

Lemma reachable_inv g0 w : reachable g0 w -> inv w.
Proof.
  induction 1 as [|w w' _ IH Hstep]; [apply inv_init | by eapply inv_step].
Qed.

Lemma rtc_inv w w' : inv w -> rtc step w w' -> inv w'.
Proof. intros Hinv Hrtc. induction Hrtc; [done|]. eauto using inv_step. Qed.

Lemma reachable_rtc g0 w w' : reachable g0 w -> rtc step w w' -> reachable g0 w'.
Proof.
  intros Hr Hrtc. induction Hrtc as [|w1 w2 w3 Hstep _ IH]; [done|].
  apply IH. by eapply ReachStep.
Qed.

(** A goroutine stays in the table with the [priorDone] it captured. *)
Lemma step_persist w w' c t :
  inv w -> step w w' -> wTasks w !! c = Some t ->
  exists t', wTasks w' !! c = Some t' /\ tPriorDone t' = tPriorDone t.
Proof.
  intros Hinv Hstep Hc. pose proof (inv_fresh w Hinv _ _ Hc) as Hlt.
  step_cases Hstep.
  all: try (exists t; by split).
  all: try (exists t; split; [by rewrite lookup_insert_ne by lia|done]).
  all: destruct (decide (c0 = c)) as [->|Hne];
    [ rewrite lookup_insert_eq; eexists; split; [done|];
      cbn [tPriorDone set_stage set_req]; congruence
    | exists t; by rewrite lookup_insert_ne by done ].
Qed.

Lemma rtc_persist w w' c t :
  inv w -> rtc step w w' -> wTasks w !! c = Some t ->
  exists t', wTasks w' !! c = Some t' /\ tPriorDone t' = tPriorDone t.
Proof.
  intros Hinv Hrtc. revert t. induction Hrtc as [|w1 w2 w3 Hstep _ IH]; intros t Hc.
  - by exists t.
  - destruct (step_persist _ _ _ _ Hinv Hstep Hc) as (t2 & Hc2 & Hp2).
    destruct (IH (inv_step _ _ Hinv Hstep) _ Hc2) as (t3 & Hc3 & Hp3).
    exists t3. split; [done|congruence].
Qed.


(** *** Every commit goroutine can run to its end *)

Lemma run_finishing w c t :
  wTasks w !! c = Some t -> tStage t = Finishing ->
  exists w', rtc step w w' /\ finishedAt c w'.
Proof.
  intros Hc Hs. eexists. split.
  - eapply rtc_once, StepTask; [exact Hc|]. by apply TClose.
  - eexists. cbn [wTasks]. by rewrite lookup_insert_eq.
Qed.

Lemma run_calling w c t resp :
  wTasks w !! c = Some t -> tStage t = Calling resp ->
  exists w', rtc step w w' /\ finishedAt c w'.
Proof.
  intros Hc Hs.
  destruct (run_finishing
              (setTask c (set_stage Finishing t)
                 [CevOnDone c (tReq t) (Some resp) None] w) c (set_stage Finishing t))
    as (w' & Hrtc & Hfin).
  { cbn [setTask wTasks]. by rewrite lookup_insert_eq. }
  { done. }
  exists w'. split; [|done]. eapply rtc_l; [|exact Hrtc].
  eapply StepTask; [exact Hc|]. by apply TDone.
Qed.

Lemma run_updating w c t resp :
  wTasks w !! c = Some t -> tStage t = Updating resp ->
  exists w', rtc step w w' /\ finishedAt c w'.
Proof.
  intros Hc Hs.
  destruct (applyUpdate (wGroup w) (tReq t) resp) as [[g' req'] resp'] eqn:Happ.
  destruct (run_calling
              (mkWorld g' (wCancelled w) (wClosed w) (wNext w)
                 (<[c := set_stage (Calling resp') (set_req req' t)]> (wTasks w))
                 (wTrace w ++ [CevUpdate c]))
              c (set_stage (Calling resp') (set_req req' t)) resp')
    as (w' & Hrtc & Hfin).
  { cbn [wTasks]. by rewrite lookup_insert_eq. }
  { done. }
  exists w'. split; [|done]. eapply rtc_l; [|exact Hrtc].
  eapply StepTask; [exact Hc|]. by eapply TUpdate.
Qed.

Lemma run_inflight w c t :
  wTasks w !! c = Some t -> tStage t = InFlight ->
  exists w', rtc step w w' /\ finishedAt c w'.
Proof.
  intros Hc Hs.
  assert (exists resp, sameKind (tReq t) resp = true) as [resp Hkind].
  { destruct (tReq t).
    - by exists (PlainResponse newOffsetCommitResponse).
    - by exists (TxnResponse newTxnOffsetCommitResponse). }
  destruct (run_updating (setTask c (set_stage (Updating resp) t) [] w) c
              (set_stage (Updating resp) t) resp) as (w' & Hrtc & Hfin).
  { cbn [setTask wTasks]. by rewrite lookup_insert_eq. }
  { done. }
  exists w'. split; [|done]. eapply rtc_l; [|exact Hrtc].
  eapply StepTask; [exact Hc|]. by apply TReply.
Qed.

Lemma run_ready w c t :
  wTasks w !! c = Some t -> tStage t = Ready -> tUncommitted t <> ∅ ->
  exists w', rtc step w w' /\ finishedAt c w'.
Proof.
  intros Hc Hs Hne.
  set (req := withTopics (tReq t) (buildTopics (tMemberID t) (tUncommitted t))).
  destruct (run_inflight
              (setTask c (set_stage InFlight (set_req req t)) [CevRequest c req] w) c
              (set_stage InFlight (set_req req t))) as (w' & Hrtc & Hfin).
  { cbn [setTask wTasks]. by rewrite lookup_insert_eq. }
  { done. }
  exists w'. split; [|done]. eapply rtc_l; [|exact Hrtc].
  eapply StepTask; [exact Hc|]. apply TRequest; [done|done|].
  unfold req. rewrite requestTopics_withTopics. intros Hnil.
  apply app_eq_nil in Hnil as [_ Hb]. by apply buildTopics_nonempty in Hb.
Qed.

Lemma run_await w c t :
  wTasks w !! c = Some t -> tStage t = AwaitPrior -> tUncommitted t <> ∅ ->
  (forall m, tPriorDone t = Some m -> m ∈ wClosed w) ->
  exists w', rtc step w w' /\ finishedAt c w'.
Proof.
  intros Hc Hs Hne Hprior.
  destruct (run_ready (setTask c (set_stage Ready t) [] w) c (set_stage Ready t))
    as (w' & Hrtc & Hfin).
  { cbn [setTask wTasks]. by rewrite lookup_insert_eq. }
  { done. }
  { done. }
  exists w'. split; [|done]. eapply rtc_l; [|exact Hrtc].
  eapply StepTask; [exact Hc|]. by apply TAwait.
Qed.

Lemma run_task w c t :
  inv w -> wTasks w !! c = Some t ->
  (forall m, tPriorDone t = Some m -> m ∈ wClosed w) ->
  exists w', rtc step w w' /\ finishedAt c w'.
Proof.
  intros Hinv Hc Hprior. destruct (inv_nonempty w Hinv c t Hc) as [Hne Hpanic].
  destruct (tStage t) eqn:Hs.
  - by eapply run_await.
  - by eapply run_ready.
  - by eapply run_inflight.
  - by eapply run_updating.
  - by eapply run_calling.
  - by eapply run_finishing.
  - exists w. split; [done|]. by exists t.
  - done.
Qed.

Lemma can_finish c :
  forall w, inv w -> is_Some (wTasks w !! c) ->
            exists w', rtc step w w' /\ finishedAt c w'.
Proof.
  induction c as [c IH] using lt_wf_ind. intros w Hinv [t Hc].
  destruct (tPriorDone t) as [m|] eqn:Hm.
  - destruct (inv_prior w Hinv c t m Hc Hm) as [Hlt Hsome].
    destruct (IH m Hlt w Hinv Hsome) as (w1 & Hrtc1 & (tm & Htm & Hfin)).
    pose proof (rtc_inv _ _ Hinv Hrtc1) as Hinv1.
    destruct (rtc_persist _ _ _ _ Hinv Hrtc1 Hc) as (t1 & Hc1 & Hp1).
    destruct (run_task w1 c t1 Hinv1 Hc1) as (w2 & Hrtc2 & Hfin2).
    { intros m' Hm'. rewrite Hp1, Hm in Hm'. simplify_eq.
      by eapply (inv_finished w1 Hinv1). }
    exists w2. split; [|done]. by etrans.
  - apply (run_task w c t Hinv Hc). intros m' Hm'. congruence.
Qed.


(** *** The two results *)

Lemma commit_installs w unc :
  goLen unc <> 0%nat ->
  (forall k, commitCancel (wGroup w) = Some k ->
             k ∈ wCancelled (commit w unc)
             /\ wTrace (commit w unc) = wTrace w ++ [CevCancel k])
  /\ (commitCancel (wGroup w) = None -> wTrace (commit w unc) = wTrace w)
  /\ commitCancel (wGroup (commit w unc)) = Some (wNext w)
  /\ commitDone (wGroup (commit w unc)) = Some (wNext w)
  /\ exists t, wTasks (commit w unc) !! wNext w = Some t
               /\ tPriorDone t = commitDone (wGroup w)
               /\ tStage t = AwaitPrior.
Proof.
  intros Hne. unfold commit. rewrite decide_False by done.
  unfold installCommit, spawn.
  destruct (commitCancel (wGroup w)) as [k|] eqn:Hk;
    cbn [wGroup wCancelled wClosed wNext wTasks wTrace commitCancel commitDone set_commit].
  - split; [intros k' Hk'; simplify_eq; split; [set_solver|done]|].
    split; [done|]. split; [done|]. split; [done|].
    eexists. rewrite lookup_insert_eq. done.
  - split; [done|]. split; [intros _; by rewrite app_nil_r|].
    split; [done|]. split; [done|].
    eexists. rewrite lookup_insert_eq. done.
Qed.

Lemma commitTxn_installs cl w unc :
  goLen unc <> 0%nat ->
  (forall k, commitCancel (wGroup w) = Some k ->
             k ∈ wCancelled (commitTxn cl w unc)
             /\ wTrace (commitTxn cl w unc) = wTrace w ++ [CevCancel k])
  /\ (commitCancel (wGroup w) = None -> wTrace (commitTxn cl w unc) = wTrace w)
  /\ commitCancel (wGroup (commitTxn cl w unc)) = Some (wNext w)
  /\ commitDone (wGroup (commitTxn cl w unc)) = Some (wNext w)
  /\ exists t, wTasks (commitTxn cl w unc) !! wNext w = Some t
               /\ tPriorDone t = commitDone (wGroup w)
               /\ tStage t = AwaitPrior.
Proof.
  intros Hne. unfold commitTxn. rewrite decide_False by done.
  unfold installCommit, spawn.
  destruct (commitCancel (wGroup w)) as [k|] eqn:Hk;
    cbn [wGroup wCancelled wClosed wNext wTasks wTrace commitCancel commitDone set_commit].
  - split; [intros k' Hk'; simplify_eq; split; [set_solver|done]|].
    split; [done|]. split; [done|]. split; [done|].
    eexists. rewrite lookup_insert_eq. done.
  - split; [done|]. split; [intros _; by rewrite app_nil_r|].
    split; [done|]. split; [done|].
    eexists. rewrite lookup_insert_eq. done.
Qed.

(** The completion handle changes only when a commit installs its own. *)
Lemma step_commitDone w w' :
  step w w' ->
  commitDone (wGroup w') = commitDone (wGroup w)
  \/ commitDone (wGroup w') = Some (wNext w).
Proof.
  intros Hstep. step_cases Hstep; auto.
  apply applyUpdate_handles in Happ as [-> _]. by left.
Qed.

(** C2.  In a world the group consumer can get into:
    - a call to [commit] or [commitTxn] with something to commit cancels
      the commit in flight (if any), takes the completion channel
      installed so far as its [priorDone], installs its own cancel and
      completion handles, and starts a goroutine that stands before the
      wait on [priorDone]; no other step changes the completion handle;
    - that goroutine leaves the wait only when the prior's channel is
      closed, without having done anything; once it has left the wait the
      prior goroutine has run to its end;
    - in the trace, the request and the ledger update of a commit come
      after the close of its prior's completion channel, and every event of
      the prior (its request, ledger update and [onDone]) comes before
      them. *)
Theorem commit_ordering g0 w :
  reachable g0 w ->
  (forall unc,
      goLen unc <> 0%nat ->
      (forall k, commitCancel (wGroup w) = Some k ->
                 k ∈ wCancelled (commit w unc)
                 /\ wTrace (commit w unc) = wTrace w ++ [CevCancel k])
      /\ (commitCancel (wGroup w) = None -> wTrace (commit w unc) = wTrace w)
      /\ commitCancel (wGroup (commit w unc)) = Some (wNext w)
      /\ commitDone (wGroup (commit w unc)) = Some (wNext w)
      /\ exists t, wTasks (commit w unc) !! wNext w = Some t
                   /\ tPriorDone t = commitDone (wGroup w)
                   /\ tStage t = AwaitPrior)
  /\ (forall cl unc,
        goLen unc <> 0%nat ->
        (forall k, commitCancel (wGroup w) = Some k ->
                   k ∈ wCancelled (commitTxn cl w unc)
                   /\ wTrace (commitTxn cl w unc) = wTrace w ++ [CevCancel k])
        /\ (commitCancel (wGroup w) = None -> wTrace (commitTxn cl w unc) = wTrace w)
        /\ commitCancel (wGroup (commitTxn cl w unc)) = Some (wNext w)
        /\ commitDone (wGroup (commitTxn cl w unc)) = Some (wNext w)
        /\ exists t, wTasks (commitTxn cl w unc) !! wNext w = Some t
                     /\ tPriorDone t = commitDone (wGroup w)
                     /\ tStage t = AwaitPrior)
  /\ (forall w', step w w' ->
                 commitDone (wGroup w') = commitDone (wGroup w)
                 \/ commitDone (wGroup w') = Some (wNext w))
  /\ (forall c t w',
        wTasks w !! c = Some t -> tStage t = AwaitPrior -> taskStep w c t w' ->
        (forall m, tPriorDone t = Some m -> m ∈ wClosed w)
        /\ wTrace w' = wTrace w /\ wGroup w' = wGroup w)
  /\ (forall c t m,
        wTasks w !! c = Some t -> tPriorDone t = Some m ->
        tStage t <> AwaitPrior -> finishedAt m w)
  /\ (forall pre e post c t m,
        wTrace w = pre ++ e :: post ->
        wTasks w !! c = Some t -> tPriorDone t = Some m ->
        isRequest c e = true \/ isUpdate c e = true ->
        (exists x, x ∈ pre /\ isClose m x = true)
        /\ forall y, y ∈ e :: post -> ownEvent m y = false).
Proof.
  intros Hreach. pose proof (reachable_inv _ _ Hreach) as Hinv.
  split; [intros; by apply commit_installs|].
  split; [intros; by apply commitTxn_installs|].
  split; [intros; by apply step_commitDone|].
  split; [|split].
  - intros c t w' Hc Hs Hts. destruct Hts; try congruence.
    split; [done|]. unfold setTask. cbn [wTrace wGroup]. by rewrite app_nil_r.
  - intros c t m Hc Hm Hs. apply (inv_closed w Hinv). by eapply inv_await.
  - intros pre e post c t m Heq Hc Hm He.
    assert (Hclose : exists x, x ∈ pre /\ isClose m x = true).
    { eapply (inv_order w Hinv); [exact Heq| |exact He]. unfold priorOf. by rewrite Hc. }
    split; [exact Hclose|]. intros y Hy.
    destruct (ownEvent m y) eqn:Hown; [|done]. exfalso.
    apply list_elem_of_split in Hy as (l1 & l2 & Hsplit).
    destruct Hclose as (x & Hx & Hcl).
    assert (isClose m x = false); [|congruence].
    eapply (inv_after w Hinv (pre ++ l1) y l2 m); [|done|].
    + rewrite Heq, Hsplit. by rewrite <- app_assoc.
    + apply elem_of_app. by left.
Qed.

(** C6.  A call with an empty argument invokes [onDone] on the spot with a
    new (empty) request, a new (empty) response and no error, starts no
    goroutine and leaves the group consumer alone.  In a world the group
    consumer can get into, [onDone] of every call made so far has been
    invoked at most once: exactly once, with no request on the wire, for a
    call that returned at the empty check; for the others exactly once as
    soon as the goroutine is past its [onDone], and not before; no
    goroutine ends in a panic; and every goroutine can run to its end, where
    its [onDone] has been invoked exactly once. *)
Theorem commit_onDone_once g0 w :
  reachable g0 w ->
  (forall unc,
      goLen unc = 0%nat ->
      commit w unc
      = mkWorld (wGroup w) (wCancelled w) (wClosed w) (S (wNext w)) (wTasks w)
          (wTrace w ++ [CevOnDone (wNext w) (PlainRequest newOffsetCommitRequest)
                          (Some (PlainResponse newOffsetCommitResponse)) None]))
  /\ (forall cl unc,
        goLen unc = 0%nat ->
        commitTxn cl w unc
        = mkWorld (wGroup w) (wCancelled w) (wClosed w) (S (wNext w)) (wTasks w)
            (wTrace w ++ [CevOnDone (wNext w) (TxnRequest newTxnOffsetCommitRequest)
                            (Some (TxnResponse newTxnOffsetCommitResponse)) None]))
  /\ (forall c,
        (c < wNext w)%nat ->
        (onDoneCount c (wTrace w) <= 1)%nat
        /\ match wTasks w !! c with
           | None =>
               onDoneCount c (wTrace w) = 1%nat /\ requestCount c (wTrace w) = 0%nat
           | Some t =>
               onDoneCount c (wTrace w) = (if doneCalled (tStage t) then 1 else 0)%nat
               /\ (requestCount c (wTrace w) <= 1)%nat
               /\ tStage t <> Panicked
           end)
  /\ (forall c,
        is_Some (wTasks w !! c) ->
        exists w', rtc step w w' /\ finishedAt c w'
                   /\ onDoneCount c (wTrace w') = 1%nat).
Proof.
  intros Hreach. pose proof (reachable_inv _ _ Hreach) as Hinv.
  split; [intros unc Hlen; unfold commit; by rewrite decide_True|].
  split; [intros cl unc Hlen; unfold commitTxn; by rewrite decide_True|].
  split.
  - intros c Hlt. rewrite (inv_done w Hinv c), (inv_request w Hinv c).
    unfold doneExpected, requestExpected.
    destruct (wTasks w !! c) as [t|] eqn:Hc.
    + split; [destruct (doneCalled _); lia|]. split; [done|].
      split; [destruct (requestIssued _); lia|]. by apply (inv_nonempty w Hinv c).
    + rewrite decide_True by done. split; [lia|done].
  - intros c Hsome. destruct (can_finish c w Hinv Hsome) as (w' & Hrtc & Hfin).
    exists w'. split; [done|]. split; [done|].
    pose proof (rtc_inv _ _ Hinv Hrtc) as Hinv'.
    rewrite (inv_done w' Hinv' c). unfold doneExpected.
    destruct Hfin as (t & -> & ->). done.
Qed.

End PipelineFacts.

Lemma commit_ordering_witness :
  reachable exGroup exWorld2
  /\ goLen (exOffsets 30) <> 0%nat
  /\ commitCancel (wGroup exWorld2) = Some 1%nat
  /\ (1%nat ∈ wCancelled (commit exWorld2 (exOffsets 30))
      /\ wTrace (commit exWorld2 (exOffsets 30)) = wTrace exWorld2 ++ [CevCancel 1%nat])
  /\ wTasks exWorld2 !! 1%nat ≫= tPriorDone = Some 0%nat.
Proof.
  assert (Hreach : reachable exGroup exWorld2).
  { eapply ReachStep; [eapply ReachStep; [apply ReachInit|]|]; apply StepCommit. }
  assert (Hne : goLen (exOffsets 30) <> 0%nat) by (by vm_compute).
  assert (Hk : commitCancel (wGroup exWorld2) = Some 1%nat) by (by vm_compute).
  split; [exact Hreach|]. split; [exact Hne|]. split; [exact Hk|].
  split; [| by vm_compute].
  apply (proj1 (proj1 (commit_ordering exGroup exWorld2 Hreach) (exOffsets 30) Hne)
           1%nat Hk).
Defined.

Lemma commit_onDone_once_witness :
  reachable exGroup exWorld2
  /\ goLen (None : option (gmap string (gmap Z EpochOffset))) = 0%nat
  /\ commit exWorld2 None
     = mkWorld (wGroup exWorld2) (wCancelled exWorld2) (wClosed exWorld2)
         (S (wNext exWorld2)) (wTasks exWorld2)
         (wTrace exWorld2
          ++ [CevOnDone (wNext exWorld2) (PlainRequest newOffsetCommitRequest)
                (Some (PlainResponse newOffsetCommitResponse)) None]).
Proof.
  assert (Hreach : reachable exGroup exWorld2).
  { eapply ReachStep; [eapply ReachStep; [apply ReachInit|]|]; apply StepCommit. }
  split; [exact Hreach|]. split; [reflexivity|].
  apply (proj1 (commit_onDone_once exGroup exWorld2 Hreach) None eq_refl).
Defined.

(** The two commits of [exWorld2] run to their ends, the first failing
    with its context canceled, the second acknowledged: [onDone] is invoked
    once for each and the ledger holds the second commit's offset. *)
Example two_commits_run :
  exists w,
    rtc step exWorld2 w
    /\ entry (uncommitted (wGroup w)) "t" 0
       = Some (mkUncommit (mkEpochOffset 3 11) (mkEpochOffset 3 20))
    /\ onDoneCount 0 (wTrace w) = 1%nat
    /\ onDoneCount 1 (wTrace w) = 1%nat.
Proof.
  eexists. split.
  - eapply rtc_l.
    { eapply (StepTask _ 0%nat); [reflexivity|]. apply TAwait; [reflexivity|].
      intros m Hm. discriminate Hm. }
    eapply rtc_l.
    { eapply (StepTask _ 0%nat); [reflexivity|].
      eapply TRequest; [reflexivity|reflexivity|]. by vm_compute. }
    eapply rtc_l.
    { eapply (StepTask _ 0%nat); [reflexivity|].
      apply (TFail _ _ _ "context canceled"%string). reflexivity. }
    eapply rtc_l.
    { eapply (StepTask _ 0%nat); [reflexivity|]. apply TClose. reflexivity. }
    eapply rtc_l.
    { eapply (StepTask _ 1%nat); [reflexivity|]. apply TAwait; [reflexivity|].
      intros m Hm. injection Hm as <-. by vm_compute. }
    eapply rtc_l.
    { eapply (StepTask _ 1%nat); [reflexivity|].
      eapply TRequest; [reflexivity|reflexivity|]. by vm_compute. }
    eapply rtc_l.
    { eapply (StepTask _ 1%nat); [reflexivity|].
      apply (TReply _ _ _ (PlainResponse exResponse)); reflexivity. }
    eapply rtc_l.
    { eapply (StepTask _ 1%nat); [reflexivity|].
      eapply TUpdate; [reflexivity|]. reflexivity. }
    eapply rtc_l.
    { eapply (StepTask _ 1%nat); [reflexivity|]. eapply TDone. reflexivity. }
    eapply rtc_once.
    eapply (StepTask _ 1%nat); [reflexivity|]. apply TClose. reflexivity.
  - by vm_compute.
Qed.

(** * Further properties *)

(** ** [getUncommittedLocked] *)

Example getUncommittedLocked_dirty :
  getUncommittedLocked exGroup = Some {[ "t"%string := {[ 0 := mkEpochOffset 3 11 ]} ]}.
Proof. by vm_compute. Qed.

(** The loop over the partitions of [topic], entered with no entry for
    [topic] in the result. *)
Lemma snapshotTopic_spec topic (partitions : gmap Z uncommit) (unc : option offsets) :
  goLookup unc topic = None ->
  noEmptyMaps unc ->
  (forall t, t <> topic -> goLookup (snapshotTopic topic partitions unc) t = goLookup unc t)
  /\ (forall p, offsetsEntry (snapshotTopic topic partitions unc) topic p
                = dirtyHead (partitions !! p))
  /\ noEmptyMaps (snapshotTopic topic partitions unc).
Proof.
  intros Hnone Hwf. unfold snapshotTopic.
  set (P := fun (st : option offsets * bool) (m : gmap Z uncommit) =>
       (forall t, t <> topic -> goLookup st.1 t = goLookup unc t)
       /\ (forall p, offsetsEntry st.1 topic p = dirtyHead (m !! p))
       /\ noEmptyMaps st.1
       /\ (if st.2 then exists u, st.1 = Some u /\ is_Some (u !! topic)
           else st.1 = unc)).
  enough (HP : P (map_fold (snapshotPartition topic) (unc, false) partitions) partitions)
    by (destruct HP as (? & ? & ? & _); done).
  apply (map_fold_weak_ind P); unfold P.
  2:{ intros p un m [r alias] Hm (Hother & Htopic & Hwf' & Halias).
      cbn [fst snd] in *. unfold snapshotPartition.
      destruct (decide (head un = committed un)) as [Hclean|Hdirty]; cbn [fst snd].
      { split; [done|]. split; [|done]. intros p'.
        rewrite Htopic. destruct (decide (p = p')) as [->|Hne].
        - rewrite lookup_insert_eq, Hm. simpl. by rewrite decide_True.
        - by rewrite lookup_insert_ne. }
      set (u := (if alias then default ∅ r
                 else match default ∅ r !! topic with
                      | Some _ => default ∅ r
                      | None => <[topic := ∅]> (default ∅ r)
                      end) : offsets).
      assert (Hu_other : forall t, t <> topic -> u !! t = goLookup r t).
      { intros t Hne. unfold u. destruct alias.
        - destruct Halias as (u0 & -> & _). done.
        - destruct r as [u0|]; simpl.
          + destruct (u0 !! topic); [done|]. by rewrite lookup_insert_ne.
          + rewrite lookup_empty. by rewrite lookup_insert_ne. }
      assert (Hu_topic : forall p', default ∅ (u !! topic) !! p' = offsetsEntry r topic p').
      { intros p'. unfold u. destruct alias.
        - destruct Halias as (u0 & -> & [m0 Hm0]). simpl. by rewrite Hm0.
        - destruct r as [u0|]; simpl.
          + destruct (u0 !! topic) as [m0|] eqn:Hm0; [by rewrite Hm0|].
            rewrite lookup_insert_eq. simpl. by rewrite lookup_empty.
          + rewrite lookup_empty, lookup_insert_eq. simpl. by rewrite lookup_empty. }
      assert (Hu_wf : forall t m0, u !! t = Some m0 -> t <> topic -> m0 <> ∅).
      { intros t m0 Ht Hne. rewrite Hu_other in Ht by done.
        destruct r as [u0|]; [|done]. simpl in Ht. destruct Hwf' as [_ Hwf']. eauto. }
      split; [|split; [|split]].
      - intros t Hne. simpl. rewrite lookup_insert_ne by done.
        rewrite Hu_other by done. by apply Hother.
      - intros p'. simpl. rewrite lookup_insert_eq.
        destruct (decide (p = p')) as [->|Hne].
        + rewrite !lookup_insert_eq. simpl. by rewrite decide_False.
        + rewrite !lookup_insert_ne by done. rewrite Hu_topic. apply Htopic.
      - simpl. split.
        + intros Hempty. apply (f_equal (fun x : offsets => x !! topic)) in Hempty.
          by rewrite lookup_insert_eq, lookup_empty in Hempty.
        + intros t m0 Ht. destruct (decide (t = topic)) as [->|Hne].
          * rewrite lookup_insert_eq in Ht. simplify_eq. intros Hempty.
            apply (f_equal (fun x : gmap Z EpochOffset => x !! p)) in Hempty.
            by rewrite lookup_insert_eq, lookup_empty in Hempty.
          * rewrite lookup_insert_ne in Ht by done. eauto.
      - eexists. split; [done|]. by rewrite lookup_insert_eq. }
  cbn [fst snd]. split; [done|]. split; [|done].
  intros p. rewrite lookup_empty. simpl.
  unfold offsetsEntry. destruct unc as [u|]; [|done]. simpl in Hnone. by rewrite Hnone.
Qed.

Lemma getUncommittedLocked_fold (u : ledger) :
  (forall t, u !! t = None -> goLookup (map_fold snapshotTopic None u) t = None)
  /\ (forall t p, offsetsEntry (map_fold snapshotTopic None u) t p
                  = dirtyHead (entry (Some u) t p))
  /\ noEmptyMaps (map_fold snapshotTopic None u).
Proof.
  set (P := fun (r : option offsets) (m : ledger) =>
       (forall t, m !! t = None -> goLookup r t = None)
       /\ (forall t p, offsetsEntry r t p = dirtyHead (entry (Some m) t p))
       /\ noEmptyMaps r).
  apply (map_fold_weak_ind P); unfold P.
  { split; [done|]. split; [|done]. intros t p. unfold entry. simpl.
    by rewrite lookup_empty. }
  intros topic partitions m r Hm (Hnone & Hentry & Hwf).
  destruct (snapshotTopic_spec topic partitions r (Hnone _ Hm) Hwf)
    as (Hother & Htopic & Hwf').
  split; [|split; [|done]].
  - intros t Ht. apply lookup_insert_None in Ht as [Ht Hne].
    rewrite Hother by done. by apply Hnone.
  - intros t p. unfold entry. simpl. destruct (decide (t = topic)) as [->|Hne].
    + rewrite lookup_insert_eq. apply Htopic.
    + rewrite lookup_insert_ne by done.
      specialize (Hentry t p). unfold entry in Hentry. simpl in Hentry.
      rewrite <- Hentry. unfold offsetsEntry.
      specialize (Hother t Hne). unfold goLookup in Hother.
      destruct (snapshotTopic topic partitions r) as [s|], r as [s0|]; simpl in *;
        try done; try (by rewrite Hother); by rewrite <- Hother.
Qed.

(** The snapshot, entry by entry. *)
Lemma snapshot_entries (g : groupConsumer) (topic : string) (p : Z) :
  offsetsEntry (getUncommittedLocked g) topic p
  = dirtyHead (entry (uncommitted g) topic p).
Proof.
  unfold getUncommittedLocked. destruct (uncommitted g) as [u|]; [|done].
  apply getUncommittedLocked_fold.
Qed.

Lemma snapshot_noEmptyMaps (g : groupConsumer) : noEmptyMaps (getUncommittedLocked g).
Proof.
  unfold getUncommittedLocked. destruct (uncommitted g) as [u|]; [|done].
  apply getUncommittedLocked_fold.
Qed.

Lemma snapshot_nil_iff_clean (g : groupConsumer) :
  getUncommittedLocked g = None <-> clean (uncommitted g).
Proof.
  pose proof (snapshot_noEmptyMaps g) as Hwf.
  pose proof (snapshot_entries g) as Hentry.
  split.
  - intros Hnil topic p un Hun. specialize (Hentry topic p).
    rewrite Hnil, Hun in Hentry. simpl in Hentry.
    by destruct (decide (head un = committed un)).
  - intros Hclean. destruct (getUncommittedLocked g) as [s|] eqn:Hs; [|done].
    exfalso. destruct Hwf as [Hne Hinner].
    apply map_choose in Hne as (topic & m & Hm).
    pose proof (Hinner _ _ Hm) as Hmne.
    apply map_choose in Hmne as (p & eo & Hp).
    specialize (Hentry topic p). simpl in Hentry. rewrite Hm, Hp in Hentry.
    destruct (entry (uncommitted g) topic p) as [un|] eqn:Hun; [|done].
    simpl in Hentry. specialize (Hclean _ _ _ Hun).
    by rewrite decide_True in Hentry.
Qed.

Lemma snapshot_len (g : groupConsumer) :
  goLen (getUncommittedLocked g) = 0%nat <-> getUncommittedLocked g = None.
Proof.
  pose proof (snapshot_noEmptyMaps g) as Hwf.
  split; [|by intros ->].
  destruct (getUncommittedLocked g) as [s|]; [|done].
  unfold goLen. intros Hsize. destruct Hwf as [Hne _].
  by apply map_size_empty_iff in Hsize.
Qed.

(** X1.  The snapshot [getUncommittedLocked] returns holds, for every topic
    and partition, the head of the ledger entry when the entry is dirty
    (head differs from committed, epoch or offset), and no offset when the
    entry is clean or absent. *)
Theorem getUncommittedLocked_entries (g : groupConsumer) (topic : string) (p : Z) :
  offsetsEntry (getUncommittedLocked g) topic p
  = dirtyHead (entry (uncommitted g) topic p).
Proof. apply snapshot_entries. Qed.

(** X2.  The snapshot is nil exactly when no ledger entry is dirty; when it
    is not nil it is never an empty map and holds no topic with an empty
    partition map, so its length is zero only when nothing is to commit. *)
Theorem getUncommittedLocked_nil_iff_clean (g : groupConsumer) :
  (getUncommittedLocked g = None
   <-> forall topic p un, entry (uncommitted g) topic p = Some un ->
         head un = committed un)
  /\ (goLen (getUncommittedLocked g) = 0%nat <-> getUncommittedLocked g = None)
  /\ noEmptyMaps (getUncommittedLocked g).
Proof.
  split; [apply snapshot_nil_iff_clean|].
  split; [apply snapshot_len|apply snapshot_noEmptyMaps].
Qed.

(** ** [loopCommit] *)

Lemma exClean_clean : clean (uncommitted exClean).
Proof.
  intros topic p un. unfold entry. simpl.
  destruct (decide (topic = "t"%string)) as [->|Hne].
  - rewrite lookup_singleton_eq. destruct (decide (p = 0)) as [->|Hp].
    + rewrite lookup_singleton_eq. by intros [= <-].
    + by rewrite lookup_singleton_ne.
  - by rewrite lookup_singleton_ne.
Qed.

(** X3.  An autocommit tick on a ledger without dirty entries leaves the
    pipeline alone: the group consumer with its commit handles, the set of
    cancelled contexts, the completion channels and the goroutines are
    unchanged, so no commit in flight is cancelled and no request follows;
    the only effect is the immediate completion of the (empty) call. *)
Theorem loopCommitTick_clean {error : Type} (w : world error) (blockAuto : bool) :
  clean (uncommitted (wGroup w)) ->
  let w' := loopCommitTick blockAuto w in
  wGroup w' = wGroup w
  /\ wCancelled w' = wCancelled w
  /\ wClosed w' = wClosed w
  /\ wTasks w' = wTasks w
  /\ (forall c, requestCount c (wTrace w') = requestCount c (wTrace w))
  /\ (forall e, e ∈ wTrace w' -> e ∈ wTrace w \/ isOnDone (wNext w) e = true).
Proof.
  intros Hclean. unfold loopCommitTick. destruct blockAuto.
  { simpl. repeat split; auto. }
  assert (Hnil : getUncommittedLocked (wGroup w) = None).
  { by apply snapshot_nil_iff_clean. }
  rewrite Hnil. unfold commit. simpl.
  repeat split; auto.
  - intros c. unfold requestCount. by rewrite filter_app, length_app, Nat.add_0_r.
  - intros e He. apply elem_of_app in He as [He|He]; [by left|right].
    apply list_elem_of_singleton in He as ->. simpl. by rewrite bool_decide_true.
Qed.

Lemma loopCommitTick_clean_witness :
  clean (uncommitted (wGroup exCleanWorld))
  /\ wTasks (loopCommitTick false exCleanWorld) = wTasks exCleanWorld
  /\ wCancelled (loopCommitTick false exCleanWorld) = ∅.
Proof.
  split; [exact exClean_clean|].
  destruct (loopCommitTick_clean exCleanWorld false exClean_clean)
    as (_ & Hcancelled & _ & Htasks & _).
  split; [exact Htasks|exact Hcancelled].
Defined.

(** X4.  An autocommit tick on a ledger with a dirty entry, autocommit not
    being blocked, cancels the commit in flight, if any, and starts a
    goroutine that waits for it and whose offsets are the heads of the
    dirty entries, and of no other. *)
Theorem loopCommitTick_dirty {error : Type} (w : world error)
    (topic : string) (p : Z) (un : uncommit) :
  entry (uncommitted (wGroup w)) topic p = Some un ->
  head un <> committed un ->
  let w' := loopCommitTick false w in
  exists t,
    wTasks w' !! wNext w = Some t
    /\ tStage t = AwaitPrior
    /\ tPriorDone t = commitDone (wGroup w)
    /\ (forall topic' p',
          offsetsEntry (Some (tUncommitted t)) topic' p'
          = dirtyHead (entry (uncommitted (wGroup w)) topic' p'))
    /\ (forall k, commitCancel (wGroup w) = Some k -> k ∈ wCancelled w')
    /\ commitCancel (wGroup w') = Some (wNext w)
    /\ commitDone (wGroup w') = Some (wNext w).
Proof.
  intros Hun Hdirty. unfold loopCommitTick.
  destruct (getUncommittedLocked (wGroup w)) as [s|] eqn:Hs.
  2:{ exfalso. apply Hdirty.
      by apply (proj1 (snapshot_nil_iff_clean (wGroup w)) Hs topic p). }
  pose proof (snapshot_entries (wGroup w)) as Hentries.
  rewrite Hs in Hentries.
  assert (Hlen : goLen (Some s) <> 0%nat).
  { intros Hlen. pose proof (snapshot_len (wGroup w)) as Hl.
    rewrite Hs in Hl. by apply Hl in Hlen. }
  unfold commit. rewrite decide_False by done.
  unfold installCommit, spawn.
  destruct (commitCancel (wGroup w)) as [k|] eqn:Hk; simpl;
    rewrite lookup_insert_eq; eexists; (split; [done|]); simpl;
    repeat split; try done.
  intros k' [= <-]. set_solver.
Qed.

Lemma loopCommitTick_dirty_witness :
  exists t,
    wTasks (loopCommitTick false (exWorld1 : world string)) !! 1%nat = Some t
    /\ tPriorDone t = Some 0%nat
    /\ tUncommitted t = {[ "t"%string := {[ 0 := mkEpochOffset 3 11 ]} ]}.
Proof.
  destruct (loopCommitTick_dirty (exWorld1 : world string) "t" 0
              (mkUncommit (mkEpochOffset 3 11) (mkEpochOffset 3 7)))
    as (t & Ht & _ & Hprior & _); [by vm_compute | by vm_compute |].
  exists t. split; [exact Ht|]. split; [exact Hprior|].
  vm_compute in Ht. by injection Ht as <-.
Defined.

(** ** [revoke] with lost partitions *)

Lemma foldl_delete_lookup (m : gmap Z uncommit) (l : list Z) (p : Z) :
  foldl (fun m p => delete p m) m l !! p
  = if decide (p ∈ l) then None else m !! p.
Proof.
  revert m. induction l as [|x l IH]; intros m; cbn [foldl].
  { rewrite decide_False; [done|]. by intros ?%elem_of_nil. }
  rewrite IH. destruct (decide (p ∈ l)) as [Hin|Hnin].
  - rewrite decide_True; [done|]. by right.
  - destruct (decide (p = x)) as [->|Hne].
    + rewrite lookup_delete_eq. rewrite decide_True; [done|]. by left.
    + rewrite lookup_delete_ne by done. rewrite decide_False; [done|].
      intros [?|?]%elem_of_cons; done.
Qed.

Lemma pruneTopic_entry (lostTopic : string) (lostPartitions : list Z) (u : ledger)
    (t : string) (p : Z) :
  entry (Some (pruneTopic lostTopic lostPartitions u)) t p
  = if decide (t = lostTopic /\ p ∈ lostPartitions) then None else entry (Some u) t p.
Proof.
  unfold pruneTopic, entry.
  destruct (u !! lostTopic) as [m|] eqn:Hm.
  2:{ destruct (decide _) as [[-> _]|]; [|done]. by rewrite Hm. }
  pose proof (foldl_delete_lookup m lostPartitions p) as Hp.
  destruct (decide (size _ = 0%nat)) as [Hsize|Hsize].
  - apply map_size_empty_iff in Hsize. rewrite Hsize, lookup_empty in Hp.
    destruct (decide (t = lostTopic)) as [->|Hne].
    + rewrite lookup_delete_eq, Hm.
      destruct (decide (p ∈ lostPartitions)).
      * by rewrite decide_True.
      * by rewrite decide_False by tauto.
    + rewrite lookup_delete_ne by done. by rewrite decide_False by tauto.
  - destruct (decide (t = lostTopic)) as [->|Hne].
    + rewrite lookup_insert_eq, Hm, Hp.
      destruct (decide (p ∈ lostPartitions)).
      * by rewrite decide_True.
      * by rewrite decide_False by tauto.
    + rewrite lookup_insert_ne by done. by rewrite decide_False by tauto.
Qed.

Lemma pruneTopic_inner (lostTopic : string) (lostPartitions : list Z) (u : ledger) :
  (forall t m, u !! t = Some m -> m <> ∅) ->
  forall t m, pruneTopic lostTopic lostPartitions u !! t = Some m -> m <> ∅.
Proof.
  intros Hu t m. unfold pruneTopic.
  destruct (u !! lostTopic) as [m0|] eqn:Hm0; [|by apply Hu].
  destruct (decide (size _ = 0%nat)) as [Hsize|Hsize].
  - intros Ht. apply lookup_delete_Some in Ht as [_ Ht]. by eapply Hu.
  - destruct (decide (t = lostTopic)) as [->|Hne].
    + rewrite lookup_insert_eq. intros [= <-] Hempty. apply Hsize.
      by rewrite Hempty, map_size_empty.
    + rewrite lookup_insert_ne by done. by apply Hu.
Qed.

Lemma pruneLost_fold (lost : gmap string (list Z)) (u : ledger) :
  (forall t p,
     entry (Some (map_fold pruneTopic u lost)) t p
     = match lost !! t with
       | Some ps => if decide (p ∈ ps) then None else entry (Some u) t p
       | None => entry (Some u) t p
       end)
  /\ ((forall t m, u !! t = Some m -> m <> ∅) ->
      forall t m, map_fold pruneTopic u lost !! t = Some m -> m <> ∅).
Proof.
  set (P := fun (r : ledger) (l : gmap string (list Z)) =>
    (forall t p,
       entry (Some r) t p
       = match l !! t with
         | Some ps => if decide (p ∈ ps) then None else entry (Some u) t p
         | None => entry (Some u) t p
         end)
    /\ ((forall t m, u !! t = Some m -> m <> ∅) ->
        forall t m, r !! t = Some m -> m <> ∅)).
  apply (map_fold_weak_ind P); unfold P.
  { split; [|done]. intros t p. by rewrite lookup_empty. }
  intros lostTopic lostPartitions l r Hl [Hentry Hinner]. split.
  - intros t p. rewrite pruneTopic_entry, Hentry.
    destruct (decide (t = lostTopic)) as [->|Hne].
    + rewrite lookup_insert_eq, Hl.
      destruct (decide (p ∈ lostPartitions)).
      * by rewrite decide_True.
      * by rewrite decide_False by tauto.
    + rewrite lookup_insert_ne by done. by rewrite decide_False by tauto.
  - intros Hu. apply pruneTopic_inner. by apply Hinner.
Qed.

Lemma pruneLost_entry (lost : gmap string (list Z)) (unc : option ledger)
    (t : string) (p : Z) :
  entry (pruneLost lost unc) t p
  = match lost !! t with
    | Some ps => if decide (p ∈ ps) then None else entry unc t p
    | None => entry unc t p
    end.
Proof.
  unfold pruneLost. destruct unc as [u|].
  2:{ simpl. by repeat case_match. }
  pose proof (proj1 (pruneLost_fold lost u) t p) as Hentry.
  destruct (decide (size _ = 0%nat)) as [Hsize|Hsize]; [|done].
  apply map_size_empty_iff in Hsize. rewrite Hsize in Hentry.
  rewrite <- Hentry. unfold entry. simpl. by rewrite lookup_empty.
Qed.

Lemma pruneLost_noEmptyMaps (lost : gmap string (list Z)) (unc : option ledger) :
  noEmptyMaps unc -> noEmptyMaps (pruneLost lost unc).
Proof.
  unfold pruneLost. destruct unc as [u|]; [|done]. intros [_ Hinner].
  destruct (decide (size _ = 0%nat)) as [Hsize|Hsize]; [done|].
  split.
  - intros Hempty. apply Hsize. by rewrite Hempty, map_size_empty.
  - by apply pruneLost_fold.
Qed.

(** X5.  A cooperative [revoke] with lost partitions first tells the fetch
    pipeline to drop exactly the lost topics and partitions, then calls
    [onRevoked] (when set) with them, prunes the ledger and signals a
    rejoin: afterwards the ledger has no entry for a lost partition and
    every other entry is as the callback left it; [nowAssigned] is not
    touched. *)
Theorem revoke_cooperative_prunes (cb : option callback) (g : groupConsumer)
    (stage : revokeStage) (lost : gmap string (list Z)) :
  cooperative g = true ->
  lost <> ∅ ->
  let g1 := (callOnRevoked cb (Some lost) g).1 in
  let g' := (revoke cb g stage (Some lost)).1 in
  (forall topic p,
     entry (uncommitted g') topic p
     = match lost !! topic with
       | Some ps => if decide (p ∈ ps) then None else entry (uncommitted g1) topic p
       | None => entry (uncommitted g1) topic p
       end)
  /\ nowAssigned g' = nowAssigned g1
  /\ rejoinCh g' = true
  /\ (revoke cb g stage (Some lost)).2
     = EvMaybeAssignPartitions (Some (lostPartitionOffsets <$> lost))
         assignInvalidateMatching
       :: (callOnRevoked cb (Some lost) g).2 ++ [EvRejoin].
Proof.
  intros Hcoop Hlost. unfold revoke. rewrite Hcoop. simpl.
  rewrite decide_False by (by rewrite map_size_empty_iff).
  destruct (callOnRevoked cb (Some lost) g) as [g1 ev]. simpl.
  repeat split. intros topic p. apply pruneLost_entry.
Qed.

Lemma revoke_cooperative_prunes_witness :
  cooperative exGroup = true
  /\ ({[ "t"%string := [0] ]} : gmap string (list Z)) <> ∅
  /\ entry (uncommitted
              (revoke None exGroup revokeLastSession (Some {[ "t"%string := [0] ]})).1)
           "t" 0 = None
  /\ rejoinCh (revoke None exGroup revokeLastSession (Some {[ "t"%string := [0] ]})).1
     = true.
Proof.
  assert (Hne : ({[ "t"%string := [0] ]} : gmap string (list Z)) <> ∅).
  { intros Hempty.
    apply (f_equal (fun m : gmap string (list Z) => m !! "t"%string)) in Hempty.
    vm_compute in Hempty. discriminate. }
  split; [reflexivity|]. split; [exact Hne|].
  destruct (revoke_cooperative_prunes None exGroup revokeLastSession
              {[ "t"%string := [0] ]} eq_refl Hne) as (Hentry & _ & Hrejoin & _).
  split; [|exact Hrejoin].
  rewrite Hentry. by vm_compute.
Defined.

Lemma updatePartition_noEmptyMaps topic partition (st : option ledger * option string) :
  noEmptyMaps st.1 -> noEmptyMaps (updatePartition topic partition st).1.
Proof.
  destruct st as [unc topicOffsets]. cbn [fst]. intros Hwf. unfold updatePartition.
  destruct (last (fpRecords partition)) as [final|]; [|done].
  assert (Hins : forall (u : ledger) k (m : gmap Z uncommit) un,
            (forall t m0, u !! t = Some m0 -> t <> k -> m0 <> ∅) ->
            noEmptyMaps (Some (<[k := <[fpPartition partition := un]> m]> u))).
  { intros u k m un Hu. split.
    - intros Hempty. apply (f_equal (fun x : ledger => x !! k)) in Hempty.
      by rewrite lookup_insert_eq, lookup_empty in Hempty.
    - intros t m0. destruct (decide (t = k)) as [->|Hne].
      + rewrite lookup_insert_eq. intros [= <-] Hempty.
        apply (f_equal (fun x : gmap Z uncommit => x !! fpPartition partition)) in Hempty.
        by rewrite lookup_insert_eq, lookup_empty in Hempty.
      + rewrite lookup_insert_ne by done. intros Ht. by eapply Hu. }
  assert (Hdef : forall t m0, default ∅ unc !! t = Some m0 -> m0 <> ∅).
  { intros t m0. destruct unc as [u|]; simpl; [|by rewrite lookup_empty].
    destruct Hwf as [_ Hinner]. apply Hinner. }
  assert (Hsome : forall t m0, default ∅ unc !! t = Some m0 ->
            noEmptyMaps (Some (default ∅ unc))).
  { intros t m0. destruct unc as [u|]; simpl; [done|by rewrite lookup_empty]. }
  destruct topicOffsets as [k|].
  - destruct (default ∅ unc !! k) as [m|] eqn:Hm; simpl.
    + destruct (m !! fpPartition partition) as [un|].
      * destruct (_ >? _); cbn [fst]; [by eapply Hsome|].
        apply Hins. intros t m0 Ht _. by eapply Hdef.
      * cbn [fst]. apply Hins. intros t m0 Ht _. by eapply Hdef.
    + rewrite lookup_empty. cbn [fst]. apply Hins. intros t m0 Ht _. by eapply Hdef.
  - destruct (default ∅ unc !! topic) as [m|] eqn:Hm.
    + rewrite Hm. simpl. destruct (m !! fpPartition partition) as [un|].
      * destruct (_ >? _); cbn [fst]; [by eapply Hsome|].
        apply Hins. intros t m0 Ht _. by eapply Hdef.
      * cbn [fst]. apply Hins. intros t m0 Ht _. by eapply Hdef.
    + rewrite lookup_insert_eq. simpl. rewrite lookup_empty. cbn [fst].
      apply Hins. intros t m0 Ht Hne. rewrite lookup_insert_ne in Ht by done.
      by eapply Hdef.
Qed.

Lemma updateFetch_noEmptyMaps unc fetch :
  noEmptyMaps unc -> noEmptyMaps (updateFetch unc fetch).
Proof.
  intros Hwf. unfold updateFetch.
  generalize (@None string). revert unc Hwf.
  induction (fTopics fetch) as [|topic ts IH]; intros unc Hwf k; simpl; [done|].
  destruct (updateTopic topic (unc, k)) as [unc1 k1] eqn:Hone.
  apply IH. replace unc1 with (updateTopic topic (unc, k)).1 by by rewrite Hone.
  clear Hone IH. unfold updateTopic. revert unc k Hwf.
  induction (ftPartitions topic) as [|partition ps IHp]; intros unc k Hwf; simpl; [done|].
  pose proof (updatePartition_noEmptyMaps (ftTopic topic) partition (unc, k) Hwf) as Hstep.
  destruct (updatePartition (ftTopic topic) partition (unc, k)) as [unc2 k2].
  by apply IHp.
Qed.

Lemma commitTopics_noEmptyMaps u reqTopics respTopics :
  noEmptyMaps (Some u) ->
  noEmptyMaps (Some (commitTopics u reqTopics respTopics).1.1).
Proof.
  intros [Hne Hinner].
  pose proof (commitTopics_dom u reqTopics respTopics) as Hdom.
  split.
  - intros Hempty. rewrite Hempty, dom_empty_L in Hdom.
    symmetry in Hdom. by apply dom_empty_inv_L in Hdom.
  - intros t m' Ht.
    assert (Hin : t ∈ dom u) by (rewrite <- Hdom; apply elem_of_dom; eauto).
    apply elem_of_dom in Hin as [m Hm].
    pose proof (Hinner _ _ Hm) as Hmne.
    apply map_choose in Hmne as (p & un & Hp).
    pose proof (commitTopics_entryStep u reqTopics respTopics t p) as Hstep.
    unfold entry in Hstep. rewrite Hm, Hp, Ht in Hstep. simpl in Hstep.
    destruct Hstep as (un' & Hun' & _). intros Hempty.
    by rewrite Hempty, lookup_empty in Hun'.
Qed.

(** X6.  The ledger is kept nil or non-empty: if it is nil or holds at
    least one topic and no topic without partitions, it is so after
    [updateUncommitted], [updateCommitted], [updateCommittedTxn] and a
    [revoke] whose callback keeps it so. *)
Theorem ledger_never_empty (g : groupConsumer) :
  noEmptyMaps (uncommitted g) ->
  (forall fetches, noEmptyMaps (uncommitted (updateUncommitted g fetches)))
  /\ (forall req resp, noEmptyMaps (uncommitted (updateCommitted g req resp).1.1))
  /\ (forall req resp, noEmptyMaps (uncommitted (updateCommittedTxn g req resp).1.1))
  /\ (forall cb stage lost,
        (forall f parts, cb = Some f -> noEmptyMaps (uncommitted (f parts g))) ->
        noEmptyMaps (uncommitted (revoke cb g stage lost).1)).
Proof.
  intros Hwf. split; [|split; [|split]].
  - intros fetches. unfold updateUncommitted. rewrite uncommitted_set_uncommitted.
    revert Hwf. generalize (uncommitted g).
    induction fetches as [|fetch fs IH]; intros unc Hwf; simpl; [done|].
    by apply IH, updateFetch_noEmptyMaps.
  - intros req resp. unfold updateCommitted.
    destruct (bool_decide _); [done|].
    destruct (uncommitted g) as [u|] eqn:Hu; [|by simpl; rewrite Hu].
    destruct (bool_decide _); [by simpl; rewrite Hu|].
    pose proof (commitTopics_noEmptyMaps u (sortSlice reqTopicLess (ocTopics req))
                  (sortSlice respTopicLess (ocrTopics resp)) Hwf) as Hstep.
    destruct (commitTopics _ _ _) as [[u' rts] pts]. done.
  - intros req resp. unfold updateCommittedTxn.
    destruct (uncommitted g) as [u|] eqn:Hu; [|by simpl; rewrite Hu].
    destruct (bool_decide _); [by simpl; rewrite Hu|].
    pose proof (commitTopics_noEmptyMaps u (sortSlice reqTopicLess (tcTopics req))
                  (sortSlice respTopicLess (tcrTopics resp)) Hwf) as Hstep.
    destruct (commitTopics _ _ _) as [[u' rts] pts]. done.
  - intros cb stage lost Hcb. unfold revoke.
    destruct (negb (cooperative g)).
    { by destruct (callOnRevoked cb (nowAssigned g) g). }
    destruct (decide _); [done|].
    assert (Hg1 : noEmptyMaps (uncommitted (callOnRevoked cb lost g).1)).
    { unfold callOnRevoked. destruct cb as [f|]; simpl; [by eapply Hcb|done]. }
    destruct (callOnRevoked cb lost g) as [g1 ev]. simpl in *.
    by apply pruneLost_noEmptyMaps.
Qed.

Lemma ledger_never_empty_witness :
  noEmptyMaps (uncommitted exGroup)
  /\ noEmptyMaps
       (uncommitted (revoke None exGroup revokeLastSession (Some {[ "t"%string := [0] ]})).1)
  /\ noEmptyMaps (uncommitted (updateCommitted exGroup (exRequest 5) exResponse).1.1).
Proof.
  assert (Hwf : noEmptyMaps (uncommitted exGroup)).
  { split.
    - intros Hempty. apply (f_equal (fun m : ledger => m !! "t"%string)) in Hempty.
      vm_compute in Hempty. discriminate.
    - intros topic m Hm. unfold exLedger in Hm.
      apply lookup_singleton_Some in Hm as [_ <-].
      intros Hempty. apply (f_equal (fun m : gmap Z uncommit => m !! 0)) in Hempty.
      vm_compute in Hempty. discriminate. }
  split; [exact Hwf|].
  destruct (ledger_never_empty exGroup Hwf) as (_ & Hcommit & _ & Hrevoke).
  split; [|apply Hcommit].
  apply Hrevoke. intros f parts Hf. discriminate.
Defined.

(** ** [findNewAssignments]: what changes in [using] *)

Lemma findTopic_toChange MatchString g st topic tp t :
  fsToChange (findTopic MatchString g st (topic, tp)) !! t
  = if decide (t = topic) then
      match changeFor MatchString g (fsReSeen st) topic tp with
      | Some c => Some c
      | None => fsToChange st !! t
      end
    else fsToChange st !! t.
Proof.
  unfold findTopic, changeFor, wanted.
  destruct (using_ g !! topic) as [used|].
  { destruct (_ >? 0); simpl; destruct (decide (t = topic)) as [->|Hne]; try done.
    - by rewrite lookup_insert_eq.
    - by rewrite lookup_insert_ne. }
  destruct (regexTopics g).
  - destruct (decide (topic ∈ fsReSeen st)); simpl.
    { by destruct (decide (t = topic)). }
    destruct (matchTopics MatchString (topics g) topic) as [useTopic ev]. simpl.
    destruct useTopic, (isInternal tp); simpl;
      destruct (decide (t = topic)) as [->|Hne]; try done.
    + by rewrite lookup_insert_eq.
    + by rewrite lookup_insert_ne.
  - simpl. destruct (bool_decide (topic ∈ topics g)); simpl;
      destruct (decide (t = topic)) as [->|Hne]; try done.
    + by rewrite lookup_insert_eq.
    + by rewrite lookup_insert_ne.
Qed.

Lemma findTopic_numNew MatchString g st topic tp :
  fsNumNew (findTopic MatchString g st (topic, tp))
  = fsNumNew st
    + match changeFor MatchString g (fsReSeen st) topic tp with
      | Some c => if isNew c then 1 else 0
      | None => 0
      end.
Proof.
  unfold findTopic, changeFor, wanted.
  destruct (using_ g !! topic) as [used|].
  { destruct (_ >? 0); simpl; lia. }
  destruct (regexTopics g).
  - destruct (decide (topic ∈ fsReSeen st)); simpl; [lia|].
    destruct (matchTopics MatchString (topics g) topic) as [useTopic ev]. simpl.
    destruct useTopic, (isInternal tp); simpl; lia.
  - simpl. destruct (bool_decide (topic ∈ topics g)); simpl; lia.
Qed.

Lemma findTopic_reSeen_other MatchString g st topic tp t :
  t <> topic ->
  t ∈ fsReSeen (findTopic MatchString g st (topic, tp)) <-> t ∈ fsReSeen st.
Proof.
  intros Hne. unfold findTopic.
  destruct (using_ g !! topic) as [used|].
  { by destruct (_ >? 0). }
  destruct (regexTopics g).
  - destruct (decide (topic ∈ fsReSeen st)); simpl.
    { done. }
    destruct (matchTopics MatchString (topics g) topic) as [useTopic ev]. simpl.
    destruct useTopic, (isInternal tp); simpl; set_solver.
  - simpl. by destruct (bool_decide (topic ∈ topics g)).
Qed.

Lemma changeFor_seen MatchString g seen seen' topic tp :
  (topic ∈ seen <-> topic ∈ seen') ->
  changeFor MatchString g seen topic tp = changeFor MatchString g seen' topic tp.
Proof.
  intros Hseen. unfold changeFor, wanted.
  destruct (using_ g !! topic); [done|]. destruct (regexTopics g); [|done].
  destruct (decide (topic ∈ seen)), (decide (topic ∈ seen')); tauto.
Qed.

(** The loop over metadata that lists no topic twice. *)
Lemma findTopics_toChange MatchString g metadata :
  NoDup metadata.*1 ->
  forall st,
    let st' := foldl (findTopic MatchString g) st metadata in
    (forall t tp, (t, tp) ∈ metadata ->
       fsToChange st' !! t
       = match changeFor MatchString g (fsReSeen st) t tp with
         | Some c => Some c
         | None => fsToChange st !! t
         end)
    /\ (forall t, t ∉ metadata.*1 ->
          fsToChange st' !! t = fsToChange st !! t
          /\ (t ∈ fsReSeen st' <-> t ∈ fsReSeen st))
    /\ fsNumNew st <= fsNumNew st'
    /\ (fsNumNew st < fsNumNew st' <->
        exists t tp c, (t, tp) ∈ metadata
          /\ changeFor MatchString g (fsReSeen st) t tp = Some c /\ isNew c = true).
Proof.
  induction metadata as [|[topic tp] metadata IH]; intros Hnd st; simpl.
  { split; [by intros t tp ?%elem_of_nil|]. split; [done|]. split; [lia|].
    split; [lia|]. by intros (t & tp & c & ?%elem_of_nil & _). }
  simpl in Hnd. apply NoDup_cons in Hnd as [Hnin Hnd].
  destruct (IH Hnd (findTopic MatchString g st (topic, tp)))
    as (Hin & Hout & Hle & Hlt).
  pose proof (findTopic_numNew MatchString g st topic tp) as Hnum.
  assert (Hother : forall t tp', (t, tp') ∈ metadata ->
            changeFor MatchString g
              (fsReSeen (findTopic MatchString g st (topic, tp))) t tp'
            = changeFor MatchString g (fsReSeen st) t tp').
  { intros t tp' Ht. apply changeFor_seen, findTopic_reSeen_other.
    intros ->. apply Hnin. apply list_elem_of_fmap. by exists (topic, tp'). }
  split; [|split; [|split]].
  - intros t tp' Ht. apply elem_of_cons in Ht as [[= -> ->]|Ht].
    + destruct (Hout topic Hnin) as [-> _].
      rewrite findTopic_toChange. by rewrite decide_True.
    + rewrite (Hin _ _ Ht), (Hother _ _ Ht).
      rewrite findTopic_toChange. rewrite decide_False; [done|].
      intros ->. apply Hnin. apply list_elem_of_fmap. by exists (topic, tp').
  - intros t Ht. apply not_elem_of_cons in Ht as [Hne Ht].
    destruct (Hout t Ht) as [-> ->]. split.
    + rewrite findTopic_toChange. by rewrite decide_False.
    + by apply findTopic_reSeen_other.
  - destruct (changeFor MatchString g (fsReSeen st) topic tp) as [[[] d]|];
      simpl in Hnum; lia.
  - split.
    + intros Hgt.
      destruct (changeFor MatchString g (fsReSeen st) topic tp) as [c|] eqn:Hc.
      * destruct (isNew c) eqn:Hnew.
        { exists topic, tp, c. split; [by left|done]. }
        assert (Hgt' : fsNumNew (findTopic MatchString g st (topic, tp))
                       < fsNumNew (foldl (findTopic MatchString g)
                                     (findTopic MatchString g st (topic, tp)) metadata))
          by lia.
        apply Hlt in Hgt' as (t & tp' & c' & Ht & Hc' & Hnew').
        exists t, tp', c'. split; [by right|]. by rewrite <- (Hother _ _ Ht).
      * assert (Hgt' : fsNumNew (findTopic MatchString g st (topic, tp))
                       < fsNumNew (foldl (findTopic MatchString g)
                                     (findTopic MatchString g st (topic, tp)) metadata))
          by lia.
        apply Hlt in Hgt' as (t & tp' & c' & Ht & Hc' & Hnew').
        exists t, tp', c'. split; [by right|]. by rewrite <- (Hother _ _ Ht).
    + intros (t & tp' & c & Ht & Hc & Hnew).
      apply elem_of_cons in Ht as [[= -> ->]|Ht].
      * rewrite Hc, Hnew in Hnum. lia.
      * assert (fsNumNew (findTopic MatchString g st (topic, tp))
                < fsNumNew (foldl (findTopic MatchString g)
                              (findTopic MatchString g st (topic, tp)) metadata)).
        { apply Hlt. exists t, tp', c. by rewrite (Hother _ _ Ht). }
        destruct (changeFor MatchString g (fsReSeen st) topic tp) as [[[] d]|];
          simpl in Hnum; lia.
Qed.

Lemma applyChange_fold (u : gmap string Z) (toChange : gmap string change) t :
  map_fold applyChange u toChange !! t
  = match toChange !! t with
    | Some c => Some (default 0 (u !! t) + delta c)
    | None => u !! t
    end.
Proof.
  set (P := fun (r : gmap string Z) (m : gmap string change) =>
    r !! t = match m !! t with
             | Some c => Some (default 0 (u !! t) + delta c)
             | None => u !! t
             end).
  apply (map_fold_weak_ind P); unfold P.
  { by rewrite lookup_empty. }
  intros topic c m r Hm Hr. unfold applyChange.
  destruct (decide (t = topic)) as [->|Hne].
  - rewrite !lookup_insert_eq. rewrite Hm in Hr. by rewrite Hr.
  - by rewrite !lookup_insert_ne.
Qed.

(** [using] after the call, in terms of the entries of [toChange]. *)
Lemma findNewAssignments_using MatchString g metadata t :
  using_ (findNewAssignments MatchString g metadata).1 !! t
  = match fsToChange (foldl (findTopic MatchString g)
                            (mkFindState (reSeen g) ∅ 0 []) metadata) !! t with
    | Some c => Some (default 0 (using_ g !! t) + delta c)
    | None => using_ g !! t
    end.
Proof.
  unfold findNewAssignments.
  set (st := foldl (findTopic MatchString g) (mkFindState (reSeen g) ∅ 0 []) metadata).
  destruct (decide (size (fsToChange st) = 0%nat)) as [Hsize|Hsize]; simpl.
  { apply map_size_empty_iff in Hsize. by rewrite Hsize, lookup_empty. }
  destruct (_ || _); simpl; apply applyChange_fold.
Qed.

(** X7.  After a metadata update that lists no topic twice, [using] holds,
    for a listed topic already in use, the larger of the count in use and
    the listed partition count (a count never goes down); for a listed
    topic not in use, the listed count if the subscription takes the topic
    up (by name: it is one of the configured topics; by expression: it was
    not seen before, some expression matches and it is not internal) and
    nothing otherwise; a topic that is not listed keeps what it had. *)
Theorem findNewAssignments_using_after MatchString (g : groupConsumer)
    (metadata : list (string * topicPartitionsData)) :
  NoDup metadata.*1 ->
  let g' := (findNewAssignments MatchString g metadata).1 in
  (forall topic tp, (topic, tp) ∈ metadata ->
     using_ g' !! topic = usingAfter MatchString g topic tp)
  /\ (forall topic, topic ∉ metadata.*1 -> using_ g' !! topic = using_ g !! topic)
  /\ (forall topic used, using_ g !! topic = Some used ->
        exists used', using_ g' !! topic = Some used' /\ used <= used').
Proof.
  intros Hnd.
  destruct (findTopics_toChange MatchString g metadata Hnd
              (mkFindState (reSeen g) ∅ 0 [])) as (Hin & Hout & _).
  cbn [fsToChange fsReSeen] in *.
  assert (Hlisted : forall topic tp, (topic, tp) ∈ metadata ->
            using_ (findNewAssignments MatchString g metadata).1 !! topic
            = usingAfter MatchString g topic tp).
  { intros topic tp Ht. rewrite findNewAssignments_using, (Hin _ _ Ht).
    unfold changeFor, usingAfter. rewrite lookup_empty.
    destruct (using_ g !! topic) as [used|] eqn:Hused; simpl.
    - destruct (_ >? 0) eqn:Hgt; simpl; f_equal; lia.
    - destruct (wanted _ _ _ _ _); simpl; [f_equal; lia|done]. }
  assert (Hunlisted : forall topic, topic ∉ metadata.*1 ->
            using_ (findNewAssignments MatchString g metadata).1 !! topic
            = using_ g !! topic).
  { intros topic Ht. rewrite findNewAssignments_using.
    destruct (Hout _ Ht) as [-> _]. by rewrite lookup_empty. }
  split; [done|]. split; [done|].
  intros topic used Hused.
  destruct (decide (topic ∈ metadata.*1)) as [Ht|Ht].
  - apply list_elem_of_fmap in Ht as ([t tp] & -> & Ht). simpl in *.
    rewrite (Hlisted _ _ Ht). unfold usingAfter. rewrite Hused.
    eexists. split; [done|]. lia.
  - rewrite (Hunlisted _ Ht). exists used. split; [done|lia].
Qed.

Lemma findNewAssignments_using_after_witness :
  NoDup [("t"%string, mkTopicPartitionsData [0; 1; 2] false);
         ("u"%string, mkTopicPartitionsData [0] false)].*1
  /\ using_ (findNewAssignments exMatchString exLeader
               [("t"%string, mkTopicPartitionsData [0; 1; 2] false);
                ("u"%string, mkTopicPartitionsData [0] false)]).1 !! "t"%string
     = Some 3
  /\ using_ (findNewAssignments exMatchString exLeader
               [("t"%string, mkTopicPartitionsData [0; 1; 2] false);
                ("u"%string, mkTopicPartitionsData [0] false)]).1 !! "u"%string
     = Some 1.
Proof.
  assert (Hnd : NoDup [("t"%string, mkTopicPartitionsData [0; 1; 2] false);
                       ("u"%string, mkTopicPartitionsData [0] false)].*1).
  { apply (bool_decide_unpack (NoDup ["t"%string; "u"%string])). by vm_compute. }
  split; [exact Hnd|].
  destruct (findNewAssignments_using_after exMatchString exLeader _ Hnd) as (Hin & _).
  split.
  - rewrite (Hin "t"%string (mkTopicPartitionsData [0; 1; 2] false)); [by vm_compute|].
    by left.
  - rewrite (Hin "u"%string (mkTopicPartitionsData [0] false)); [by vm_compute|].
    right. by left.
Defined.

(** ** [findNewAssignments]: when it starts [manage] and signals a rejoin *)

Ltac in_events :=
  repeat first [ apply list_elem_of_here
               | apply list_elem_of_further
               | (apply elem_of_app; right) ].

Lemma matchTopics_events MatchString reTopics topic e :
  e ∈ (matchTopics MatchString reTopics topic).2 -> exists re t, e = EvMatchString re t.
Proof.
  destruct (matchTopics_prefix MatchString reTopics topic) as (tested & rest & _ & -> & _).
  intros (re & -> & _)%list_elem_of_fmap. eauto.
Qed.

Lemma findTopic_events MatchString g st entry e :
  e ∈ fsEvents (findTopic MatchString g st entry) ->
  e ∈ fsEvents st \/ exists re t, e = EvMatchString re t.
Proof.
  destruct entry as [topic tp]. unfold findTopic.
  destruct (using_ g !! topic) as [used|].
  { destruct (_ >? 0); simpl; auto. }
  destruct (regexTopics g).
  - destruct (decide (topic ∈ fsReSeen st)); simpl.
    { rewrite app_nil_r. auto. }
    pose proof (matchTopics_events MatchString (topics g) topic e) as Hev.
    destruct (matchTopics MatchString (topics g) topic) as [useTopic ev]. simpl in *.
    destruct useTopic, (isInternal tp); simpl;
      intros [?|?]%elem_of_app; auto.
  - simpl. destruct (bool_decide (topic ∈ topics g)); simpl;
      rewrite app_nil_r; auto.
Qed.

Lemma findTopics_events MatchString g metadata st e :
  e ∈ fsEvents (foldl (findTopic MatchString g) st metadata) ->
  e ∈ fsEvents st \/ exists re t, e = EvMatchString re t.
Proof.
  revert st. induction metadata as [|entry metadata IH]; intros st; simpl; [auto|].
  intros [He|He]%IH; [|by right]. by apply findTopic_events in He.
Qed.

(** X8.  A metadata update that lists no topic twice signals a rejoin
    exactly when it added a topic to [using], or when the member is the
    leader and the partition count of a topic in use went up; it starts
    [manage] exactly when it added a topic while [using] was empty.  A
    signal sets [rejoinCh]; without one the channel is as before. *)
Theorem findNewAssignments_signals MatchString (g : groupConsumer)
    (metadata : list (string * topicPartitionsData)) :
  NoDup metadata.*1 ->
  let g' := (findNewAssignments MatchString g metadata).1 in
  let ev := (findNewAssignments MatchString g metadata).2 in
  (EvRejoin ∈ ev <-> newTopic g g' \/ (leader g = true /\ grew g g'))
  /\ (EvManage ∈ ev <-> using_ g = ∅ /\ newTopic g g')
  /\ (EvRejoin ∈ ev -> rejoinCh g' = true)
  /\ (EvRejoin ∉ ev -> rejoinCh g' = rejoinCh g).
Proof.
  intros Hnd.
  pose proof (findNewAssignments_using MatchString g metadata) as Husing.
  destruct (findTopics_toChange MatchString g metadata Hnd
              (mkFindState (reSeen g) ∅ 0 [])) as (Hin & Hout & Hle & Hlt).
  pose proof (findTopics_events MatchString g metadata (mkFindState (reSeen g) ∅ 0 []))
    as Hevents.
  cbn [fsToChange fsReSeen fsNumNew fsEvents] in *.
  set (st := foldl (findTopic MatchString g) (mkFindState (reSeen g) ∅ 0 []) metadata)
    in *.
  (* an entry of [toChange] stems from a listed topic *)
  assert (Hentry : forall t c, fsToChange st !! t = Some c ->
            exists tp, (t, tp) ∈ metadata
              /\ changeFor MatchString g (reSeen g) t tp = Some c).
  { intros t c Hc. destruct (decide (t ∈ metadata.*1)) as [Ht|Ht].
    - apply list_elem_of_fmap in Ht as ([t' tp] & -> & Ht). simpl in *.
      exists tp. split; [done|]. rewrite (Hin _ _ Ht), lookup_empty in Hc.
      by destruct (changeFor MatchString g (reSeen g) t' tp).
    - destruct (Hout _ Ht) as [Hnone _]. rewrite Hnone, lookup_empty in Hc. done. }
  assert (Hnew : 0 < fsNumNew st <->
            newTopic g (findNewAssignments MatchString g metadata).1).
  { rewrite Hlt. split.
    - intros (t & tp & c & Ht & Hc & Hisnew). exists t.
      rewrite Husing, (Hin _ _ Ht), Hc. unfold changeFor in Hc.
      destruct (using_ g !! t) as [used|]; [|by eauto].
      destruct (_ >? 0); simplify_eq; done.
    - intros (t & Hnone & Hsome). rewrite Husing in Hsome.
      destruct (fsToChange st !! t) as [c|] eqn:Hc.
      2:{ rewrite Hnone in Hsome. by destruct Hsome. }
      destruct (Hentry _ _ Hc) as (tp & Ht & Hfor).
      exists t, tp, c. split; [done|]. split; [done|].
      unfold changeFor in Hfor. rewrite Hnone in Hfor.
      destruct (wanted _ _ _ _ _); by simplify_eq. }
  assert (Hgrew : grew g (findNewAssignments MatchString g metadata).1 ->
            exists t c, fsToChange st !! t = Some c).
  { intros (t & used & used' & Hused & Hused' & Hlt').
    rewrite Husing in Hused'. destruct (fsToChange st !! t) as [c|] eqn:Hc; [eauto|].
    rewrite Hused in Hused'. simplify_eq. lia. }
  assert (Hchange : forall t c, fsToChange st !! t = Some c ->
            newTopic g (findNewAssignments MatchString g metadata).1
            \/ grew g (findNewAssignments MatchString g metadata).1).
  { intros t c Hc. destruct (Hentry _ _ Hc) as (tp & Ht & Hfor).
    unfold changeFor in Hfor.
    destruct (using_ g !! t) as [used|] eqn:Hused.
    - right. exists t, used, (used + delta c). split; [done|].
      rewrite Husing, Hc, Hused. simpl. split; [done|].
      destruct (_ >? 0) eqn:Hgt; simplify_eq. simpl. lia.
    - left. exists t. split; [done|]. rewrite Husing, Hc. eauto. }
  assert (Hnorejoin : EvRejoin ∉ fsEvents st).
  { intros [He|(re & t & He)]%Hevents; [by apply elem_of_nil in He|done]. }
  assert (Hnomanage : EvManage ∉ fsEvents st).
  { intros [He|(re & t & He)]%Hevents; [by apply elem_of_nil in He|done]. }
  unfold findNewAssignments in *. fold st in Husing, Hnew, Hgrew, Hchange |- *.
  destruct (decide (size (fsToChange st) = 0%nat)) as [Hsize|Hsize];
    cbn [fst snd] in *.
  { apply map_size_empty_iff in Hsize.
    assert (Hnonew : ~ newTopic g (set_reSeen (fsReSeen st) g)).
    { intros (t & Hnone & Hsome). simpl in Hsome. rewrite Hnone in Hsome.
      by destruct Hsome. }
    assert (Hnogrew : ~ grew g (set_reSeen (fsReSeen st) g)).
    { intros (t & c & Hc)%Hgrew. by rewrite Hsize, lookup_empty in Hc. }
    repeat split; try tauto. }
  assert (Hsome : exists t c, fsToChange st !! t = Some c).
  { apply map_choose. by rewrite <- map_size_empty_iff. }
  destruct Hsome as (t0 & c0 & Hc0).
  pose proof (Hchange _ _ Hc0) as Hany.
  assert (Hempty : bool_decide (size (using_ (set_reSeen (fsReSeen st) g)) = 0%nat) = true
                   <-> using_ g = ∅).
  { simpl. rewrite bool_decide_eq_true. apply map_size_empty_iff. }
  assert (Hfirst : using_ g = ∅ ->
            newTopic g (findNewAssignments MatchString g metadata).1).
  { intros Hemp. unfold findNewAssignments. fold st.
    rewrite decide_False by done.
    destruct Hany as [?|(t & used & _ & Hused & _)]; [done|].
    by rewrite Hemp, lookup_empty in Hused. }
  unfold findNewAssignments in Hfirst. fold st in Hfirst.
  rewrite decide_False in Hfirst by done.
  destruct (fsNumNew st >? 0) eqn:Hnum;
    [apply Z.gtb_lt in Hnum | rewrite Z.gtb_ltb in Hnum; apply Z.ltb_ge in Hnum];
    cbn [orb] in *.
  - assert (Hyes : newTopic g
              (set_rejoinCh true
                 (set_using (map_fold applyChange (using_ (set_reSeen (fsReSeen st) g))
                               (fsToChange st)) (set_reSeen (fsReSeen st) g))))
      by (by apply Hnew).
    cbn [fst snd rejoin] in *.
    split; [|split; [|split]].
    + split; [by left|]. intros _. in_events.
    + split.
      * intros [He|[He|He]%elem_of_app]%elem_of_app; [done| |].
        -- destruct (bool_decide _) eqn:Hb; simpl in He.
           ++ split; [by apply Hempty|done].
           ++ by apply elem_of_nil in He.
        -- by apply list_elem_of_singleton in He.
      * intros [Hemp _]. apply Hempty in Hemp. rewrite Hemp. simpl. in_events.
    + done.
    + intros Hno. exfalso. apply Hno. in_events.
  - cbn [leader set_using set_reSeen] in *.
    destruct (leader g) eqn:Hleader; cbn [fst snd rejoin] in *.
    + split; [|split; [|split]].
      * split.
        -- intros _. destruct Hany as [?|?]; [by left|by right].
        -- intros _. in_events.
      * split.
        -- intros [He|[He|He]%elem_of_app]%elem_of_app; [done| |].
           ++ destruct (bool_decide _) eqn:Hb; simpl in He.
              ** split; [by apply Hempty|]. apply Hfirst. by apply Hempty.
              ** by apply elem_of_nil in He.
           ++ by apply list_elem_of_singleton in He.
        -- intros [Hemp _]. apply Hempty in Hemp. rewrite Hemp. simpl. in_events.
      * done.
      * intros Hno. exfalso. apply Hno. in_events.
    + assert (Hnonew : ~ newTopic g
                (set_using (map_fold applyChange (using_ (set_reSeen (fsReSeen st) g))
                              (fsToChange st)) (set_reSeen (fsReSeen st) g))).
      { intros Hyes. apply Hnew in Hyes. lia. }
      split; [|split; [|split]].
      * split.
        -- intros [He|He]%elem_of_app; [done|].
           destruct (bool_decide _); simpl in He;
             first [by apply elem_of_nil in He | by apply list_elem_of_singleton in He].
        -- intros [?|[? _]]; done.
      * split.
        -- intros [He|He]%elem_of_app; [done|].
           destruct (bool_decide _) eqn:Hb; simpl in He.
           ++ exfalso. apply Hnonew, Hfirst. by apply Hempty.
           ++ by apply elem_of_nil in He.
        -- intros [_ ?]. done.
      * intros [He|He]%elem_of_app; [done|].
        destruct (bool_decide _); simpl in He;
          first [by apply elem_of_nil in He | by apply list_elem_of_singleton in He].
      * done.
Qed.

Lemma findNewAssignments_signals_witness :
  NoDup [("t"%string, mkTopicPartitionsData [0; 1; 2] false)].*1
  /\ EvRejoin ∈ (findNewAssignments exMatchString exLeader
                   [("t"%string, mkTopicPartitionsData [0; 1; 2] false)]).2
  /\ rejoinCh (findNewAssignments exMatchString exLeader
                 [("t"%string, mkTopicPartitionsData [0; 1; 2] false)]).1 = true.
Proof.
  assert (Hnd : NoDup [("t"%string, mkTopicPartitionsData [0; 1; 2] false)].*1).
  { apply (bool_decide_unpack (NoDup ["t"%string])). by vm_compute. }
  split; [exact Hnd|].
  destruct (findNewAssignments_signals exMatchString exLeader _ Hnd)
    as (Hrejoin & _ & Hch & _).
  assert (He : EvRejoin ∈ (findNewAssignments exMatchString exLeader
                 [("t"%string, mkTopicPartitionsData [0; 1; 2] false)]).2).
  { apply Hrejoin. right. split; [reflexivity|].
    exists "t"%string, 1, 3. by vm_compute. }
  split; [exact He|]. exact (Hch He).
Defined.

(** ** [findNewAssignments] of a subscriber by name *)

Lemma findTopic_literal MatchString g st entry :
  regexTopics g = false ->
  fsReSeen (findTopic MatchString g st entry) = fsReSeen st
  /\ fsEvents (findTopic MatchString g st entry) = fsEvents st.
Proof.
  intros Hre. destruct entry as [topic tp]. unfold findTopic. rewrite Hre.
  destruct (using_ g !! topic) as [used|].
  { by destruct (_ >? 0). }
  simpl. destruct (bool_decide (topic ∈ topics g)); simpl; by rewrite app_nil_r.
Qed.

(** X9.  A subscriber by name never evaluates an expression and never
    touches [reSeen]: the only effects of a metadata update are the start
    of [manage] and the rejoin signal. *)
Theorem findNewAssignments_literal MatchString (g : groupConsumer)
    (metadata : list (string * topicPartitionsData)) :
  regexTopics g = false ->
  reSeen (findNewAssignments MatchString g metadata).1 = reSeen g
  /\ Forall (fun e => e = EvManage \/ e = EvRejoin)
            (findNewAssignments MatchString g metadata).2.
Proof.
  intros Hre.
  assert (Hfold : forall st,
            fsReSeen (foldl (findTopic MatchString g) st metadata) = fsReSeen st
            /\ fsEvents (foldl (findTopic MatchString g) st metadata) = fsEvents st).
  { induction metadata as [|entry metadata IH]; intros st; simpl; [done|].
    destruct (IH (findTopic MatchString g st entry)) as [-> ->].
    by apply findTopic_literal. }
  destruct (Hfold (mkFindState (reSeen g) ∅ 0 [])) as [Hseen Hev].
  unfold findNewAssignments.
  set (st := foldl (findTopic MatchString g) (mkFindState (reSeen g) ∅ 0 []) metadata)
    in *.
  simpl in Hseen, Hev.
  destruct (decide (size (fsToChange st) = 0%nat)); simpl.
  { rewrite Hev. by split. }
  destruct (_ || _); simpl; rewrite Hev; simpl; (split; [done|]);
    destruct (bool_decide _); simpl;
    repeat (apply Forall_cons_2; [first [by left | by right]|]); apply Forall_nil_2.
Qed.

Lemma findNewAssignments_literal_witness :
  regexTopics exLeader = false
  /\ (findNewAssignments exMatchString exLeader
        [("u"%string, mkTopicPartitionsData [0] true)]).2 = [EvRejoin]
  /\ Forall (fun e => e = EvManage \/ e = EvRejoin)
       (findNewAssignments exMatchString exLeader
          [("u"%string, mkTopicPartitionsData [0] true)]).2.
Proof.
  split; [reflexivity|]. split; [by vm_compute|].
  apply (findNewAssignments_literal exMatchString exLeader
           [("u"%string, mkTopicPartitionsData [0] true)] eq_refl).
Defined.

(** ** [fetchOffsets]: what a nil result means *)

Section KerrResult.

Context {error : Type}.
Context (ErrorForCode : Z -> option error).
Context (IsRetriable : error -> bool).
Context (errorsNew : string -> error).

Lemma fetchPartitions_inl version resetOffset topicOffsets rPartitions err :
  fetchPartitions ErrorForCode version resetOffset topicOffsets rPartitions = inl err ->
  exists code, code <> 0 /\ err = ErrorForCode code.
Proof.
  revert topicOffsets. induction rPartitions as [|rp rps IH]; intros topicOffsets; simpl.
  - done.
  - destruct (bool_decide (ofPartErrorCode rp ≠ 0)) eqn:Hcode.
    + intros [= <-]. apply bool_decide_eq_true_1 in Hcode. eauto.
    + apply IH.
Qed.

Lemma fetchTopics_inl version resetOffset offsets rTopics err :
  fetchTopics ErrorForCode version resetOffset offsets rTopics = inl err ->
  exists code, code <> 0 /\ err = ErrorForCode code.
Proof.
  revert offsets. induction rTopics as [|rt rts IH]; intros offsets; simpl.
  - done.
  - destruct (fetchPartitions ErrorForCode version resetOffset ∅ (ofPartitions rt))
      as [err'|topicOffsets] eqn:Hps.
    + intros [= <-]. by eapply fetchPartitions_inl.
    + apply IH.
Qed.

(** X10.  When every non-zero error code stands for an error,
    [fetchOffsets] returns nil exactly when it has handed offsets to the
    fetch pipeline, the pipeline has accepted them and
    [resetAndLoadOffsets] was called.  In every case the first thing it
    does is to send one OffsetFetch request for the group that lists each
    topic of [newAssigned] once, with that topic's partitions. *)
Theorem fetchOffsets_nil_iff_loaded (g : groupConsumer)
    (newAssigned : option (gmap string (list Z))) (resetOffset : kgoOffset)
    (reply : error + OffsetFetchResponse) (accepted : bool) :
  (forall code, code <> 0 -> is_Some (ErrorForCode code)) ->
  let r := fetchOffsets ErrorForCode IsRetriable errorsNew g newAssigned resetOffset
             reply accepted in
  (r.1 = None <-> EvResetAndLoadOffsets ∈ r.2)
  /\ (r.1 = None ->
      accepted = true
      /\ exists offsets how,
           EvMaybeAssignPartitions (Some offsets) how ∈ r.2
           /\ how = (if cooperative g then assignWithoutInvalidating
                     else assignInvalidateAll))
  /\ (exists req rest,
        r.2 = EvOffsetFetchRequest req :: rest
        /\ ofrGroup req = id g
        /\ list_to_map ((fun t => (ofrTopic t, ofrPartitions t)) <$> ofrTopics req)
           = default ∅ newAssigned
        /\ Forall (fun e => forall req', e <> EvOffsetFetchRequest req') rest).
Proof.
  intros Htotal. unfold fetchOffsets.
  set (req := mkOffsetFetchRequest (id g)
                ((fun tp => mkOffsetFetchRequestTopic tp.1 tp.2)
                   <$> map_to_list (default ∅ newAssigned))).
  assert (Hreq : list_to_map ((fun t => (ofrTopic t, ofrPartitions t)) <$> ofrTopics req)
                 = default ∅ newAssigned).
  { simpl.
    assert (Hback : forall l : list (string * list Z),
              (fun t => (ofrTopic t, ofrPartitions t))
                <$> ((fun tp => mkOffsetFetchRequestTopic tp.1 tp.2) <$> l) = l).
    { induction l as [|[t ps] l IH]; csimpl; [done|]. by rewrite IH. }
    rewrite Hback. apply list_to_map_to_list. }
  assert (Hbad : forall (rest : list event),
            EvResetAndLoadOffsets ∈ EvOffsetFetchRequest req :: rest ->
            EvResetAndLoadOffsets ∈ rest).
  { intros rest [?|?]%elem_of_cons; done. }
  destruct reply as [err|resp]; cbn zeta.
  { cbn [fst snd]. split; [|split].
    - split; [done|]. by intros ?%Hbad%elem_of_nil.
    - done.
    - exists req, []. repeat split; try done; try constructor. }
  assert (Hdecoded :
    let d := match fetchTopics ErrorForCode (ofVersion resp) resetOffset ∅
                     (ofTopics resp) with
             | inl err' => (err', [EvOffsetFetchRequest req])
             | inr offsets =>
                 if accepted then
                   (None, [EvOffsetFetchRequest req;
                           EvMaybeAssignPartitions (Some offsets)
                             (if cooperative g then assignWithoutInvalidating
                              else assignInvalidateAll);
                           EvResetAndLoadOffsets])
                 else
                   (Some (errorsNew "stale group"),
                    [EvOffsetFetchRequest req;
                     EvMaybeAssignPartitions (Some offsets)
                       (if cooperative g then assignWithoutInvalidating
                        else assignInvalidateAll)])
             end in
    (d.1 = None <-> EvResetAndLoadOffsets ∈ d.2)
    /\ (d.1 = None ->
        accepted = true
        /\ exists offsets how,
             EvMaybeAssignPartitions (Some offsets) how ∈ d.2
             /\ how = (if cooperative g then assignWithoutInvalidating
                       else assignInvalidateAll))
    /\ (exists req0 rest,
          d.2 = EvOffsetFetchRequest req0 :: rest
          /\ ofrGroup req0 = id g
          /\ list_to_map ((fun t => (ofrTopic t, ofrPartitions t)) <$> ofrTopics req0)
             = default ∅ newAssigned
          /\ Forall (fun e => forall req', e <> EvOffsetFetchRequest req') rest)).
  { cbn zeta.
    destruct (fetchTopics ErrorForCode (ofVersion resp) resetOffset ∅ (ofTopics resp))
      as [err'|offsets] eqn:Htopics.
    - apply fetchTopics_inl in Htopics as (code & Hcode & ->).
      destruct (Htotal code Hcode) as [e He]. rewrite He. cbn [fst snd].
      split; [|split].
      + split; [done|]. by intros ?%Hbad%elem_of_nil.
      + done.
      + exists req, []. repeat split; try done; try constructor.
    - destruct accepted; cbn [fst snd].
      + split; [|split].
        * split; [|done]. intros _.
          apply list_elem_of_further, list_elem_of_further, list_elem_of_here.
        * intros _. split; [done|]. exists offsets. eexists. split; [|done].
          apply list_elem_of_further, list_elem_of_here.
        * exists req. eexists. split; [done|]. repeat split; try done; try (repeat constructor; done).
      + split; [|split].
        * split; [done|]. intros Hin%Hbad.
          apply list_elem_of_singleton in Hin. done.
        * done.
        * exists req. eexists. split; [done|]. repeat split; try done; try (repeat constructor; done). }
  cbn zeta in Hdecoded.
  destruct (ErrorForCode (fetchErrCode resp)) as [err|]; [|exact Hdecoded].
  destruct (negb (IsRetriable err)); [|exact Hdecoded].
  cbn [fst snd]. split; [|split].
  - split; [done|]. by intros ?%Hbad%elem_of_nil.
  - done.
  - exists req, []. repeat split; try done; try constructor.
Qed.

End KerrResult.

Lemma fetchOffsets_nil_iff_loaded_witness :
  (forall code, code <> 0 -> is_Some (exErrorForCode code))
  /\ (fetchOffsets exErrorForCode exIsRetriable exErrorsNew exGroup
        (Some {[ "t"%string := [0; 1] ]}) exResetOffset (inr exFetchResponse) true).1
     = None
  /\ EvResetAndLoadOffsets
     ∈ (fetchOffsets exErrorForCode exIsRetriable exErrorsNew exGroup
          (Some {[ "t"%string := [0; 1] ]}) exResetOffset (inr exFetchResponse) true).2.
Proof.
  assert (Htotal : forall code, code <> 0 -> is_Some (exErrorForCode code)).
  { intros code Hcode. unfold exErrorForCode. rewrite decide_False by done. eauto. }
  split; [exact Htotal|].
  assert (Hnil : (fetchOffsets exErrorForCode exIsRetriable exErrorsNew exGroup
        (Some {[ "t"%string := [0; 1] ]}) exResetOffset (inr exFetchResponse) true).1
     = None) by (by vm_compute).
  split; [exact Hnil|].
  destruct (fetchOffsets_nil_iff_loaded exErrorForCode exIsRetriable exErrorsNew exGroup
              (Some {[ "t"%string := [0; 1] ]}) exResetOffset (inr exFetchResponse) true
              Htotal) as (Hiff & _).
  apply Hiff. exact Hnil.
Defined.

(** ** A commit that is acknowledged in full *)

(** The order of Go's [<] on strings. *)
Lemma Ascii_compare_trans a b c :
  Ascii.compare a b <> Gt -> Ascii.compare b c <> Gt -> Ascii.compare a c <> Gt.
Proof.
  unfold Ascii.compare. rewrite !N.compare_gt_iff. lia.
Qed.

Lemma String_compare_trans s1 s2 s3 :
  String.compare s1 s2 <> Gt -> String.compare s2 s3 <> Gt ->
  String.compare s1 s3 <> Gt.
Proof.
  revert s2 s3. induction s1 as [|c1 s1 IH]; intros [|c2 s2] [|c3 s3]; simpl; try done.
  destruct (Ascii.compare c1 c2) eqn:H12; try done;
    destruct (Ascii.compare c2 c3) eqn:H23; try done.
  - apply Ascii.compare_eq_iff in H12 as ->. apply Ascii.compare_eq_iff in H23 as ->.
    assert (Ascii.compare c3 c3 = Eq) as ->.
    { unfold Ascii.compare. apply N.compare_refl. }
    apply IH.
  - apply Ascii.compare_eq_iff in H12 as ->. by rewrite H23.
  - apply Ascii.compare_eq_iff in H23 as ->. by rewrite H12.
  - intros _ _.
    assert (Ascii.compare c1 c3 = Lt) as ->; [|done].
    unfold Ascii.compare in *. rewrite N.compare_lt_iff in *. lia.
Qed.

Lemma String_ltb_false s1 s2 : String.ltb s2 s1 = false <-> String.compare s1 s2 <> Gt.
Proof.
  unfold String.ltb. rewrite (String.compare_antisym s1 s2).
  destruct (String.compare s2 s1); simpl; split; done.
Qed.

Lemma String_le_trans s1 s2 s3 :
  String.ltb s2 s1 = false -> String.ltb s3 s2 = false -> String.ltb s3 s1 = false.
Proof. rewrite !String_ltb_false. apply String_compare_trans. Qed.

Lemma String_le_antisym s1 s2 :
  String.ltb s2 s1 = false -> String.ltb s1 s2 = false -> s1 = s2.
Proof.
  rewrite !String_ltb_false. intros H12 H21. apply String.compare_eq_iff.
  rewrite (String.compare_antisym s2 s1) in H21.
  by destruct (String.compare s1 s2).
Qed.

(** Two slices whose keys are permutations of each other have the same
    keys at the same positions once each is sorted by key. *)
Section Align.

Context {A B K : Type} (ka : A -> K) (kb : B -> K) (ltb : K -> K -> bool).
Hypothesis ltb_asym : forall x y, ltb x y = true -> ltb y x = false.
Hypothesis le_trans : forall x y z, ltb y x = false -> ltb z y = false -> ltb z x = false.
Hypothesis le_antisym : forall x y, ltb y x = false -> ltb x y = false -> x = y.

Lemma sortSlice_keys_sorted {C : Type} (k : C -> K) (l : list C) :
  StronglySorted (fun x y => ltb y x = false)
    (k <$> sortSlice (fun a b => ltb (k a) (k b)) l).
Proof.
  apply Sorted_StronglySorted.
  { intros x y z. apply le_trans. }
  apply (Sorted_fmap k (fun a b => ltb (k b) (k a) = false)); [done|].
  apply (sortSlice_Sorted (fun a b => ltb (k a) (k b))).
  intros a b. apply ltb_asym.
Qed.

Lemma sortSlice_keys (la : list A) (lb : list B) :
  kb <$> lb ≡ₚ ka <$> la ->
  kb <$> sortSlice (fun a b => ltb (kb a) (kb b)) lb
  = ka <$> sortSlice (fun a b => ltb (ka a) (ka b)) la.
Proof.
  intros Hperm.
  assert (Hanti : AntiSymm eq (fun x y : K => ltb y x = false)).
  { intros x y. apply le_antisym. }
  apply (StronglySorted_unique (fun x y => ltb y x = false)).
  - apply sortSlice_keys_sorted.
  - apply sortSlice_keys_sorted.
  - by rewrite !sortSlice_Permutation.
Qed.

Lemma sortSlice_aligned (la : list A) (lb : list B) (a : A) :
  kb <$> lb ≡ₚ ka <$> la ->
  a ∈ la ->
  exists i b,
    sortSlice (fun a b => ltb (ka a) (ka b)) la !! i = Some a
    /\ sortSlice (fun a b => ltb (kb a) (kb b)) lb !! i = Some b
    /\ kb b = ka a /\ b ∈ lb.
Proof.
  intros Hperm Ha. pose proof (sortSlice_keys la lb Hperm) as Hkeys.
  assert (Hin : a ∈ sortSlice (fun a b => ltb (ka a) (ka b)) la)
    by (by rewrite sortSlice_Permutation).
  apply list_elem_of_lookup in Hin as [i Hi].
  assert (Hk : (ka <$> sortSlice (fun a b => ltb (ka a) (ka b)) la) !! i = Some (ka a))
    by (by rewrite list_lookup_fmap, Hi).
  rewrite <- Hkeys, list_lookup_fmap in Hk.
  destruct (sortSlice (fun a b => ltb (kb a) (kb b)) lb !! i) as [b|] eqn:Hb; [|done].
  simpl in Hk. exists i, b. repeat split; try done; [congruence|].
  rewrite <- (sortSlice_Permutation (fun a b => ltb (kb a) (kb b)) lb).
  by eapply list_elem_of_lookup_2.
Qed.

End Align.

Lemma Exists_zip_lookup {A B : Type} (P : A * B -> Prop) (la : list A) (lb : list B)
    i a b :
  la !! i = Some a -> lb !! i = Some b -> P (a, b) -> Exists P (zip la lb).
Proof.
  intros Ha Hb HP. apply Exists_exists. exists (a, b). split; [|done].
  apply list_elem_of_lookup. exists i. apply lookup_zip_with_Some. eauto.
Qed.

(** The request [buildTopics] fills in holds one topic entry per topic of
    the offsets and one partition entry per partition, with that
    partition's offset and epoch. *)
Lemma buildTopics_topic memberID (s : offsets) rt :
  rt ∈ buildTopics memberID s <->
  exists ps, s !! rqTopic rt = Some ps
    /\ rqPartitions rt
       = (fun pe => mkCommitRequestPartition pe.1 (Offset pe.2) (Epoch pe.2)
                      (Some memberID)) <$> map_to_list ps.
Proof.
  unfold buildTopics. rewrite list_elem_of_fmap. split.
  - intros ([t ps] & -> & Hin). apply elem_of_map_to_list in Hin. simpl. eauto.
  - intros (ps & Hps & Hparts). exists (rqTopic rt, ps). split.
    + destruct rt as [t parts]. simpl in *. by rewrite Hparts.
    + by apply elem_of_map_to_list.
Qed.

Lemma buildTopics_partition memberID (ps : gmap Z EpochOffset) rq :
  rq ∈ (fun pe => mkCommitRequestPartition pe.1 (Offset pe.2) (Epoch pe.2)
                    (Some memberID)) <$> map_to_list ps <->
  exists eo, ps !! rqPartition rq = Some eo
    /\ rq = mkCommitRequestPartition (rqPartition rq) (Offset eo) (Epoch eo)
              (Some memberID).
Proof.
  rewrite list_elem_of_fmap. split.
  - intros ([p eo] & -> & Hin). apply elem_of_map_to_list in Hin. simpl. eauto.
  - intros (eo & Hps & Hrq). exists (rqPartition rq, eo). split; [done|].
    by apply elem_of_map_to_list.
Qed.

(** What a request partition acknowledged for [topic]/[p] carries. *)
Lemma acked_buildTopics memberID (s : offsets) respTopics topic p rq :
  acked (buildTopics memberID s) respTopics topic p rq ->
  exists eo, offsetsEntry (Some s) topic p = Some eo
    /\ mkEpochOffset (rqLeaderEpoch rq) (rqOffset rq) = eo.
Proof.
  unfold acked. rewrite Exists_exists.
  intros ([rt pt] & Hin & Hrt & _ & _ & Hparts). simpl in *.
  apply elem_of_zip_l in Hin. rewrite sortSlice_Permutation in Hin.
  apply buildTopics_topic in Hin as (ps & Hps & Hrqs).
  apply Exists_exists in Hparts as ([rq' rp] & Hin' & <- & Hp & _). simpl in *.
  apply elem_of_zip_l in Hin'. rewrite sortSlice_Permutation, Hrqs in Hin'.
  apply buildTopics_partition in Hin' as (eo & Heo & Hrq).
  exists eo. unfold offsetsEntry. rewrite <- Hrt, Hps, <- Hp, Heo.
  split; [done|]. rewrite Hrq. simpl. by destruct eo.
Qed.

(** A response that acknowledges the whole request acknowledges each of
    its partitions. *)
Lemma fullAck_acked memberID (s : offsets) respTopics topic p eo :
  fullAck (buildTopics memberID s) respTopics ->
  offsetsEntry (Some s) topic p = Some eo ->
  exists rq, acked (buildTopics memberID s) respTopics topic p rq.
Proof.
  intros [Htopics Hparts] Heo. unfold offsetsEntry in Heo.
  destruct (s !! topic) as [ps|] eqn:Hps; [|done].
  set (rqs := (fun pe => mkCommitRequestPartition pe.1 (Offset pe.2) (Epoch pe.2)
                           (Some memberID)) <$> map_to_list ps).
  set (rt := mkCommitRequestTopic topic rqs).
  set (rq := mkCommitRequestPartition p (Offset eo) (Epoch eo) (Some memberID)).
  assert (Hrt : rt ∈ buildTopics memberID s).
  { apply buildTopics_topic. exists ps. by split. }
  assert (Hrq : rq ∈ rqs).
  { apply buildTopics_partition. exists eo. by split. }
  destruct (sortSlice_aligned rqTopic rsTopic String.ltb String_ltb_asymmetric
              String_le_trans String_le_antisym
              (buildTopics memberID s) respTopics rt Htopics Hrt)
    as (i & pt & Hi & Hpt & Hkey & Hptin).
  destruct (Hparts rt pt Hrt Hptin (eq_sym Hkey)) as [Hperm Hcodes].
  destruct (sortSlice_aligned rqPartition rsPartition Z.ltb
              ltac:(intros; lia) ltac:(intros; lia) ltac:(intros; lia)
              (rqPartitions rt) (rsPartitions pt) rq Hperm Hrq)
    as (j & rp & Hj & Hrp & Hpkey & Hrpin).
  exists rq. unfold acked.
  apply (Exists_zip_lookup _ _ _ i rt pt Hi Hpt).
  unfold ackedTopic. cbn [fst snd]. split; [done|]. split; [done|].
  split.
  { apply Permutation_length in Hperm. by rewrite !length_fmap in Hperm. }
  apply (Exists_zip_lookup _ _ _ j rq rp Hj Hrp).
  unfold ackedPartition. cbn [fst snd]. split; [done|]. split; [done|].
  split; [done|].
  rewrite Forall_forall in Hcodes. by apply Hcodes.
Qed.

(** The loop of [updateCommitted] over a request built by [buildTopics]
    and a response that acknowledges it in full. *)
Lemma commitTopics_full_ack (u : ledger) memberID (s : offsets) respTopics topic p :
  fullAck (buildTopics memberID s) respTopics ->
  entry (Some (commitTopics u (sortSlice reqTopicLess (buildTopics memberID s))
                              (sortSlice respTopicLess respTopics)).1.1) topic p
  = (fun un => withCommitted un (offsetsEntry (Some s) topic p))
      <$> entry (Some u) topic p.
Proof.
  intros Hack.
  pose proof (commitTopics_entryStep u (sortSlice reqTopicLess (buildTopics memberID s))
                (sortSlice respTopicLess respTopics) topic p) as Hstep.
  destruct (entry (Some u) topic p) as [un|] eqn:Hun; unfold entryStep in Hstep;
    [|by rewrite Hstep].
  destruct Hstep as (un' & Heq & Hhead & Hcommitted). rewrite Heq. simpl. f_equal.
  destruct un' as [h' c']. simpl in *. subst h'. unfold withCommitted. f_equal.
  destruct Hcommitted as [(rq & Hrq & ->) | [Hnone ->]].
  - apply (acked_buildTopics memberID s respTopics) in Hrq as (eo & Heo & <-).
    unfold offsetsEntry in Heo. by rewrite Heo.
  - destruct (offsetsEntry (Some s) topic p) as [eo|] eqn:Heo;
      [|by unfold offsetsEntry in Heo; rewrite Heo].
    destruct (fullAck_acked memberID s respTopics topic p eo Hack Heo) as [rq Hrq].
    by destruct (Hnone rq).
Qed.

Lemma fullAck_length reqTopics respTopics :
  fullAck reqTopics respTopics -> length reqTopics = length respTopics.
Proof.
  intros [Hperm _]. apply Permutation_length in Hperm.
  by rewrite !length_fmap in Hperm.
Qed.

(** [updateCommitted] or [updateCommittedTxn] on such a request and
    response. *)
Lemma applyUpdate_entries (g : groupConsumer) (r : commitRequest) (resp : commitResponse)
    memberID (s : offsets) topic p :
  sameKind r resp = true ->
  (forall req, r = PlainRequest req -> ocGeneration req = generation g) ->
  requestTopics r = buildTopics memberID s ->
  fullAck (requestTopics r) (responseTopics resp) ->
  entry (uncommitted (applyUpdate g r resp).1.1) topic p
  = (fun un => withCommitted un (offsetsEntry (Some s) topic p))
      <$> entry (uncommitted g) topic p.
Proof.
  intros Hkind Hgen Htopics Hack.
  pose proof (fullAck_length _ _ Hack) as Hlen. rewrite Htopics in Hack.
  destruct r as [req|req], resp as [rs|rs]; try done; simpl in *.
  - unfold updateCommitted.
    rewrite bool_decide_eq_false_2 by (intros Hne; apply Hne, Hgen; done).
    destruct (uncommitted g) as [u|] eqn:Hu; [|by simpl; rewrite Hu].
    rewrite bool_decide_eq_false_2 by (intros Hne; done).
    rewrite Htopics.
    pose proof (commitTopics_full_ack u memberID s (ocrTopics rs) topic p Hack) as Hstep.
    destruct (commitTopics _ _ _) as [[u' rts] pts]. done.
  - unfold updateCommittedTxn.
    destruct (uncommitted g) as [u|] eqn:Hu; [|by simpl; rewrite Hu].
    rewrite bool_decide_eq_false_2 by (intros Hne; done).
    rewrite Htopics.
    pose proof (commitTopics_full_ack u memberID s (tcrTopics rs) topic p Hack) as Hstep.
    destruct (commitTopics _ _ _) as [[u' rts] pts]. done.
Qed.

Lemma exSnapshot_fullAck :
  fullAck (requestTopics exSnapshotRequest) (responseTopics exSnapshotResponse).
Proof.
  split; [by vm_compute|].
  intros rt pt Hrt Hpt _.
  assert (rt = mkCommitRequestTopic "t"
                 [mkCommitRequestPartition 0 11 3 (Some "member-1"%string)]) as ->.
  { vm_compute in Hrt. by apply list_elem_of_singleton in Hrt. }
  assert (pt = mkCommitResponseTopic "t" [mkCommitResponsePartition 0 0]) as ->.
  { vm_compute in Hpt. by apply list_elem_of_singleton in Hpt. }
  split; [done|]. by repeat constructor.
Qed.

(** X11.  When the response to a commit request built from the offsets
    [s] lists the request's topics and partitions, in any order, all with
    error code 0 (and the generation is still the request's, for a
    non-transactional commit), the ledger update records for every ledger
    entry that [s] covers the offset and epoch of [s] as committed, and
    leaves every other entry and every head as they were. *)
Theorem applyUpdate_full_ack (g : groupConsumer) (r : commitRequest)
    (resp : commitResponse) (memberID : string) (s : offsets) :
  sameKind r resp = true ->
  (forall req, r = PlainRequest req -> ocGeneration req = generation g) ->
  requestTopics r = buildTopics memberID s ->
  fullAck (requestTopics r) (responseTopics resp) ->
  forall topic p,
    entry (uncommitted (applyUpdate g r resp).1.1) topic p
    = (fun un => withCommitted un (offsetsEntry (Some s) topic p))
        <$> entry (uncommitted g) topic p.
Proof.
  intros Hkind Hgen Htopics Hack topic p. by eapply applyUpdate_entries.
Qed.

Lemma applyUpdate_full_ack_witness :
  sameKind exSnapshotRequest exSnapshotResponse = true
  /\ fullAck (requestTopics exSnapshotRequest) (responseTopics exSnapshotResponse)
  /\ entry (uncommitted (applyUpdate exGroup exSnapshotRequest exSnapshotResponse).1.1)
           "t" 0
     = Some (mkUncommit (mkEpochOffset 3 11) (mkEpochOffset 3 11)).
Proof.
  assert (Hgen : forall req, exSnapshotRequest = PlainRequest req ->
                   ocGeneration req = generation exGroup).
  { intros req [= <-]. reflexivity. }
  split; [reflexivity|]. split; [exact exSnapshot_fullAck|].
  rewrite (applyUpdate_full_ack exGroup exSnapshotRequest exSnapshotResponse
             "member-1" exSnapshot eq_refl Hgen eq_refl exSnapshot_fullAck).
  by vm_compute.
Defined.

(** X12.  Committing everything that is uncommitted closes the loop: when
    the request carries the snapshot [getUncommittedLocked] returned, the
    response acknowledges it in full and no records were delivered in
    between, no ledger entry is dirty after the update and the next
    snapshot is nil. *)
Theorem commit_snapshot_cleans (g : groupConsumer) (r : commitRequest)
    (resp : commitResponse) (memberID : string) (s : offsets) :
  getUncommittedLocked g = Some s ->
  sameKind r resp = true ->
  (forall req, r = PlainRequest req -> ocGeneration req = generation g) ->
  requestTopics r = buildTopics memberID s ->
  fullAck (requestTopics r) (responseTopics resp) ->
  getUncommittedLocked (applyUpdate g r resp).1.1 = None
  /\ clean (uncommitted (applyUpdate g r resp).1.1).
Proof.
  intros Hs Hkind Hgen Htopics Hack.
  assert (Hclean : clean (uncommitted (applyUpdate g r resp).1.1)).
  { intros topic p un' Hun'.
    rewrite (applyUpdate_entries g r resp memberID s topic p Hkind Hgen Htopics Hack)
      in Hun'.
    destruct (entry (uncommitted g) topic p) as [un|] eqn:Hun; [|done].
    simpl in Hun'. injection Hun' as <-.
    pose proof (snapshot_entries g topic p) as Hentry.
    rewrite Hs, Hun in Hentry. unfold offsetsEntry in Hentry.
    unfold withCommitted. simpl. rewrite Hentry. simpl.
    destruct (decide (head un = committed un)); simpl; done. }
  split; [|done].
  by apply snapshot_nil_iff_clean.
Qed.

Lemma commit_snapshot_cleans_witness :
  getUncommittedLocked exGroup = Some exSnapshot
  /\ getUncommittedLocked
       (applyUpdate exGroup exSnapshotRequest exSnapshotResponse).1.1 = None.
Proof.
  assert (Hs : getUncommittedLocked exGroup = Some exSnapshot) by (by vm_compute).
  assert (Hgen : forall req, exSnapshotRequest = PlainRequest req ->
                   ocGeneration req = generation exGroup).
  { intros req [= <-]. reflexivity. }
  split; [exact Hs|].
  apply (commit_snapshot_cleans exGroup exSnapshotRequest exSnapshotResponse
           "member-1" exSnapshot Hs eq_refl Hgen eq_refl exSnapshot_fullAck).
Defined.

(** ** [diffAssigned]: empty maps *)

Lemma appendTo_noNil m topic p : noNil m -> noNil (appendTo m topic p).
Proof.
  intros Hm t ps. unfold appendTo. destruct (decide (t = topic)) as [->|Hne].
  - rewrite lookup_insert_eq. intros [= <-]. by destruct (default [] (m !! topic)).
  - rewrite lookup_insert_ne by done. apply Hm.
Qed.

Lemma diffNow_noNil topic l added lasts :
  noNil added -> noNil (foldl (diffNow topic) (added, lasts) l).1.
Proof.
  revert added lasts. induction l as [|p l IH]; intros added lasts Hadded; simpl; [done|].
  destruct (decide (p ∈ lasts)); apply IH; [done|]. by apply appendTo_noNil.
Qed.

Lemma lost_noNil topic l (lost : gmap string (list Z)) (s : gset Z) :
  noNil lost ->
  noNil (foldl (fun st last => (appendTo st.1 topic last, st.2 ∖ {[last]})) (lost, s) l).1.
Proof.
  revert lost s. induction l as [|p l IH]; intros lost s Hlost; simpl; [done|].
  apply IH. by apply appendTo_noNil.
Qed.

Lemma diffTopic_noNil now topic lastPartitions added lost lasts :
  lastPartitions <> [] -> noNil added -> noNil lost ->
  noNil (diffTopic now topic lastPartitions (added, lost, lasts)).1.1
  /\ noNil (diffTopic now topic lastPartitions (added, lost, lasts)).1.2.
Proof.
  intros Hne Hadded Hlost. unfold diffTopic.
  destruct (goLookup now topic) as [nowPartitions|]; simpl.
  2:{ split; [done|]. intros t ps. destruct (decide (t = topic)) as [->|Hnt].
      - rewrite lookup_insert_eq. by intros [= <-].
      - rewrite lookup_insert_ne by done. apply Hlost. }
  pose proof (diffNow_noNil topic nowPartitions added
                (foldl (fun s p => {[p]} ∪ s) lasts lastPartitions) Hadded) as Ha.
  destruct (foldl (diffNow topic) _ nowPartitions) as [added1 lasts2]. simpl in *.
  pose proof (lost_noNil topic (elements lasts2) lost lasts2 Hlost) as Hl.
  destruct (foldl _ (lost, lasts2) (elements lasts2)) as [lost1 lasts3]. done.
Qed.

Lemma diffAssigned_noNil (g : groupConsumer) (last : gmap string (list Z)) :
  lastAssigned g = Some last ->
  noNil last -> noNil (default ∅ (nowAssigned g)) ->
  noNil (default ∅ (diffAssigned g).1) /\ noNil (default ∅ (diffAssigned g).2).
Proof.
  intros Hlast Hnl Hnn. unfold diffAssigned. rewrite Hlast.
  assert (Hfirst : noNil (map_fold (diffTopic (nowAssigned g)) (∅, ∅, ∅) last).1.1
                   /\ noNil (map_fold (diffTopic (nowAssigned g)) (∅, ∅, ∅) last).1.2).
  { set (P := fun (st : gmap string (list Z) * gmap string (list Z) * gset Z)
                  (m : gmap string (list Z)) =>
                m ⊆ last -> noNil st.1.1 /\ noNil st.1.2).
    enough (HP : P (map_fold (diffTopic (nowAssigned g)) (∅, ∅, ∅) last) last)
      by (by apply HP).
    apply (map_fold_weak_ind P); unfold P.
    { intros _. simpl. split; intros t ps; by rewrite lookup_empty. }
    intros topic ps m [[added lost] lasts] Hm IH Hsub. cbn [fst snd] in *.
    assert (Hin : last !! topic = Some ps).
    { eapply lookup_weaken; [|exact Hsub]. by rewrite lookup_insert_eq. }
    assert (Hsub' : m ⊆ last).
    { etrans; [|exact Hsub]. by apply insert_subseteq. }
    destruct (IH Hsub') as [Ha Hl].
    apply diffTopic_noNil; eauto. }
  destruct (map_fold (diffTopic (nowAssigned g)) (∅, ∅, ∅) last)
    as [[added lost] lasts]. cbn [fst snd] in *. destruct Hfirst as [Ha Hl].
  split; [|done].
  change (noNil (map_fold (diffNewTopic last) added (default ∅ (nowAssigned g)))).
  intros t ps. rewrite diffAssigned_second_loop.
  destruct (default ∅ (nowAssigned g) !! t) as [nowPartitions|] eqn:Hnow; [|apply Ha].
  destruct (last !! t); [apply Ha|]. intros [= <-]. by eapply Hnn.
Qed.

(** The partitions lost and added, as sets. *)
Lemma diffAssigned_members (g : groupConsumer) (last : gmap string (list Z)) :
  lastAssigned g = Some last ->
  map_Forall (fun _ ps => NoDup ps) (default ∅ (nowAssigned g)) ->
  (forall t p,
      assigned (diffAssigned g).2 t p
      <-> assigned (Some last) t p /\ ~ assigned (nowAssigned g) t p)
  /\ (forall t p,
        assigned (diffAssigned g).1 t p
        <-> assigned (nowAssigned g) t p /\ ~ assigned (Some last) t p).
Proof.
  intros Hlast Hnodup. unfold diffAssigned. rewrite Hlast.
  destruct (diffAssigned_first_loop (nowAssigned g) last) as (_ & Hnone & Hdone).
  pose proof (diffAssigned_second_loop last
                (map_fold (diffTopic (nowAssigned g)) (∅, ∅, ∅) last).1.1
                (default ∅ (nowAssigned g))) as Hsecond.
  destruct (map_fold (diffTopic (nowAssigned g)) (∅, ∅, ∅) last)
    as [[added1 lost1] lasts]. cbn [fst snd] in *.
  assert (Hnow : forall t, default ∅ (nowAssigned g) !! t = goLookup (nowAssigned g) t).
  { intros t. destruct (nowAssigned g); simpl; [done|]. by rewrite lookup_empty. }
  assert (Hnd : forall t ps, goLookup (nowAssigned g) t = Some ps -> NoDup ps).
  { intros t ps Ht. rewrite <- Hnow in Ht. by apply (Hnodup t ps). }
  split.
  - intros t p. unfold assigned. simpl. split.
    + intros (ps & Hps & Hp). destruct (last !! t) as [lastPs|] eqn:Hl.
      2:{ destruct (Hnone t Hl) as [_ Hl1]. congruence. }
      specialize (Hdone t lastPs Hl). unfold topicDiffed in Hdone.
      destruct (goLookup (nowAssigned g) t) as [nowPs|] eqn:Hn.
      * destruct Hdone as (Hl1 & _). rewrite Hps in Hl1. simpl in Hl1.
        apply Hl1 in Hp as [Hp Hnp]. split; [by eexists|].
        intros (ps' & Hps' & Hp'). congruence.
      * destruct Hdone as [Hl1 _]. split; [exists lastPs; split; congruence|].
        intros (ps' & Hps' & _). congruence.
    + intros [(lastPs & Hl & Hp) Hnot]. specialize (Hdone t lastPs Hl).
      unfold topicDiffed in Hdone.
      destruct (goLookup (nowAssigned g) t) as [nowPs|] eqn:Hn.
      * destruct Hdone as (Hl1 & _).
        assert (Hin : p ∈ default [] (lost1 !! t)).
        { apply Hl1. split; [done|]. intros Hpn. apply Hnot. by exists nowPs. }
        destruct (lost1 !! t) as [ps|]; simpl in Hin; [by exists ps|].
        by apply elem_of_nil in Hin.
      * destruct Hdone as [Hl1 _]. by exists lastPs.
  - intros t p. unfold assigned. simpl. rewrite Hsecond, Hnow. split.
    + intros (ps & Hps & Hp).
      destruct (goLookup (nowAssigned g) t) as [nowPs|] eqn:Hn.
      * destruct (last !! t) as [lastPs|] eqn:Hl.
        -- specialize (Hdone t lastPs Hl). unfold topicDiffed in Hdone.
           rewrite Hn in Hdone. destruct Hdone as (_ & _ & Hin & Hnl).
           rewrite Hps in Hin, Hnl. simpl in *.
           split; [exists nowPs; split; [done|by apply Hin]|].
           intros (ps' & Hps' & Hp'). simplify_eq.
           by apply (Hnl (Hnd t nowPs Hn) p).
        -- simplify_eq. split; [by exists ps|]. intros (ps' & Hps' & _). congruence.
      * destruct (last !! t) as [lastPs|] eqn:Hl.
        -- specialize (Hdone t lastPs Hl). unfold topicDiffed in Hdone.
           rewrite Hn in Hdone. destruct Hdone as [_ Ha]. congruence.
        -- destruct (Hnone t Hl) as [Ha _]. congruence.
    + intros [(nowPs & Hn & Hp) Hnot]. rewrite Hn.
      destruct (last !! t) as [lastPs|] eqn:Hl; [|by exists nowPs].
      specialize (Hdone t lastPs Hl). unfold topicDiffed in Hdone.
      rewrite Hn in Hdone. destruct Hdone as (_ & Hadd & _).
      assert (Hin : p ∈ default [] (added1 !! t)).
      { apply Hadd; [done|]. intros Hpl. apply Hnot. by exists lastPs. }
      destruct (added1 !! t) as [ps|]; simpl in Hin; [by exists ps|].
      by apply elem_of_nil in Hin.
Qed.

Lemma assigned_dec (m : option (gmap string (list Z))) t p :
  assigned m t p \/ ~ assigned m t p.
Proof.
  unfold assigned. destruct (goLookup m t) as [ps|]; [|right; naive_solver].
  destruct (decide (p ∈ ps)); [left; eauto|right]. intros (ps' & [= <-] & ?). done.
Qed.

Lemma noNil_empty_iff (m : option (gmap string (list Z))) :
  noNil (default ∅ m) ->
  goLen m = 0%nat <-> forall t p, ~ assigned m t p.
Proof.
  intros Hm. destruct m as [m|]; simpl in *.
  2:{ split; [|done]. intros _ t p (ps & Hps & _). done. }
  rewrite map_size_empty_iff. split.
  - intros -> t p (ps & Hps & _). simpl in Hps. by rewrite lookup_empty in Hps.
  - intros Hnone. apply map_empty. intros t.
    destruct (m !! t) as [ps|] eqn:Hps; [|done].
    destruct ps as [|p ps]; [by destruct (Hm t [] Hps)|].
    destruct (Hnone t p). exists (p :: ps). split; [done|]. by left.
Qed.

(** X13.  With a previous assignment, assignments that list no topic
    without partitions and no partition twice: the map of lost partitions
    is empty exactly when every partition assigned before is still
    assigned, and the map of added partitions is empty exactly when every
    partition assigned now was assigned before; neither map ever holds a
    topic with an empty list.  (The lengths of the two maps are what
    [revoke] and [setupAssigned] test.) *)
Theorem diffAssigned_empty_iff (g : groupConsumer) (last : gmap string (list Z)) :
  lastAssigned g = Some last ->
  noNil last ->
  noNil (default ∅ (nowAssigned g)) ->
  map_Forall (fun _ ps => NoDup ps) (default ∅ (nowAssigned g)) ->
  (goLen (diffAssigned g).2 = 0%nat
   <-> forall t p, assigned (Some last) t p -> assigned (nowAssigned g) t p)
  /\ (goLen (diffAssigned g).1 = 0%nat
      <-> forall t p, assigned (nowAssigned g) t p -> assigned (Some last) t p)
  /\ noNil (default ∅ (diffAssigned g).1)
  /\ noNil (default ∅ (diffAssigned g).2).
Proof.
  intros Hlast Hnl Hnn Hnd.
  destruct (diffAssigned_noNil g last Hlast Hnl Hnn) as [Ha Hl].
  destruct (diffAssigned_members g last Hlast Hnd) as [Hlost Hadded].
  split; [|split; [|done]].
  - rewrite (noNil_empty_iff _ Hl). split.
    + intros Hnone t p Hp.
      destruct (assigned_dec (nowAssigned g) t p) as [?|Hnot]; [done|].
      destruct (Hnone t p). by apply Hlost.
    + intros Hall t p [Hp Hnot]%Hlost. by apply Hnot, Hall.
  - rewrite (noNil_empty_iff _ Ha). split.
    + intros Hnone t p Hp.
      destruct (assigned_dec (Some last) t p) as [?|Hnot]; [done|].
      destruct (Hnone t p). by apply Hadded.
    + intros Hall t p [Hp Hnot]%Hadded. by apply Hnot, Hall.
Qed.

Lemma diffAssigned_empty_iff_witness :
  lastAssigned exRebalanced = Some {[ "t"%string := [0; 1; 2] ]}
  /\ noNil {[ "t"%string := [0; 1; 2] ]}
  /\ noNil (default ∅ (nowAssigned exRebalanced))
  /\ map_Forall (fun _ ps => NoDup ps) (default ∅ (nowAssigned exRebalanced))
  /\ goLen (diffAssigned exRebalanced).1 = 0%nat
  /\ (forall t p, assigned (nowAssigned exRebalanced) t p ->
                  assigned (Some {[ "t"%string := [0; 1; 2] ]}) t p).
Proof.
  assert (Hnl : noNil {[ "t"%string := [0; 1; 2] ]}).
  { intros t ps Hps. apply lookup_singleton_Some in Hps as [_ <-]. done. }
  assert (Hnn : noNil (default ∅ (nowAssigned exRebalanced))).
  { intros t ps Hps. simpl in Hps. apply lookup_singleton_Some in Hps as [_ <-]. done. }
  assert (Hnd : map_Forall (fun _ ps => NoDup ps) (default ∅ (nowAssigned exRebalanced))).
  { simpl. apply map_Forall_singleton.
    apply (bool_decide_unpack (NoDup [0; 2])). by vm_compute. }
  assert (Hlen : goLen (diffAssigned exRebalanced).1 = 0%nat) by (by vm_compute).
  split; [reflexivity|]. split; [exact Hnl|]. split; [exact Hnn|].
  split; [exact Hnd|]. split; [exact Hlen|].
  destruct (diffAssigned_empty_iff exRebalanced {[ "t"%string := [0; 1; 2] ]}
              eq_refl Hnl Hnn Hnd) as (_ & Hadded & _).
  apply Hadded. exact Hlen.
Defined.

(** ** [joinAndSync] *)

Section JoinFacts.

Context {error : Type} `{EqDecision error}.
Context {balancePlan groupAssignment memberList metadata : Type}.
Context (ErrorForCode : Z -> option error).
Context (MemberIDRequired UnknownMemberID RebalanceInProgress : error).
Context (intoAssignment : balancePlan -> groupAssignment).
Context (zeroPlan : balancePlan).
Context (balanceGroup : groupConsumer -> string -> memberList -> balancePlan * option error).
Context (sessionTimeoutMillis rebalanceTimeoutMillis : Z).
Context (balancers : list (balancer (metadata := metadata))).

Local Abbreviation joinLoop' :=
  (joinLoop ErrorForCode MemberIDRequired UnknownMemberID RebalanceInProgress
     intoAssignment zeroPlan balanceGroup sessionTimeoutMillis rebalanceTimeoutMillis
     balancers).
Local Abbreviation joinAndSync' :=
  (joinAndSync ErrorForCode MemberIDRequired UnknownMemberID RebalanceInProgress
     intoAssignment zeroPlan balanceGroup sessionTimeoutMillis rebalanceTimeoutMillis
     balancers).
Local Abbreviation retried' := (retried ErrorForCode MemberIDRequired UnknownMemberID).

(** A pass that ends in [goto start] with a new member ID. *)
Lemma joinLoop_retry g rd rest m :
  retried' rd = Some m ->
  joinLoop' g (rd :: rest)
  = let '(g2, ev, result) := joinLoop' (set_memberID m g) rest in
    (g2,
     EvJoinGroupRequest
       (mkJoinGroupRequest (id g) sessionTimeoutMillis rebalanceTimeoutMillis
          "consumer" (memberID g) (instanceID g) (joinGroupProtocols balancers g))
       :: ev,
     result).
Proof.
  unfold retried. intros Hretried. simpl.
  destruct (rJoin rd) as [err|resp]; [done|].
  destruct (ErrorForCode (jrErrorCode resp)) as [err|]; [|done].
  destruct (decide (err = MemberIDRequired)).
  { injection Hretried as <-. by destruct (joinLoop' _ rest) as [[g2 ev] result]. }
  destruct (decide (err = UnknownMemberID)); [|done].
  injection Hretried as <-. by destruct (joinLoop' _ rest) as [[g2 ev] result].
Qed.

(** The pass in which the group accepts the member and the assignment
    arrives. *)
Lemma joinLoop_final g final resp kassignment :
  rJoin final = inr resp ->
  ErrorForCode (jrErrorCode resp) = None ->
  (forall g1, (balanceGroup g1 (jrProtocol resp) (jrMembers resp)).2 = None) ->
  rSync final = SyncAssignment kassignment ->
  let r := joinLoop' g [final] in
  r.2 = Some None
  /\ memberID r.1.1 = jrMemberID resp
  /\ generation r.1.1 = jrGeneration resp
  /\ leader r.1.1 = (if decide (jrLeaderID resp = jrMemberID resp) then true else leader g)
  /\ rejoinCh r.1.1 = rejoinCh g
  /\ cooperative r.1.1 = cooperative g
  /\ nowAssigned r.1.1 = Some (assignTopics kassignment)
  /\ lastAssigned r.1.1 = (if cooperative g then nowAssigned g else lastAssigned g)
  /\ jgMemberID <$> joinRequests r.1.2 = [memberID g]
  /\ exists plan,
       r.1.2 = [EvJoinGroupRequest
                  (mkJoinGroupRequest (id g) sessionTimeoutMillis rebalanceTimeoutMillis
                     "consumer" (memberID g) (instanceID g)
                     (joinGroupProtocols balancers g));
                EvSyncGroupRequest
                  (mkSyncGroupRequest (id g) (jrGeneration resp) (jrMemberID resp)
                     (instanceID g) (intoAssignment plan))].
Proof.
  intros Hjoin Hcode Hbalance Hsync. simpl. rewrite Hjoin, Hcode.
  destruct (decide (jrLeaderID resp = jrMemberID resp)) as [Hleader|Hleader].
  - specialize (Hbalance (set_generation (jrGeneration resp)
                            (set_memberID (jrMemberID resp) g))).
    destruct (balanceGroup _ (jrProtocol resp) (jrMembers resp)) as [plan failed].
    simpl in Hbalance. subst failed. unfold syncGroup. rewrite Hsync. simpl.
    destruct (cooperative g) eqn:Hcoop; simpl; rewrite ?Hcoop; repeat split; eauto.
  - unfold syncGroup. rewrite Hsync. simpl.
    destruct (cooperative g) eqn:Hcoop; simpl; rewrite ?Hcoop; repeat split; eauto.
Qed.

(** X14.  However many times the group answers MEMBER_ID_REQUIRED or
    UNKNOWN_MEMBER_ID before it accepts the member, [joinAndSync] returns
    nil: none of these answers surfaces as an error.  Each JoinGroup
    request carries the member ID of the answer before it (the empty ID
    after UNKNOWN_MEMBER_ID), the first one the ID the member had.
    Afterwards the member has the ID and the generation of the accepting
    response, is leader exactly when that response names it as leader,
    has no rejoin signal pending, and [nowAssigned] is the assignment of
    the SyncGroup response (an allocated map); a cooperative member keeps
    the previous assignment in [lastAssigned], an eager one leaves
    [lastAssigned] alone, so that with a nil [lastAssigned] its whole
    assignment counts as added and nothing as lost. *)
Theorem joinAndSync_retries (g : groupConsumer) (retries : list round) (final : round)
    (resp : JoinGroupResponse) (kassignment : list GroupMemberAssignmentTopic) :
  Forall (fun rd => is_Some (retried' rd)) retries ->
  rJoin final = inr resp ->
  ErrorForCode (jrErrorCode resp) = None ->
  (forall g1, (balanceGroup g1 (jrProtocol resp) (jrMembers resp)).2 = None) ->
  rSync final = SyncAssignment kassignment ->
  let r := joinAndSync' g (retries ++ [final]) in
  r.2 = Some None
  /\ memberID r.1.1 = jrMemberID resp
  /\ generation r.1.1 = jrGeneration resp
  /\ leader r.1.1 = bool_decide (jrLeaderID resp = jrMemberID resp)
  /\ rejoinCh r.1.1 = false
  /\ nowAssigned r.1.1 = Some (assignTopics kassignment)
  /\ lastAssigned r.1.1 = (if cooperative g then nowAssigned g else lastAssigned g)
  /\ jgMemberID <$> joinRequests r.1.2
     = memberID g :: ((fun rd => default ""%string (retried' rd)) <$> retries)
  /\ (cooperative g = false -> lastAssigned g = None ->
      diffAssigned r.1.1 = (Some (assignTopics kassignment), None)).
Proof.
  intros Hretries Hjoin Hcode Hbalance Hsync.
  assert (Hloop : forall g0,
    let r := joinLoop' g0 (retries ++ [final]) in
    r.2 = Some None
    /\ memberID r.1.1 = jrMemberID resp
    /\ generation r.1.1 = jrGeneration resp
    /\ leader r.1.1 = (if decide (jrLeaderID resp = jrMemberID resp) then true
                       else leader g0)
    /\ rejoinCh r.1.1 = rejoinCh g0
    /\ cooperative r.1.1 = cooperative g0
    /\ nowAssigned r.1.1 = Some (assignTopics kassignment)
    /\ lastAssigned r.1.1 = (if cooperative g0 then nowAssigned g0 else lastAssigned g0)
    /\ jgMemberID <$> joinRequests r.1.2
       = memberID g0 :: ((fun rd => default ""%string (retried' rd)) <$> retries)).
  { induction Hretries as [|rd retries [m Hm] _ IH]; intros g0.
    - destruct (joinLoop_final g0 final resp kassignment Hjoin Hcode Hbalance Hsync)
        as (H1 & H2 & H3 & H4 & H5 & H6 & H7 & H8 & H9 & _).
      cbn zeta. rewrite app_nil_l. repeat split; done.
    - cbn zeta. rewrite <- app_comm_cons, (joinLoop_retry g0 rd _ m Hm).
      specialize (IH (set_memberID m g0)). cbn zeta in IH.
      destruct (joinLoop' (set_memberID m g0) (retries ++ [final])) as [[g2 ev] result].
      cbn [fst snd] in *.
      destruct IH as (H1 & H2 & H3 & H4 & H5 & H6 & H7 & H8 & H9).
      repeat split; try done.
      rewrite fmap_cons, Hm. cbn [joinRequests omap list_omap fmap list_fmap jgMemberID].
      f_equal. exact H9. }
  specialize (Hloop (prejoin g)). cbn zeta in *. unfold joinAndSync.
  destruct (joinLoop' (prejoin g) (retries ++ [final])) as [[g' ev] result].
  cbn [fst snd] in *.
  destruct Hloop as (H1 & H2 & H3 & H4 & H5 & H6 & H7 & H8 & H9).
  simpl in H4, H5, H6, H8, H9.
  repeat split; try done;
    try (rewrite H4; by destruct (decide (jrLeaderID resp = jrMemberID resp))).
  intros Heager Hnil. unfold diffAssigned. rewrite H8, Heager, Hnil. by rewrite H7.
Qed.

End JoinFacts.

Lemma joinAndSync_retries_witness :
  (exJoin exNewMember exRounds).2 = Some None
  /\ memberID (exJoin exNewMember exRounds).1.1 = "member-7"%string
  /\ nowAssigned (exJoin exNewMember exRounds).1.1 = Some {[ "t"%string := [0; 1] ]}
  /\ jgMemberID <$> joinRequests (exJoin exNewMember exRounds).1.2
     = [""%string; "member-7"%string].
Proof.
  assert (Hretries :
    Forall (fun rd => is_Some (retried exErrorForCode 79 25 rd))
      [mkRound (memberList := unit) (inr (exJoinResponse 79 "member-7"))
         (SyncAssignment [])]).
  { apply Forall_cons_2; [|apply Forall_nil_2].
    exists "member-7"%string. by vm_compute. }
  destruct (joinAndSync_retries (balancePlan := unit) (groupAssignment := unit)
              (metadata := unit) exErrorForCode 79 25 27
              (fun _ => tt) tt (fun _ _ _ => (tt, None)) 45000 60000 []
              exNewMember _
              (mkRound (inr (exJoinResponse 0 "member-7"))
                 (SyncAssignment [mkGroupMemberAssignmentTopic "t" [0; 1]]))
              (exJoinResponse 0 "member-7")
              [mkGroupMemberAssignmentTopic "t" [0; 1]]
              Hretries eq_refl eq_refl (fun _ => eq_refl) eq_refl)
    as (H1 & H2 & _ & _ & _ & H6 & _ & H8 & _).
  split; [exact H1|]. split; [exact H2|]. split; [exact H6|]. exact H8.
Defined.

(** ** [heartbeat] *)

Section HeartbeatFacts.

Context {error : Type} `{EqDecision error}.
Context (ErrorForCode : Z -> option error).
Context (RebalanceInProgress : error).
Context (errorsNew : string -> error).

Local Abbreviation passError' := (passError ErrorForCode RebalanceInProgress).
Local Abbreviation heartbeatPass' :=
  (heartbeatPass ErrorForCode RebalanceInProgress errorsNew).
Local Abbreviation heartbeatLoop' :=
  (heartbeatLoop ErrorForCode RebalanceInProgress errorsNew).
Local Abbreviation heartbeatInv' := (heartbeatInv ErrorForCode RebalanceInProgress).
Local Abbreviation returnsBy' := (returnsBy ErrorForCode RebalanceInProgress errorsNew).

Lemma countEvent_app e ev1 ev2 :
  countEvent e (ev1 ++ ev2) = (countEvent e ev1 + countEvent e ev2)%nat.
Proof. unfold countEvent. by rewrite filter_app, length_app. Qed.

Lemma last_omap_snoc (pre : list (selected (error := error))) sel :
  last (omap passError' (pre ++ [sel]))
  = match passError' sel with
    | Some e => Some e
    | None => last (omap passError' pre)
    end.
Proof.
  rewrite omap_app. simpl. destruct (passError' sel) as [e|]; simpl.
  - by rewrite last_snoc.
  - by rewrite app_nil_r.
Qed.

Lemma heartbeatPass_cooperative g st sel g1 ev next :
  heartbeatPass' g st sel = Some (g1, ev, next) -> cooperative g1 = cooperative g.
Proof.
  destruct sel; simpl; repeat case_match; intros; simplify_eq; done.
Qed.

Ltac phase H :=
  repeat (apply elem_of_cons in H as [H|H]); [..|by apply elem_of_nil in H];
  injection H as -> -> -> ->.

Ltac in_list :=
  repeat first [ apply list_elem_of_here | apply list_elem_of_further ].

Ltac in_pre :=
  let H := fresh in
  intros H; first [ discriminate H
                  | apply elem_of_app; first [ by left; auto
                                             | right; by apply list_elem_of_singleton ] ].

(** A pass after which the loop goes on. *)
Lemma heartbeatPass_continue g pre st ev sel g1 ev1 st1 :
  heartbeatInv' g pre st ev ->
  heartbeatPass' g st sel = Some (g1, ev1, HbContinue st1) ->
  heartbeatInv' g1 (pre ++ [sel]) st1 (ev ++ ev1).
Proof.
  intros [Hlast Hquiet Hrevoke Hwait Hphase Herr Hdm Hdr Hinv Horder] Hpass.
  pose proof (heartbeatPass_cooperative _ _ _ _ _ _ Hpass) as Hcoop.
  destruct st as [f m r dm dr le]. cbn [fetchErrCh metadone revoked didMetadone
    didRevoke lastErr] in *.
  phase Hphase.
  all: destruct sel as [[e|code]| |[e|]| | | |]; simpl in Hpass;
    unfold afterSelect in Hpass; simpl in Hpass.
  all: try destruct (ErrorForCode code) as [e|] eqn:Hcode; simpl in Hpass.
  all: try destruct (rejoinCh g); simpl in Hpass; try discriminate Hpass.
  all: try destruct f; simpl in Hpass; try discriminate Hpass.
  all: repeat (match type of Hpass with
               | context [decide ?P] => destruct (decide P); simpl in Hpass
               end); try discriminate Hpass.
  all: injection Hpass as <- <- <-.
  all: rewrite ?app_nil_r.
  all: split; cbn [fetchErrCh metadone revoked didMetadone didRevoke lastErr orb andb];
    rewrite ?Hcoop.
  all: try (rewrite last_omap_snoc; simpl; rewrite ?Hcode; done).
  all: try (intros _; apply Forall_app; split; [by apply Hquiet|];
            apply Forall_singleton; simpl; by rewrite ?Hcode).
  all: try (by intros ?).
  all: try (rewrite !countEvent_app, ?Hrevoke, ?Hwait, ?Hinv; simpl;
            by destruct (cooperative g)).
  all: try (by in_list).
  all: try (by eauto).
  all: try (by in_pre).
  all: intros Hc _; rewrite ?Hc; simpl.
  all: try (destruct (Horder Hc eq_refl) as (a & b & ->); exists a; eexists;
            rewrite <- !app_assoc; simpl; reflexivity).
  all: try (exists ev; eexists; simpl; reflexivity).
  all: try (eexists (ev ++ [_]); eexists; rewrite <- !app_assoc; simpl; reflexivity).
Qed.

(** A pass in which the function returns. *)
Lemma heartbeatPass_return g pre st ev sel g1 ev1 r :
  heartbeatInv' g pre st ev ->
  heartbeatPass' g st sel = Some (g1, ev1, HbReturn r) ->
  returnsBy' g1 (pre ++ [sel]) (ev ++ ev1) r.
Proof.
  intros [Hlast Hquiet Hrevoke Hwait Hphase Herr Hdm Hdr Hinv Horder] Hpass.
  pose proof (heartbeatPass_cooperative _ _ _ _ _ _ Hpass) as Hcoop.
  exists pre, sel. split; [done|]. rewrite Hcoop.
  destruct st as [f m r0 dm dr le]. cbn [fetchErrCh metadone revoked didMetadone
    didRevoke lastErr] in *.
  phase Hphase.
  all: destruct sel as [[e|code]| |[e|]| | | |]; simpl in Hpass;
    unfold afterSelect in Hpass; simpl in Hpass.
  all: try destruct (ErrorForCode code) as [e|] eqn:Hcode; simpl in Hpass.
  all: try destruct (rejoinCh g); simpl in Hpass; try discriminate Hpass.
  all: try destruct f; simpl in Hpass; try discriminate Hpass.
  all: repeat (match type of Hpass with
               | context [decide ?P] => destruct (decide P); simpl in Hpass
               end); try discriminate Hpass.
  all: injection Hpass as <- <- <-.
  all: rewrite ?app_nil_r.
  all: try (left; split; [done|]; split; [done|]; by rewrite last_snoc).
  all: try (right; right; split; [by auto|];
            split; [apply elem_of_app; first [by left; auto
                                             | right; by apply list_elem_of_singleton]|];
            split; [apply elem_of_app; first [by left; auto
                                             | right; by apply list_elem_of_singleton]|];
            split; [done|]; split; [by apply Herr|];
            split; [by rewrite Hrevoke|]; split; [by rewrite Hwait|];
            split; [by rewrite Hinv|]; intros Hc; by apply Horder).
  all: try done.
  all: right; left; exists e.
  all: split; [by simpl; rewrite ?Hcode|]; split; [done|]; split; [done|].
  all: split; [by apply Hquiet|].
  all: rewrite !countEvent_app, Hrevoke, Hwait, Hinv, !last_app.
  all: destruct (cooperative g); simpl; done.
Qed.

(** What a pass keeps, whether the loop goes on or not. *)
Lemma heartbeatPass_once g pre st ev sel g1 ev1 next :
  heartbeatInv' g pre st ev ->
  heartbeatPass' g st sel = Some (g1, ev1, next) ->
  (countEvent HbRevoke (ev ++ ev1) <= 1)%nat
  /\ countEvent HbWaitMeta (ev ++ ev1) = countEvent HbRevoke (ev ++ ev1)
  /\ (countEvent HbInvalidateAll (ev ++ ev1) <= if cooperative g then 0 else 1)%nat
  /\ (cooperative g = false -> countEvent HbRevoke (ev ++ ev1) = 1%nat ->
      exists ev2 ev3, ev ++ ev1 = ev2 ++ [HbInvalidateAll; HbRevoke] ++ ev3).
Proof.
  intros Hinv Hpass. destruct next as [st1|r].
  - pose proof (heartbeatPass_cooperative _ _ _ _ _ _ Hpass) as Hcoop.
    destruct (heartbeatPass_continue _ _ _ _ _ _ _ _ Hinv Hpass)
      as [_ _ Hrevoke Hwait Hphase _ _ _ Hinval Horder].
    rewrite Hcoop in *. rewrite Hrevoke, Hwait, Hinval.
    destruct st1 as [f m r0 dm dr le]. simpl in *.
    repeat (apply elem_of_cons in Hphase as [Hphase|Hphase]);
      [..|by apply elem_of_nil in Hphase];
      injection Hphase as -> -> -> ->; simpl in *;
      (split; [lia|]); (split; [done|]);
      (split; [destruct (cooperative g); lia|]);
      intros Hc Hone; first [discriminate Hone | by apply Horder].
  - destruct Hinv as [Hlast Hquiet Hrevoke Hwait Hphase Herr Hdm Hdr Hinv Horder].
    destruct st as [f m r0 dm dr le]. cbn [fetchErrCh metadone revoked didMetadone
      didRevoke lastErr] in *.
    phase Hphase.
    all: destruct sel as [[e|code]| |[e|]| | | |]; simpl in Hpass;
      unfold afterSelect in Hpass; simpl in Hpass.
    all: try destruct (ErrorForCode code) as [e|] eqn:Hcode; simpl in Hpass.
    all: try destruct (rejoinCh g); simpl in Hpass; try discriminate Hpass.
    all: try destruct f; simpl in Hpass; try discriminate Hpass.
    all: repeat (match type of Hpass with
                 | context [decide ?P] => destruct (decide P); simpl in Hpass
                 end); try discriminate Hpass.
    all: injection Hpass as <- <- <-.
    all: rewrite !countEvent_app, Hrevoke, Hwait, Hinv.
    all: simpl in *.
    all: split; [destruct (cooperative g); vm_compute; lia|].
    all: split; [destruct (cooperative g); vm_compute; done|].
    all: split; [destruct (cooperative g); vm_compute; lia|].
    all: intros Hc; rewrite ?Hc; intros Hone; vm_compute in Hone;
      try discriminate Hone.
    all: destruct (Horder Hc eq_refl) as (a & b & ->); exists a; eexists;
      rewrite <- !app_assoc; simpl; reflexivity.
Qed.

Lemma heartbeatLoop_inv sels g pre st ev g' ev' next :
  heartbeatInv' g pre st ev ->
  heartbeatLoop' g st sels = Some (g', ev', next) ->
  cooperative g' = cooperative g
  /\ match next with
     | HbContinue st' => heartbeatInv' g' (pre ++ sels) st' (ev ++ ev')
     | HbReturn r =>
         exists g0 pre0 sel st0 ev0 ev1,
           pre ++ sels = pre0 ++ [sel] /\ ev ++ ev' = ev0 ++ ev1
           /\ cooperative g0 = cooperative g
           /\ heartbeatInv' g0 pre0 st0 ev0
           /\ heartbeatPass' g0 st0 sel = Some (g', ev1, HbReturn r)
     end.
Proof.
  revert g pre st ev ev'. induction sels as [|sel sels IH]; intros g pre st ev ev' Hinv;
    simpl.
  { intros [= <- <- <-]. by rewrite !app_nil_r. }
  destruct (heartbeatPass' g st sel) as [[[g1 ev1] [st1|r]]|] eqn:Hpass; [| |done].
  - destruct (heartbeatLoop' g1 st1 sels) as [[[g2 ev2] next2]|] eqn:Hloop; [|done].
    intros [= <- <- <-].
    pose proof (heartbeatPass_cooperative _ _ _ _ _ _ Hpass) as Hcoop.
    pose proof (heartbeatPass_continue _ _ _ _ _ _ _ _ Hinv Hpass) as Hinv1.
    destruct (IH _ _ _ _ _ Hinv1 Hloop) as [Hcoop2 Hnext].
    split; [congruence|].
    rewrite (app_assoc ev), (cons_middle sel pre sels), (app_assoc pre).
    destruct next2 as [st2|r]; [done|].
    destruct Hnext as (g0 & pre0 & sel0 & st0 & ev0 & ev3 & H1 & H2 & H3 & H4 & H5).
    exists g0, pre0, sel0, st0, ev0, ev3.
    split; [done|]. split; [done|]. split; [congruence|]. split; [exact H4|exact H5].
  - destruct sels; [|done]. intros [= <- <- <-].
    split; [by eapply heartbeatPass_cooperative|].
    exists g, pre, sel, st, ev, ev1.
    split; [done|]. split; [done|]. split; [done|]. split; [exact Hinv|exact Hpass].
Qed.

Lemma heartbeatInv_start g :
  heartbeatInv' g [] heartbeatStart [].
Proof.
  split; simpl; try done.
  - apply list_elem_of_here.
  - by destruct (cooperative g).
Qed.

(** X15.  [heartbeat] never returns nil, and it returns in one of three
    ways only: when the context is done, with the error "left group or
    client closed"; at the first error of the session when that error is
    not REBALANCE_IN_PROGRESS, with that error, after waiting for
    [onAssigned] and without starting the revoke or the metadata wait; or
    in the pass in which the second of the revoke and the metadata wait is
    seen to be done, with the last error of the passes before. *)
Theorem heartbeat_returns (g : groupConsumer) (sels : list selected)
    (g' : groupConsumer) (ev : list heartbeatEvent) (r : option error) :
  heartbeat ErrorForCode RebalanceInProgress errorsNew g sels
    = Some (g', ev, HbReturn r) ->
  is_Some r /\ returnsBy' g' sels ev r.
Proof.
  intros Hloop.
  destruct (heartbeatLoop_inv sels g [] heartbeatStart [] g' ev (HbReturn r)
              (heartbeatInv_start g) Hloop)
    as (_ & g0 & pre0 & sel & st0 & ev0 & ev1 & Hsels & Hev & _ & Hinv & Hpass).
  simpl in Hsels, Hev. subst sels ev.
  pose proof (heartbeatPass_return _ _ _ _ _ _ _ _ Hinv Hpass) as Hret.
  split; [|done].
  destruct Hret
    as (pre & sel' & _ & [(_ & -> & _)|[(e & _ & _ & -> & _)|(_ & _ & _ & _ & Hr & _)]]);
    eauto.
Qed.

(** X16.  In any run of [heartbeat], finished or not, the revoke of the
    session is started at most once and the metadata wait at most once,
    the two together; a cooperative member never invalidates its fetches,
    and an eager member does so at most once, right before it starts the
    revoke. *)
Theorem heartbeat_once (g : groupConsumer) (sels : list selected)
    (g' : groupConsumer) (ev : list heartbeatEvent) (next : heartbeatNext) :
  heartbeat ErrorForCode RebalanceInProgress errorsNew g sels = Some (g', ev, next) ->
  (countEvent HbRevoke ev <= 1)%nat
  /\ countEvent HbWaitMeta ev = countEvent HbRevoke ev
  /\ (countEvent HbInvalidateAll ev <= if cooperative g then 0 else 1)%nat
  /\ (cooperative g = false -> countEvent HbRevoke ev = 1%nat ->
      exists ev1 ev2, ev = ev1 ++ [HbInvalidateAll; HbRevoke] ++ ev2).
Proof.
  intros Hloop.
  destruct (heartbeatLoop_inv sels g [] heartbeatStart [] g' ev next
              (heartbeatInv_start g) Hloop) as [Hcoop Hnext].
  simpl in Hnext. destruct next as [st|r].
  - destruct Hnext as [_ _ Hrevoke Hwait Hphase _ _ _ Hinv Horder].
    rewrite Hcoop in *. rewrite Hrevoke, Hwait, Hinv.
    destruct st as [f m r0 dm dr le]. simpl in *.
    repeat (apply elem_of_cons in Hphase as [Hphase|Hphase]);
      [..|by apply elem_of_nil in Hphase];
      injection Hphase as -> -> -> ->; simpl in *;
      (split; [lia|]); (split; [done|]);
      (split; [destruct (cooperative g); lia|]);
      intros Hc Hone; first [discriminate Hone | by apply Horder].
  - destruct Hnext as (g0 & pre0 & sel & st0 & ev0 & ev1 & _ & -> & Hc0 & Hinv & Hpass).
    rewrite <- Hc0. by eapply heartbeatPass_once.
Qed.

End HeartbeatFacts.

Lemma heartbeat_returns_witness :
  heartbeat exErrorForCode 27 exErrorsNew exGroup exSchedule
    = Some (exGroup,
            [HbRequest (mkHeartbeatRequest "grp" 5 "member-1" None); HbRevoke; HbWaitMeta],
            HbReturn (Some 27))
  /\ returnsBy exErrorForCode 27 exErrorsNew exGroup exSchedule
       [HbRequest (mkHeartbeatRequest "grp" 5 "member-1" None); HbRevoke; HbWaitMeta]
       (Some 27).
Proof.
  assert (Hrun : heartbeat exErrorForCode 27 exErrorsNew exGroup exSchedule
    = Some (exGroup,
            [HbRequest (mkHeartbeatRequest "grp" 5 "member-1" None); HbRevoke; HbWaitMeta],
            HbReturn (Some 27))) by (by vm_compute).
  split; [exact Hrun|].
  apply (heartbeat_returns exErrorForCode 27 exErrorsNew exGroup exSchedule _ _ _ Hrun).
Defined.

Lemma heartbeat_once_witness :
  heartbeat exErrorForCode 27 exErrorsNew exEager exSchedule
    = Some (exEager,
            [HbRequest (mkHeartbeatRequest "grp" 5 "member-1" None);
             HbInvalidateAll; HbRevoke; HbWaitMeta],
            HbReturn (Some 27))
  /\ (countEvent HbRevoke
        [HbRequest (mkHeartbeatRequest "grp" 5 "member-1" None);
         HbInvalidateAll; HbRevoke; HbWaitMeta] <= 1)%nat.
Proof.
  assert (Hrun : heartbeat exErrorForCode 27 exErrorsNew exEager exSchedule
    = Some (exEager,
            [HbRequest (mkHeartbeatRequest "grp" 5 "member-1" None);
             HbInvalidateAll; HbRevoke; HbWaitMeta],
            HbReturn (Some 27))) by (by vm_compute).
  split; [exact Hrun|].
  apply (heartbeat_once exErrorForCode 27 exErrorsNew exEager exSchedule _ _ _ Hrun).
Defined.

(** ** The chain of commit goroutines *)

Section PipelineChainFacts.

Context {error : Type}.

Implicit Types (w : world error) (c m : nat) (t : task).

Ltac step_cases H :=
  let unc := fresh "unc" in
  let Hlk := fresh "Hlk" in
  let Hts := fresh "Hts" in
  destruct H as [? unc | ? ? unc | ? c0 t0 ? Hlk Hts | ? c0 | ? ? ? ?];
  [ unfold commit in *; destruct (decide (goLen unc = 0%nat));
      [| unfold installCommit, spawn in *; destruct (commitCancel (wGroup _)) ]
  | unfold commitTxn in *; destruct (decide (goLen unc = 0%nat));
      [| unfold installCommit, spawn in *; destruct (commitCancel (wGroup _)) ]
  | destruct Hts as [Hst Hprior | req Hst Hreq Htopics | req Hst Hreq Htopics
                    | err Hst | resp Hst Hkind | resp g' req' resp' Hst Happ
                    | resp Hst | Hst];
      unfold setTask in *
  | | ];
  cbn [wGroup wCancelled wClosed wNext wTasks wTrace
       tPriorDone tUncommitted tMemberID tReq tStage set_stage set_req
       commitDone commitCancel set_commit] in *.

Lemma chained_init g : chained (initWorld g : world error).
Proof.
  split; simpl.
  - intros m [t Ht]. by rewrite lookup_empty in Ht.
  - intros c t m' Ht. by rewrite lookup_empty in Ht.
  - intros c [t Ht]. by rewrite lookup_empty in Ht.
  - intros c t Ht. by rewrite lookup_empty in Ht.
  - intros c req Hin. by apply elem_of_nil in Hin.
Qed.

Lemma step_ch_handle w w' :
  inv w -> chained w -> step w w' ->
  forall m, is_Some (wTasks w' !! m) ->
    exists d, commitDone (wGroup w') = Some d /\ (m <= d)%nat.
Proof.
  intros Hinv Hch Hstep m Hm.
  pose proof (ch_handle w Hch) as Hhandle.
  pose proof (inv_fresh w Hinv) as Hfresh.
  step_cases Hstep.
  all: try (by apply Hhandle).
  all: try (apply lookup_insert_is_Some' in Hm as [<-|Hm];
            [ eexists; split; [done|lia]
            | destruct Hm as [tm Hm]; apply Hfresh in Hm; eexists; split; [done|lia] ]).
  all: try (apply lookup_insert_is_Some' in Hm as [<-|Hm]; apply Hhandle; by eauto).
  all: try (apply applyUpdate_handles in Happ as [-> _];
            apply lookup_insert_is_Some' in Hm as [<-|Hm]; apply Hhandle; by eauto).
  all: try (match goal with H : commitDone _ = commitDone _ |- _ => rewrite H end;
            by apply Hhandle).
Qed.

Lemma step_ch_prior w w' :
  inv w -> chained w -> step w w' ->
  forall c t m',
    wTasks w' !! c = Some t -> is_Some (wTasks w' !! m') -> (m' < c)%nat ->
    exists m, tPriorDone t = Some m /\ (m' <= m)%nat.
Proof.
  intros Hinv Hch Hstep c t m' Hc Hm Hlt.
  pose proof (ch_handle w Hch) as Hhandle.
  pose proof (ch_prior w Hch) as Hchain.
  pose proof (inv_fresh w Hinv) as Hfresh.
  step_cases Hstep.
  all: try (by eapply Hchain).
  (* a new goroutine *)
  all: try (apply lookup_insert_Some in Hc as [[<- <-]|[Hne Hc]];
            apply lookup_insert_is_Some' in Hm as [<-|Hm];
            cbn [tPriorDone] in *; try lia;
            [ by apply Hhandle
            | apply Hfresh in Hc; lia
            | by eapply Hchain ]).
  (* a step of a goroutine *)
  all: apply lookup_insert_Some in Hc as [[<- <-]|[Hne Hc]];
    apply lookup_insert_is_Some' in Hm as [<-|Hm];
    cbn [tPriorDone set_stage set_req] in *; try lia;
    eapply Hchain; eauto.
Qed.

Lemma step_ch_cancel w w' :
  inv w -> chained w -> step w w' ->
  forall c, is_Some (wTasks w' !! c) ->
    commitCancel (wGroup w') = Some c \/ c ∈ wCancelled w'.
Proof.
  intros Hinv Hch Hstep c Hc.
  pose proof (ch_cancel w Hch) as Hcancel.
  step_cases Hstep.
  all: try (by apply Hcancel).
  all: try (apply lookup_insert_is_Some' in Hc as [<-|Hc]; [by left|];
            destruct (Hcancel _ Hc) as [Heq|Hin]; [|right; set_solver];
            first [ right; simplify_eq; set_solver | congruence ]).
  all: try (assert (Hc' : is_Some (wTasks w !! c))
              by (apply lookup_insert_is_Some' in Hc as [<-|Hc]; eauto);
            destruct (Hcancel _ Hc') as [Heq|Hin]; [by left|right; set_solver]).
  - assert (Hc' : is_Some (wTasks w !! c))
      by (apply lookup_insert_is_Some' in Hc as [<-|Hc]; eauto).
    apply applyUpdate_handles in Happ as [_ ->]. by apply Hcancel.
  - destruct (Hcancel _ Hc) as [Heq|Hin]; [by left|right; set_solver].
  - match goal with H : commitCancel _ = commitCancel _ |- _ => rewrite H end.
    by apply Hcancel.
Qed.

Lemma step_ch_header w w' :
  inv w -> chained w -> step w w' ->
  forall c t,
    wTasks w' !! c = Some t -> tStage t = AwaitPrior \/ tStage t = Ready ->
    requestTopics (tReq t) = [].
Proof.
  intros Hinv Hch Hstep c t Hc Hstage.
  pose proof (ch_header w Hch) as Hheader.
  step_cases Hstep.
  all: try (by eapply Hheader).
  all: apply lookup_insert_Some in Hc as [[<- <-]|[Hne Hc]];
    cbn [tReq tStage set_stage set_req requestTopics] in *;
    try done; try (by eapply Hheader); try (by destruct Hstage).
  all: eapply Hheader; eauto.
Qed.

Lemma step_ch_request w w' :
  inv w -> chained w -> step w w' ->
  forall c rq,
    CevRequest c rq ∈ wTrace w' ->
    exists t, wTasks w' !! c = Some t
      /\ requestTopics rq = buildTopics (tMemberID t) (tUncommitted t).
Proof.
  intros Hinv Hch Hstep c rq Hin.
  pose proof (ch_request w Hch) as Hrequest.
  pose proof (ch_header w Hch) as Hheader.
  pose proof (inv_fresh w Hinv) as Hfresh.
  assert (Hkeep : forall c1 (t1 : task),
            wTasks w !! c1 = Some t1 ->
            CevRequest c rq ∈ wTrace w ->
            tMemberID t1 = tMemberID t1 ->
            forall t1', tMemberID t1' = tMemberID t1 ->
                        tUncommitted t1' = tUncommitted t1 ->
            exists t, <[c1 := t1']> (wTasks w) !! c = Some t
              /\ requestTopics rq = buildTopics (tMemberID t) (tUncommitted t)).
  { intros c1 t1 Hc1 Hold _ t1' Hm Hu.
    destruct (Hrequest _ _ Hold) as (t & Ht & Hrq).
    destruct (decide (c1 = c)) as [->|Hne].
    - rewrite lookup_insert_eq. eexists. split; [done|]. simplify_eq. by rewrite Hm, Hu.
    - rewrite lookup_insert_ne by done. eauto. }
  step_cases Hstep.
  all: try (by apply Hrequest).
  all: try (apply elem_of_app in Hin as [Hin|Hin];
            [|repeat (apply elem_of_cons in Hin as [Hin|Hin]; [discriminate Hin|]);
              by apply elem_of_nil in Hin]).
  all: rewrite ?app_nil_r in Hin.
  all: try (destruct (Hrequest _ _ Hin) as (t & Ht & Hrq);
            exists t; split; [|done];
            rewrite lookup_insert_ne; [done|]; apply Hfresh in Ht; lia).
  all: try (by eapply (Hkeep c0 t0 Hlk Hin eq_refl)).
  all: try (by apply Hrequest).
  apply elem_of_app in Hin as [Hin|Hin].
  - by eapply (Hkeep c0 t0 Hlk Hin eq_refl).
  - apply list_elem_of_singleton in Hin. injection Hin as -> ->.
    rewrite lookup_insert_eq. eexists. split; [done|].
    cbn [tMemberID tUncommitted set_stage set_req].
    rewrite Hreq, requestTopics_withTopics, (Hheader _ _ Hlk); [done|]. by right.
Qed.

Lemma chained_step w w' : inv w -> chained w -> step w w' -> chained w'.
Proof.
  intros Hinv Hch Hstep. split.
  - by eapply step_ch_handle.
  - by eapply step_ch_prior.
  - by eapply step_ch_cancel.
  - by eapply step_ch_header.
  - by eapply step_ch_request.
Qed.

Lemma reachable_chained g0 w : reachable g0 w -> chained w.
Proof.
  induction 1 as [|w w' Hreach IH Hstep]; [apply chained_init|].
  eapply chained_step; eauto. by eapply reachable_inv.
Qed.


(** X17.  Commits run one after the other, in the order of submission: in
    a world the group consumer can get into, once a commit goroutine is
    past its wait every goroutine submitted before it has run to its end;
    hence at most one goroutine at a time is between its wait and its end
    (issuing its request, updating the ledger or calling [onDone]). *)
Theorem commit_serial g0 w :
  reachable g0 w ->
  (forall c1 c2 t1 t2,
     wTasks w !! c1 = Some t1 -> wTasks w !! c2 = Some t2 -> (c1 < c2)%nat ->
     tStage t2 <> AwaitPrior -> tStage t1 = Finished)
  /\ (forall c1 c2 t1 t2,
        wTasks w !! c1 = Some t1 -> wTasks w !! c2 = Some t2 ->
        tStage t1 <> AwaitPrior -> tStage t1 <> Finished ->
        tStage t2 <> AwaitPrior -> tStage t2 <> Finished ->
        c1 = c2).
Proof.
  intros Hreach.
  pose proof (reachable_inv _ _ Hreach) as Hinv.
  pose proof (reachable_chained _ _ Hreach) as Hch.
  assert (Hserial : forall c2 c1 t1 t2,
            wTasks w !! c1 = Some t1 -> wTasks w !! c2 = Some t2 -> (c1 < c2)%nat ->
            tStage t2 <> AwaitPrior -> tStage t1 = Finished).
  { intros c2. induction (lt_wf c2) as [c2 _ IH]. intros c1 t1 t2 H1 H2 Hlt Hpast.
    destruct (ch_prior w Hch c2 t2 c1 H2 ltac:(eauto) Hlt) as (m & Hm & Hle).
    pose proof (inv_await w Hinv c2 t2 m H2 Hpast Hm) as Hclosed.
    destruct (inv_closed w Hinv m Hclosed) as (tm & Htm & Hfin).
    destruct (inv_prior w Hinv c2 t2 m H2 Hm) as [Hmc _].
    destruct (decide (c1 = m)) as [->|Hne]; [by simplify_eq|].
    apply (IH m Hmc c1 t1 tm H1 Htm); [lia|]. by rewrite Hfin. }
  split; [intros c1 c2; by apply Hserial|].
  intros c1 c2 t1 t2 H1 H2 Ha1 Hf1 Ha2 Hf2.
  destruct (Nat.lt_trichotomy c1 c2) as [Hlt|[->|Hlt]]; [|done|].
  - by destruct (Hf1 (Hserial _ _ _ _ H1 H2 Hlt Ha2)).
  - by destruct (Hf2 (Hserial _ _ _ _ H2 H1 Hlt Ha1)).
Qed.

(** X18.  A new commit cancels the commit before it: in a world the group
    consumer can get into, every commit goroutine except the one whose
    cancel function the group consumer holds has a cancelled context, and
    the completion channel the group consumer holds is that of the
    goroutine submitted last. *)
Theorem commit_supersedes g0 w :
  reachable g0 w ->
  (forall c, is_Some (wTasks w !! c) ->
     commitCancel (wGroup w) = Some c \/ c ∈ wCancelled w)
  /\ (forall c, is_Some (wTasks w !! c) ->
        exists d, commitDone (wGroup w) = Some d /\ is_Some (wTasks w !! d)
                  /\ (c <= d)%nat).
Proof.
  intros Hreach.
  pose proof (reachable_inv _ _ Hreach) as Hinv.
  pose proof (reachable_chained _ _ Hreach) as Hch.
  split; [apply (ch_cancel w Hch)|].
  intros c Hc. destruct (ch_handle w Hch c Hc) as (d & Hd & Hle).
  exists d. split; [done|]. split; [|done]. by apply (inv_handle w Hinv).
Qed.

Lemma offsetsOf_buildTopics memberID (s : offsets) :
  offsetsOf (buildTopics memberID s) = s.
Proof.
  unfold offsetsOf, buildTopics.
  transitivity (list_to_map (map_to_list s) : offsets); [|apply list_to_map_to_list].
  f_equal. rewrite <- list_fmap_compose.
  rewrite <- (list_fmap_id (map_to_list s)) at 2.
  apply list_fmap_ext. intros i [topic ps] _. simpl. f_equal.
  transitivity (list_to_map (map_to_list ps) : gmap Z EpochOffset);
    [|apply list_to_map_to_list].
  f_equal. rewrite <- list_fmap_compose.
  rewrite <- (list_fmap_id (map_to_list ps)) at 2.
  apply list_fmap_ext. by intros j [p [e o]] _.
Qed.

(** X19.  What goes on the wire is what was handed to the commit: every
    request a commit goroutine has sent lists one topic entry per topic of
    the goroutine's offsets, decodes back to exactly those offsets, and
    carries the member ID captured at submission as the metadata of every
    partition. *)
Theorem commit_request_round_trip g0 w :
  reachable g0 w ->
  forall c req,
    CevRequest c req ∈ wTrace w ->
    exists t,
      wTasks w !! c = Some t
      /\ offsetsOf (requestTopics req) = tUncommitted t
      /\ length (requestTopics req) = size (tUncommitted t)
      /\ Forall (fun rt => Forall (fun rq => rqMetadata rq = Some (tMemberID t))
                                  (rqPartitions rt))
                (requestTopics req).
Proof.
  intros Hreach c req Hin.
  destruct (ch_request w (reachable_chained _ _ Hreach) c req Hin) as (t & Ht & Hreq).
  exists t. split; [done|]. rewrite Hreq.
  split; [apply offsetsOf_buildTopics|]. split.
  - unfold buildTopics. by rewrite length_fmap, length_map_to_list.
  - unfold buildTopics. apply Forall_fmap, Forall_forall. intros [topic ps] _. simpl.
    apply Forall_fmap, Forall_forall. by intros [p eo] _.
Qed.


Lemma doAwait_step w c t :
  wTasks w !! c = Some t -> tStage t = AwaitPrior ->
  (forall m, tPriorDone t = Some m -> m ∈ wClosed w) ->
  step w (doAwait c w).
Proof.
  intros Hc Hst Hprior. unfold doAwait. rewrite Hc.
  eapply StepTask; [done|]. by apply TAwait.
Qed.

Lemma doRequest_step w c t :
  wTasks w !! c = Some t -> tStage t = Ready -> tUncommitted t <> ∅ ->
  step w (doRequest c w).
Proof.
  intros Hc Hst Hne. unfold doRequest. rewrite Hc.
  eapply StepTask; [done|]. eapply TRequest; [done|done|].
  rewrite requestTopics_withTopics. intros Hnil.
  apply app_eq_nil in Hnil as [_ Hnil]. by apply buildTopics_nonempty in Hnil.
Qed.

Lemma doFail_step w c err t :
  wTasks w !! c = Some t -> tStage t = InFlight -> step w (doFail c err w).
Proof.
  intros Hc Hst. unfold doFail. rewrite Hc. eapply StepTask; [done|]. by apply TFail.
Qed.

Lemma doClose_step w c t :
  wTasks w !! c = Some t -> tStage t = Finishing -> step w (doClose c w).
Proof.
  intros Hc Hst. unfold doClose. rewrite Hc. eapply StepTask; [done|]. by apply TClose.
Qed.

End PipelineChainFacts.

Lemma exSerial_reachable : reachable exGroup exSerial.
Proof.
  assert (Hne : ({[ "t"%string := {[ 0 := mkEpochOffset 3 10 ]} ]} : offsets) <> ∅).
  { intros Hempty. apply (f_equal (fun m : offsets => m !! "t"%string)) in Hempty.
    vm_compute in Hempty. discriminate. }
  unfold exSerial.
  eapply ReachStep.
  2:{ eapply doAwait_step; [vm_compute; reflexivity|reflexivity|].
      intros m Hm. injection Hm as <-. by vm_compute. }
  eapply ReachStep.
  2:{ eapply doClose_step; [vm_compute; reflexivity|reflexivity]. }
  eapply ReachStep.
  2:{ eapply doFail_step; [vm_compute; reflexivity|reflexivity]. }
  eapply ReachStep.
  2:{ eapply doRequest_step; [vm_compute; reflexivity|reflexivity|exact Hne]. }
  eapply ReachStep.
  2:{ eapply doAwait_step; [vm_compute; reflexivity|reflexivity|].
      intros m Hm. discriminate Hm. }
  eapply ReachStep; [eapply ReachStep; [apply ReachInit|]|]; apply StepCommit.
Qed.

Lemma commit_serial_witness :
  reachable exGroup exSerial
  /\ (wTasks exSerial !! 1%nat ≫= (fun t => Some (tStage t))) = Some Ready
  /\ (wTasks exSerial !! 0%nat ≫= (fun t => Some (tStage t))) = Some Finished.
Proof.
  split; [exact exSerial_reachable|]. split; [by vm_compute|].
  destruct (wTasks exSerial !! 0%nat) as [t0|] eqn:H0; [|by vm_compute in H0].
  destruct (wTasks exSerial !! 1%nat) as [t1|] eqn:H1; [|by vm_compute in H1].
  simpl. f_equal.
  apply (proj1 (commit_serial exGroup exSerial exSerial_reachable) 0%nat 1%nat t0 t1 H0 H1);
    [lia|].
  vm_compute in H1. injection H1 as <-. discriminate.
Defined.

Lemma commit_supersedes_witness :
  reachable exGroup exSerial
  /\ commitCancel (wGroup exSerial) = Some 1%nat
  /\ 0%nat ∈ wCancelled exSerial.
Proof.
  split; [exact exSerial_reachable|]. split; [reflexivity|].
  destruct (proj1 (commit_supersedes exGroup exSerial exSerial_reachable) 0%nat)
    as [Heq|Hin]; [eexists; vm_compute; reflexivity| |exact Hin].
  vm_compute in Heq. discriminate Heq.
Defined.

Lemma commit_request_round_trip_witness :
  reachable exGroup exSerial
  /\ CevRequest 0%nat
       (PlainRequest
          (mkOffsetCommitRequest "grp" 5 "member-1" None
             (buildTopics "member-1" {[ "t"%string := {[ 0 := mkEpochOffset 3 10 ]} ]})))
     ∈ wTrace exSerial
  /\ offsetsOf (buildTopics "member-1" {[ "t"%string := {[ 0 := mkEpochOffset 3 10 ]} ]})
     = {[ "t"%string := {[ 0 := mkEpochOffset 3 10 ]} ]}.
Proof.
  assert (Hin : CevRequest 0%nat
       (PlainRequest
          (mkOffsetCommitRequest "grp" 5 "member-1" None
             (buildTopics "member-1" {[ "t"%string := {[ 0 := mkEpochOffset 3 10 ]} ]})))
     ∈ wTrace exSerial).
  { apply list_elem_of_further, list_elem_of_here. }
  split; [exact exSerial_reachable|]. split; [exact Hin|].
  destruct (commit_request_round_trip exGroup exSerial exSerial_reachable _ _ Hin)
    as (t & Ht & Hoff & _).
  vm_compute in Ht. injection Ht as <-. exact Hoff.
Defined.


(** ** [joinAndSync]: what a failure leaves behind *)

Section JoinOutcome.

Context {error : Type} `{EqDecision error}.
Context {balancePlan groupAssignment memberList metadata : Type}.
Context (ErrorForCode : Z -> option error).
Context (MemberIDRequired UnknownMemberID RebalanceInProgress : error).
Context (intoAssignment : balancePlan -> groupAssignment).
Context (zeroPlan : balancePlan).
Context (balanceGroup : groupConsumer -> string -> memberList -> balancePlan * option error).
Context (sessionTimeoutMillis rebalanceTimeoutMillis : Z).
Context (balancers : list (balancer (metadata := metadata))).

Local Abbreviation joinLoop' :=
  (joinLoop ErrorForCode MemberIDRequired UnknownMemberID RebalanceInProgress
     intoAssignment zeroPlan balanceGroup sessionTimeoutMillis rebalanceTimeoutMillis
     balancers).
Local Abbreviation joinAndSync' :=
  (joinAndSync ErrorForCode MemberIDRequired UnknownMemberID RebalanceInProgress
     intoAssignment zeroPlan balanceGroup sessionTimeoutMillis rebalanceTimeoutMillis
     balancers).



End JoinOutcome.

(** ** The session's callbacks *)

Section SessionFacts.

Context (onAssigned onRevoked : option callback).
Context (added lost : option (gmap string (list Z))).

Local Abbreviation sessionStep' := (sessionStep onAssigned onRevoked added lost).
Local Abbreviation sessionInv' := (sessionInv onAssigned onRevoked added).

Lemma sessionInv_start g : sessionInv' (newAssignRevokeSession g).
Proof.
  split; simpl; try done.
  exists [], [], []. repeat split; auto; done.
Qed.

Lemma sessionInv_step s s' : sessionInv' s -> sessionStep' s s' -> sessionInv' s'.
Proof.
  intros [(pre & mid & post & Htrace & Hpre & Hmid & Hpost & Hm0 & Hm1 & Hp0 & Hp1)
          Hprerevoke Hassign Hrevoke] Hstep.
  destruct Hstep as [s Hpd | s Hpd Had | s Hrc | s Hrc Had Hrd | s g' Hcoop].
  - destruct (Hprerevoke Hpd) as [Hnil Had]. pose proof (Hassign Had) as Hrd.
    unfold prerevokeBody. destruct (cooperative (sGroup s)).
    + destruct (revoke onRevoked (sGroup s) revokeLastSession lost) as [g' ev].
      split; simpl.
      * rewrite Hnil. exists [SevPrerevoke ev], [], [].
        split; [done|]. split; [eauto|]. split; [by left|]. split; [by left|].
        split; [done|]. split; [by rewrite Had|]. split; [done|]. by rewrite Hrd.
      * done.
      * done.
      * done.
    + split; simpl; [|done|done|done].
      exists pre, mid, post. by repeat split.
  - pose proof (Hassign Had) as Hrd. pose proof (Hm0 Had) as ->.
    pose proof (Hp0 Hrd) as ->. rewrite !app_nil_r in Htrace.
    unfold assignBody. destruct onAssigned as [f|].
    + split; simpl; [|by rewrite Hpd|done|done].
      rewrite Htrace. exists pre, [SevOnAssigned added], [].
      split; [by rewrite app_nil_r|]. split; [done|]. split; [by right|].
      split; [by left|]. split; [done|]. split; [done|]. split; [done|].
      by rewrite Hrd.
    + split; simpl; [|by rewrite Hpd|done|done].
      rewrite Htrace. exists pre, [], [].
      split; [by rewrite !app_nil_r|]. split; [done|]. split; [by left|].
      split; [by left|]. split; [done|]. split; [by intros _ []|]. split; [done|].
      by rewrite Hrd.
  - split; simpl; [|done|done|done].
    exists pre, mid, post. by repeat split.
  - pose proof (Hp0 Hrd) as ->. rewrite app_nil_r in Htrace.
    unfold revokeBody. destruct onRevoked as [f|].
    + destruct (revoke (Some f) (sGroup s) revokeThisSession None) as [g' ev].
      split; simpl; [|by intros Hpd; destruct (Hprerevoke Hpd); congruence
                     |by rewrite Had|done].
      rewrite Htrace. exists pre, mid, [SevRevoke ev].
      split; [by rewrite app_assoc|]. split; [done|]. split; [done|].
      split; [eauto|]. split; [done|]. split; [done|]. split; [done|]. done.
    + split; simpl; [|done|by rewrite Had|done].
      rewrite Htrace. exists pre, mid, [].
      split; [by rewrite app_nil_r|]. split; [done|]. split; [done|].
      split; [by left|]. split; [done|]. split; [done|]. split; [done|].
      by intros _ [].
  - split; simpl; [|done|done|done].
    exists pre, mid, post. by repeat split.
Qed.

Lemma sessionInv_rtc g s :
  rtc sessionStep' (newAssignRevokeSession g) s -> sessionInv' s.
Proof.
  intros Hrtc.
  revert s Hrtc. apply (rtc_ind_r (R := sessionStep') (fun s => sessionInv' s)).
  - apply sessionInv_start.
  - intros y z _ Hstep Hinv. by eapply sessionInv_step.
Qed.

(** X21.  The callbacks of a session are sequenced, whatever the
    interleaving of its goroutines: the calls so far are, in this order,
    at most one revoke of the partitions lost since the last session, at
    most one [onAssigned] (with the added partitions), at most one
    end-of-session revoke.  [onAssigned] is called only after the
    prerevoke has finished, and has been called, when it is set, once
    [assignDone] is closed; the end-of-session revoke runs only after
    [assignDone] is closed and [s.revoke(g)] was called. *)
Theorem session_order (g : groupConsumer) (s : session) :
  rtc sessionStep' (newAssignRevokeSession g) s ->
  exists pre mid post,
    sTrace s = pre ++ mid ++ post
    /\ (pre = [] \/ exists ev, pre = [SevPrerevoke ev])
    /\ (mid = [] \/ mid = [SevOnAssigned added])
    /\ (post = [] \/ exists ev, post = [SevRevoke ev])
    /\ (mid <> [] -> prerevokeDone s = true)
    /\ (assignDone s = true ->
        prerevokeDone s = true /\ (is_Some onAssigned -> mid = [SevOnAssigned added]))
    /\ (post <> [] -> assignDone s = true /\ revokeCalled s = true)
    /\ (revokeDone s = true -> is_Some onRevoked -> post <> []).
Proof.
  intros Hrtc.
  destruct (sessionInv_rtc g s Hrtc)
    as [(pre & mid & post & Htrace & Hpre & Hmid & Hpost & Hm0 & Hm1 & Hp0 & Hp1)
        Hprerevoke Hassign Hrevoke].
  assert (Hpd : assignDone s = true -> prerevokeDone s = true).
  { intros Had. destruct (prerevokeDone s) eqn:Hpd; [done|].
    destruct (Hprerevoke eq_refl) as [_ Had']. congruence. }
  exists pre, mid, post.
  split; [done|]. split; [done|]. split; [done|]. split; [done|].
  split; [|split; [|split]].
  - intros Hne. apply Hpd. destruct (assignDone s); [done|]. by destruct Hne; apply Hm0.
  - intros Had. split; [by apply Hpd|]. by apply Hm1.
  - intros Hne. assert (Hrd : revokeDone s = true).
    { destruct (revokeDone s); [done|]. by destruct Hne; apply Hp0. }
    split; [|by apply Hrevoke].
    destruct (assignDone s); [done|]. rewrite Hassign in Hrd; done.
  - done.
Qed.

End SessionFacts.

Lemma session_order_witness :
  rtc (sessionStep (Some (fun _ g => g)) None (Some ∅) (Some {[ "t"%string := [1] ]}))
      (newAssignRevokeSession exRebalanced) exSession
  /\ sTrace exSession
     = [SevPrerevoke
          [EvMaybeAssignPartitions (Some {[ "t"%string := {[ 1 := mkOffset 0 0 ]} ]})
             assignInvalidateMatching;
           EvRejoin];
        SevOnAssigned (Some ∅)]
  /\ exists pre mid post,
       sTrace exSession = pre ++ mid ++ post
       /\ (mid = [] \/ mid = [SevOnAssigned (Some ∅)]).
Proof.
  assert (Hrun :
    rtc (sessionStep (Some (fun _ g => g)) None (Some ∅) (Some {[ "t"%string := [1] ]}))
        (newAssignRevokeSession exRebalanced) exSession).
  { eapply rtc_l; [apply SsPrerevoke; reflexivity|].
    apply rtc_once. apply SsAssign; reflexivity. }
  split; [exact Hrun|]. split; [by vm_compute|].
  destruct (session_order _ _ _ _ _ _ Hrun)
    as (pre & mid & post & Htrace & _ & Hmid & _).
  exists pre, mid, post. by split.
Defined.
